(** * FlockingSimulation: the boid model of [src/main.cpp]

    A shallow embedding of the flocking core of [main.cpp]: the [Boid]
    structure with its kinematic update, boundary rule and the three
    steering rules, and the per-frame loop of [main].

    Numbers are the code's: every [float] is an IEEE-754 binary32 value,
    represented by [spec_float] with precision 24 and maximal exponent 128,
    and every arithmetic operation rounds to nearest-even once, as [+], [-],
    [*], [/] and [sqrtf] do on a [float].  The two external libraries the
    program calls are modelled by what the program relies on: raymath's
    [Vector2] functions by their bodies in [raymath.h], and [GetRandomValue]
    by taking the drawn integers as explicit inputs.

    The bounds that hold up to rounding are proved through the real number
    each finite binary32 value stands for: one operation on finite values
    returns the exact result rounded, with a relative error of at most
    [2^-24] and, where the result is subnormal, an absolute error of at most
    [2^-150]. *)

From Stdlib Require Import ZArith Bool Lia Reals Lra Psatz Zpower.
From Stdlib Require Import Floats.SpecFloat.
From stdpp Require Import base list.

Local Open Scope Z_scope.

(** ** binary32 scalars *)

Module F32.

Definition prec : Z := 24.
Definition emax : Z := 128.

Definition float : Type := spec_float.

Definition add : float -> float -> float := SFadd prec emax.
Definition sub : float -> float -> float := SFsub prec emax.
Definition mul : float -> float -> float := SFmul prec emax.
Definition div : float -> float -> float := SFdiv prec emax.
Definition sqrtf : float -> float := SFsqrt prec emax.

(** [x < y], [x > y] and [x <= y] of C: false as soon as an operand is NaN. *)
Definition lt (x y : float) : bool := SFltb x y.
Definition gt (x y : float) : bool := SFltb y x.
Definition le (x y : float) : bool := SFleb x y.

(** The conversion [(float) n] of an [int]. *)
Definition of_int (n : Z) : float := binary_normalize prec emax n 0 false.

Definition is_nan (x : float) : bool :=
  match x with S754_nan => true | _ => false end.

Definition is_finite (x : float) : bool :=
  match x with
  | S754_zero _ | S754_finite _ _ _ => true
  | _ => false
  end.

(** Two values with the same bits. *)
Definition same (x y : float) : bool :=
  match x, y with
  | S754_zero s, S754_zero t => Bool.eqb s t
  | S754_infinity s, S754_infinity t => Bool.eqb s t
  | S754_nan, S754_nan => true
  | S754_finite s m e, S754_finite t n f =>
    Bool.eqb s t && Pos.eqb m n && Z.eqb e f
  | _, _ => false
  end.

Definition zero : float := S754_zero false.
Definition one : float := Eval cbv in of_int 1.

End F32.

Abbreviation float := F32.float.

(** ** raymath's [Vector2] *)

Record Vector2 : Type := mkVector2 { x : float; y : float }.

Definition Vector2Zero : Vector2 := mkVector2 F32.zero F32.zero.

Definition Vector2Add (v1 v2 : Vector2) : Vector2 :=
  mkVector2 (F32.add (x v1) (x v2)) (F32.add (y v1) (y v2)).

Definition Vector2Subtract (v1 v2 : Vector2) : Vector2 :=
  mkVector2 (F32.sub (x v1) (x v2)) (F32.sub (y v1) (y v2)).

Definition Vector2Scale (v : Vector2) (scale : float) : Vector2 :=
  mkVector2 (F32.mul (x v) scale) (F32.mul (y v) scale).

Definition Vector2Length (v : Vector2) : float :=
  F32.sqrtf (F32.add (F32.mul (x v) (x v)) (F32.mul (y v) (y v))).

Definition Vector2Distance (v1 v2 : Vector2) : float :=
  F32.sqrtf
    (F32.add (F32.mul (F32.sub (x v1) (x v2)) (F32.sub (x v1) (x v2)))
             (F32.mul (F32.sub (y v1) (y v2)) (F32.sub (y v1) (y v2)))).

(** [Vector2Normalize] leaves the zero-initialised result untouched when the
    length is not positive. *)
Definition Vector2Normalize (v : Vector2) : Vector2 :=
  let length := F32.sqrtf (F32.add (F32.mul (x v) (x v)) (F32.mul (y v) (y v))) in
  if F32.gt length F32.zero then
    let ilength := F32.div F32.one length in
    mkVector2 (F32.mul (x v) ilength) (F32.mul (y v) ilength)
  else Vector2Zero.

(** ** Constants of [main.cpp] *)

Definition screenWidth : Z := 1200.
Definition screenHeight : Z := 800.
Definition NUM_BOIDS : nat := 1000.

Definition MAX_SPEED : float := S754_finite false 10485760 (-22).
Definition MAX_FORCE : float := S754_finite false 13421773 (-27).
Definition NEIGHBOR_RADIUS : float := Eval cbv in F32.of_int 100.
Definition SEPARATION_RADIUS : float := Eval cbv in F32.of_int 20.
Definition COHESION_WEIGHT : float := S754_finite false 8388608 (-24).
Definition ALIGNMENT_WEIGHT : float := S754_finite false 13421773 (-27).
Definition SEPARATION_WEIGHT : float := S754_finite false 13421773 (-26).

(** ** The [Boid] structure *)

(** [rotation] is [atan2(velocity.y, velocity.x)]; the simulation only stores
    it for drawing, so the angle is kept as the pair of arguments it was
    computed from. *)
Inductive Angle : Type := atan2 (vy vx : float).

Record Boid : Type := mkBoid {
  position : Vector2;
  velocity : Vector2;
  acceleration : Vector2;
  rotation : Angle
}.

(** The constructor; [rvx] and [rvy] are the two values drawn by
    [GetRandomValue(-2, 2)]. *)
Definition Boid_new (pos : Vector2) (rvx rvy : Z) : Boid :=
  let v := mkVector2 (F32.of_int rvx) (F32.of_int rvy) in
  mkBoid pos v Vector2Zero (atan2 (y v) (x v)).

Definition update (b : Boid) : Boid :=
  let v1 := Vector2Add (velocity b) (acceleration b) in
  let v2 := Vector2Scale (Vector2Normalize v1) MAX_SPEED in
  let p := Vector2Add (position b) v2 in
  mkBoid p v2 Vector2Zero (atan2 (y v2) (x v2)).

Definition applyForce (force : Vector2) (b : Boid) : Boid :=
  mkBoid (position b) (velocity b) (Vector2Add (acceleration b) force) (rotation b).

(** One axis of [borders]: the two [if]s run in sequence on the same field. *)
Definition wrap (bound : Z) (c : float) : float :=
  let c1 := if F32.lt c (F32.of_int 0) then F32.of_int bound else c in
  if F32.gt c1 (F32.of_int bound) then F32.of_int 0 else c1.

Definition borders (b : Boid) : Boid :=
  mkBoid (mkVector2 (wrap screenWidth (x (position b)))
                    (wrap screenHeight (y (position b))))
         (velocity b) (acceleration b) (rotation b).

(** The guard shared by the three neighbour scans: [d > 0 && d < radius]. *)
Definition in_radius (radius : float) (self other : Boid) : bool :=
  let d := Vector2Distance (position self) (position other) in
  F32.gt d (F32.of_int 0) && F32.lt d radius.

(** The clamp that ends every rule. *)
Definition limit (steer : Vector2) : Vector2 :=
  if F32.gt (Vector2Length steer) MAX_FORCE
  then Vector2Scale (Vector2Normalize steer) MAX_FORCE
  else steer.

(** Each scan is a left fold over the vector, carrying the running sum and
    [count]. *)
Definition separate_scan (self : Boid) (acc : Vector2 * Z) (other : Boid)
  : Vector2 * Z :=
  let '(steer, count) := acc in
  let d := Vector2Distance (position self) (position other) in
  if F32.gt d (F32.of_int 0) && F32.lt d SEPARATION_RADIUS then
    let diff := Vector2Subtract (position self) (position other) in
    let diff := Vector2Normalize diff in
    let diff := Vector2Scale diff (F32.div F32.one d) in
    (Vector2Add steer diff, count + 1)
  else (steer, count).

Definition separate (self : Boid) (boids : list Boid) : Vector2 :=
  let '(steer, count) := fold_left (separate_scan self) boids (Vector2Zero, 0) in
  let steer :=
    if 0 <? count
    then Vector2Scale steer (F32.div F32.one (F32.of_int count))
    else steer in
  if F32.gt (Vector2Length steer) (F32.of_int 0) then
    let steer := Vector2Normalize steer in
    let steer := Vector2Scale steer MAX_SPEED in
    let steer := Vector2Subtract steer (velocity self) in
    limit steer
  else steer.

Definition align_scan (self : Boid) (acc : Vector2 * Z) (other : Boid)
  : Vector2 * Z :=
  let '(sum, count) := acc in
  let d := Vector2Distance (position self) (position other) in
  if F32.gt d (F32.of_int 0) && F32.lt d NEIGHBOR_RADIUS then
    (Vector2Add sum (velocity other), count + 1)
  else (sum, count).

Definition align (self : Boid) (boids : list Boid) : Vector2 :=
  let '(sum, count) := fold_left (align_scan self) boids (Vector2Zero, 0) in
  if 0 <? count then
    let sum := Vector2Scale sum (F32.div F32.one (F32.of_int count)) in
    let sum := Vector2Normalize sum in
    let sum := Vector2Scale sum MAX_SPEED in
    let steer := Vector2Subtract sum (velocity self) in
    limit steer
  else Vector2Zero.

Definition cohesion_scan (self : Boid) (acc : Vector2 * Z) (other : Boid)
  : Vector2 * Z :=
  let '(sum, count) := acc in
  let d := Vector2Distance (position self) (position other) in
  if F32.gt d (F32.of_int 0) && F32.lt d NEIGHBOR_RADIUS then
    (Vector2Add sum (position other), count + 1)
  else (sum, count).

Definition cohesion (self : Boid) (boids : list Boid) : Vector2 :=
  let '(sum, count) := fold_left (cohesion_scan self) boids (Vector2Zero, 0) in
  if 0 <? count then
    let sum := Vector2Scale sum (F32.div F32.one (F32.of_int count)) in
    let steer := Vector2Subtract sum (position self) in
    let steer := Vector2Normalize steer in
    let steer := Vector2Scale steer MAX_SPEED in
    let steer := Vector2Subtract steer (velocity self) in
    limit steer
  else Vector2Zero.

(** ** The frame loop of [main] *)

(** The body of [for (auto& boid : boids)]: the three rules read the vector
    as it is when this boid's turn comes, then the boid is changed in place. *)
Definition flock_body (boid : Boid) (boids : list Boid) : Boid :=
  let sep := separate boid boids in
  let ali := align boid boids in
  let coh := cohesion boid boids in
  let sep := Vector2Scale sep SEPARATION_WEIGHT in
  let ali := Vector2Scale ali ALIGNMENT_WEIGHT in
  let coh := Vector2Scale coh COHESION_WEIGHT in
  borders (update (applyForce coh (applyForce ali (applyForce sep boid)))).

(** Iteration [i] of the loop on the vector [boids]. *)
Definition flock_at (boids : list Boid) (i : nat) : list Boid :=
  match boids !! i with
  | Some boid => <[i := flock_body boid boids]> boids
  | None => boids
  end.

(** One frame: the loop runs over the indices of the vector in order. *)
Definition tick (boids : list Boid) : list Boid :=
  fold_left flock_at (seq 0 (length boids)) boids.

(** The vector after the first [k] iterations of the loop. *)
Definition flock_upto (k : nat) (boids : list Boid) : list Boid :=
  fold_left flock_at (seq 0 k) boids.

(** ** Vocabulary of the specification *)

(** A coordinate in the half-open range [0 <= c < bound], in the closed range
    [0 <= c <= bound], and a coordinate on which neither test of [borders]
    fires. *)
Definition within_half_open (bound : Z) (c : float) : bool :=
  F32.le (F32.of_int 0) c && F32.lt c (F32.of_int bound).

Definition within_closed (bound : Z) (c : float) : bool :=
  F32.le (F32.of_int 0) c && F32.le c (F32.of_int bound).

Definition not_outside (bound : Z) (c : float) : bool :=
  negb (F32.lt c (F32.of_int 0)) && negb (F32.gt c (F32.of_int bound)).

(** The position lies in [[0, width) x [0, height)]. *)
Definition in_screen (p : Vector2) : bool :=
  within_half_open screenWidth (x p) && within_half_open screenHeight (y p).

(** The position lies in [[0, width] x [0, height]], both edges included. *)
Definition on_screen (p : Vector2) : bool :=
  within_closed screenWidth (x p) && within_closed screenHeight (y p).

Definition is_number (p : Vector2) : bool :=
  negb (F32.is_nan (x p)) && negb (F32.is_nan (y p)).

Definition is_finite_vector (p : Vector2) : bool :=
  F32.is_finite (x p) && F32.is_finite (y p).

(** No agent of the vector passes the scan guard of [self] for [radius]. *)
Definition no_neighbor (radius : float) (self : Boid) (boids : list Boid) : Prop :=
  Forall (fun other => in_radius radius self other = false) boids.

(** The fully snapshotted two-phase update of the specification: every agent's
    forces are computed against the agent set of the end of the previous
    frame, and only then are the agents integrated. *)
Definition tick_snapshot (boids : list Boid) : list Boid :=
  (fun boid => flock_body boid boids) <$> boids.

(** *** Reachable states *)

(** What [main] draws for one boid: [GetRandomValue(0, screenWidth)],
    [GetRandomValue(0, screenHeight)] and twice [GetRandomValue(-2, 2)], each
    range with both ends included. *)
Record Draw : Type := mkDraw { draw_x : Z; draw_y : Z; draw_vx : Z; draw_vy : Z }.

Definition valid_draw (d : Draw) : bool :=
  (0 <=? draw_x d) && (draw_x d <=? screenWidth) &&
  (0 <=? draw_y d) && (draw_y d <=? screenHeight) &&
  (-2 <=? draw_vx d) && (draw_vx d <=? 2) &&
  (-2 <=? draw_vy d) && (draw_vy d <=? 2).

Definition spawn (d : Draw) : Boid :=
  Boid_new (mkVector2 (F32.of_int (draw_x d)) (F32.of_int (draw_y d)))
           (draw_vx d) (draw_vy d).

(** The flock before the first frame, and after any number of frames. *)
Inductive reachable : list Boid -> Prop :=
| reachable_init (draws : list Draw) :
    length draws = NUM_BOIDS ->
    forallb valid_draw draws = true ->
    reachable (spawn <$> draws)
| reachable_tick (boids : list Boid) :
    reachable boids -> reachable (tick boids).

(** [c'] is what one axis of [borders] makes of [c]. *)
Definition wraps_to (bound : Z) (c c' : float) : Prop :=
  (F32.lt c (F32.of_int 0) = true -> c' = F32.of_int bound) /\
  (F32.gt c (F32.of_int bound) = true -> c' = F32.of_int 0) /\
  (F32.lt c (F32.of_int 0) = false -> F32.gt c (F32.of_int bound) = false ->
   c' = c).

(** *** Sample agents *)

(** A boid spawned on the left edge and heading left, after its first
    [update]: it has left the screen by one step. *)
Definition stray : Boid := update (spawn (mkDraw 0 400 (-1) 0)).

(** A boid spawned on the right edge. *)
Definition edge : Boid := spawn (mkDraw 1200 400 0 0).

(** Neither test of [borders] fires on the position of [b]. *)
Definition kept_on_screen (b : Boid) : bool :=
  not_outside screenWidth (x (position b)) &&
  not_outside screenHeight (y (position b)).

(** *** Sample flocks *)

(** An initial flock of [NUM_BOIDS] boids: two neighbours, and the rest
    spawned on one spot far from them. *)
Definition pair_flock : list Boid :=
  spawn <$> (mkDraw 100 100 1 1 :: mkDraw 110 100 0 1 ::
             replicate 998 (mkDraw 1000 700 0 0)).

(** An initial flock with every boid drawn at the largest coordinates. *)
Definition corner_flock : list Boid :=
  spawn <$> replicate 1000 (mkDraw 1200 800 0 0).

(** Three boids spawned close to one another with the same velocity
    [(1, 0)], and three with the same velocity [(2.5, 0)], which is already
    at full speed. *)
Definition trio_a : Boid := spawn (mkDraw 100 100 1 0).
Definition trio_b : Boid := spawn (mkDraw 110 100 1 0).
Definition trio_c : Boid := spawn (mkDraw 100 110 1 0).
Definition slow_trio : list Boid := [trio_a; trio_b; trio_c].


(** *** Alignment with two neighbours of velocity [v] *)





(** An initial pair of neighbours with velocities [(0, 1)] and [(1, 1)]. *)
Definition north : Boid := spawn (mkDraw 100 100 0 1).
Definition north_east : Boid := spawn (mkDraw 110 100 1 1).

(** *** Vocabulary of the steering rules *)

(** The agents of the vector that pass the scan guard of [self], in the
    order of the vector. *)
Definition neighbors (radius : float) (self : Boid) (boids : list Boid)
  : list Boid :=
  List.filter (in_radius radius self) boids.

(** A force that went through the clamp: its length as [Vector2Length]
    computes it is not above [MAX_FORCE], or it is a longer vector normalised
    and scaled to [MAX_FORCE]. *)
Definition clamped (force : Vector2) : Prop :=
  F32.gt (Vector2Length force) MAX_FORCE = false \/
  exists steer,
    F32.gt (Vector2Length steer) MAX_FORCE = true /\
    force = Vector2Scale (Vector2Normalize steer) MAX_FORCE.

(** Two agents with the same [position] and [velocity]. *)
Definition same_motion (b1 b2 : Boid) : Prop :=
  position b1 = position b2 /\ velocity b1 = velocity b2.

(** The state in which [update] leaves the two fields it recomputes. *)
Definition settled (b : Boid) : Prop :=
  acceleration b = Vector2Zero /\
  rotation b = atan2 (y (velocity b)) (x (velocity b)).

(** A boid as [main] spawns it when both draws of its velocity are 0. *)
Definition spawned_at_rest (b : Boid) : Prop :=
  exists d, b = spawn d /\ valid_draw d = true /\
            draw_vx d = 0 /\ draw_vy d = 0.

(** A flock of such boids in which no agent passes the guard of another. *)
Definition still_flock (boids : list Boid) : Prop :=
  Forall (fun b => spawned_at_rest b /\ no_neighbor NEIGHBOR_RADIUS b boids)
         boids.

(** Two boids spawned at rest in opposite corners of the screen. *)
Definition corners : list Boid :=
  [spawn (mkDraw 0 0 0 0); spawn (mkDraw 1200 800 0 0)].

(** A distance that no radius test accepts: NaN or [+infinity]. *)
Definition unbounded (d : float) : bool :=
  match d with
  | S754_nan | S754_infinity false => true
  | _ => false
  end.

(** A value that is not negative: NaN, or sign bit clear. *)
Definition sign_clear (c : float) : bool :=
  match c with
  | S754_nan => true
  | S754_zero s | S754_infinity s | S754_finite s _ _ => negb s
  end.

(** *** Vocabulary of the rounding bounds *)

(** A binary32 value that is a number: in canonical form and neither NaN nor
    infinite. *)
Definition regular (c : float) : bool :=
  valid_binary F32.prec F32.emax c && F32.is_finite c.

Definition regular_vector (v : Vector2) : bool :=
  regular (x v) && regular (y v).

(** [MAX_SPEED] less and plus 10 units in the last place, that is
    [MAX_SPEED * (1 -+ 2^-20)], and [MAX_FORCE] plus 13 units in the last
    place, the first binary32 value above [MAX_FORCE * (1 + 2^-20)]. *)
Definition SPEED_FLOOR : float := S754_finite false 10485750 (-22).
Definition SPEED_CEILING : float := S754_finite false 10485770 (-22).
Definition FORCE_CEILING : float := S754_finite false 13421786 (-27).

(** The lengths [2^-29] and [2^60]. *)
Definition SHORT : float := S754_finite false 8388608 (-52).

(** *** Sample agents for the speed after [update] *)

(** [north] with the three weighted forces of a frame among
    [[north; north_east]] applied, as [flock_body] hands it to [update]. *)
Definition pushed_north : Boid :=
  applyForce
    (Vector2Scale (cohesion north [north; north_east]) COHESION_WEIGHT)
    (applyForce
       (Vector2Scale (align north [north; north_east]) ALIGNMENT_WEIGHT)
       (applyForce
          (Vector2Scale (separate north [north; north_east]) SEPARATION_WEIGHT)
          north)).

(** An agent that moves by [2^-100] per frame along each axis. *)
Definition crawling : Boid :=
  mkBoid (mkVector2 (F32.of_int 100) (F32.of_int 100))
         (mkVector2 (S754_finite false 8388608 (-123))
                    (S754_finite false 8388608 (-123)))
         Vector2Zero
         (atan2 (S754_finite false 8388608 (-123))
                (S754_finite false 8388608 (-123))).

(** ** The real numbers behind binary32 values *)

(** The real number [2^e]. *)
Definition bpow (e : Z) : R := powerRZ 2 e.
Arguments bpow : simpl never.

(** The real number a binary32 value stands for, and 0 for the values that
    are not finite. *)
Definition F2R (f : spec_float) : R :=
  match f with
  | S754_finite s m e => (if s then -1 else 1) * IZR (Z.pos m) * bpow e
  | _ => 0%R
  end.

(** The location [l] places the real [x] in [[m, m + 1)]: on [m], or below,
    on or above the middle of the interval. *)
Definition loc_ok (m : Z) (l : location) (x : R) : Prop :=
  match l with
  | loc_Exact => x = IZR m
  | loc_Inexact Lt => (IZR m < x < IZR m + / 2)%R
  | loc_Inexact Eq => x = (IZR m + / 2)%R
  | loc_Inexact Gt => (IZR m + / 2 < x < IZR m + 1)%R
  end.

(** The same for the record that [shr_1] shifts. *)
Definition rec_ok (mrs : shr_record) (x : R) : Prop :=
  loc_ok (shr_m mrs) (loc_of_shr_record mrs) x.

(** [fexp] of binary32: the exponent of the last place of a value with its
    first digit at place [e]. *)
Definition fexp32 (e : Z) : Z := Z.max (e - 24) (-149).

(** What [binary_round_aux] returns once the mantissa is rounded to [m2] at
    the exponent [e1]. *)
Definition bra_result (sx : bool) (m2 e1 : Z) : spec_float :=
  if m2 =? 0 then S754_zero sx
  else if m2 =? 2 ^ 24 then
    (if e1 + 1 <=? 104 then S754_finite sx (2 ^ 23)%positive (e1 + 1)
     else S754_infinity sx)
  else if e1 <=? 104 then S754_finite sx (Z.to_pos m2) e1
  else S754_infinity sx.

(** A value in the canonical form of binary32. *)
Definition valid (f : spec_float) : bool := valid_binary F32.prec F32.emax f.

(** The unit roundoff, and half the smallest positive value. *)
Definition u : R := bpow (-24).
Definition eta : R := bpow (-150).

(** [r] is what rounding the non-negative real [X], with sign [sx], gives:
    infinity only for [X] above [2^127], zero only for [X] up to [eta0],
    and else a finite value with a relative error of at most [u] or, below
    [2^-125], an absolute error of at most [eta0]. *)
Definition rounded (eta0 : R) (r : spec_float) (sx : bool) (X : R) : Prop :=
  valid r = true /\
  match r with
  | S754_nan => False
  | S754_infinity s => s = sx /\ (bpow 127 < X)%R
  | S754_zero s => s = sx /\ (X <= eta0)%R
  | S754_finite s m e =>
    s = sx /\ (0 < X)%R /\
    ((Rabs (IZR (Z.pos m) * bpow e - X) <= u * X)%R \/
     ((Rabs (IZR (Z.pos m) * bpow e - X) <= eta0)%R /\ (X < bpow (-125))%R))
  end.

(** The sign bit. *)
Definition sgn (f : float) : bool :=
  match f with
  | S754_zero s | S754_infinity s | S754_finite s _ _ => s
  | S754_nan => false
  end.

(** A finite value in canonical form. *)
Definition fin (f : float) : Prop :=
  valid f = true /\ F32.is_finite f = true.

(** [+infinity]. *)
Definition pinf : float := S754_infinity false.

(** The exact squared norm of a vector of finite components. *)
Definition norm2 (v : Vector2) : R :=
  (F2R (x v) * F2R (x v) + F2R (y v) * F2R (y v))%R.

(** A vector of finite components. *)
Definition finv (v : Vector2) : Prop := fin (x v) /\ fin (y v).

Local Open Scope R_scope.

(** [r] is what rounding the real [V] gives: [rounded] with the sign of
    [V]. *)
Definition rounds (eta0 : R) (r : float) (V : R) : Prop :=
  exists s, rounded eta0 r s (Rabs V) /\
            (0 < V -> s = false) /\ (V < 0 -> s = true).

(** A finite value of magnitude at most [B]. *)
Definition within (B : R) (f : float) : Prop := fin f /\ Rabs (F2R f) <= B.

(** A vector of such components. *)
Definition withinv (B : R) (v : Vector2) : Prop :=
  within B (x v) /\ within B (y v).

(** An agent whose position and velocity are finite and of the magnitude the
    simulation keeps them in. *)
Definition tame (b : Boid) : Prop :=
  withinv 1201 (position b) /\ withinv 15 (velocity b).

(** What every rule returns: a finite force whose length, as
    [Vector2Length] computes it, is at most [MAX_FORCE] within 16 units of
    relative error [u]. *)
Definition bounded_force (force : Vector2) : Prop :=
  withinv (/ 4) force /\ fin (Vector2Length force) /\
  F2R (Vector2Length force) <= F2R MAX_FORCE * (1 + 16 * / 16777216).

(** The state in which the frame loop finds and leaves every agent. *)
Definition good (b : Boid) : Prop :=
  tame b /\ acceleration b = Vector2Zero.

Local Close Scope R_scope.

(** * Properties *)

(** ** Comparisons and cancellation on binary32 values *)

Module F32Facts.

Lemma compare_antisym (c d : float) :
  SFcompare d c = option_map CompOpp (SFcompare c d).
Proof.
  destruct c as [sc | sc | | sc mc ec], d as [sd | sd | | sd md ed];
    simpl; try reflexivity;
    try (destruct sc; reflexivity); try (destruct sd; reflexivity);
    try (destruct sc, sd; reflexivity).
  f_equal.
  pose proof (Pos.compare_cont_antisym mc md Eq) as Hm. simpl in Hm.
  rewrite (Z.compare_antisym ec ed).
  destruct sc, sd; simpl; try reflexivity;
    destruct (ec ?= ed); simpl; try reflexivity.
  - rewrite <- Hm. destruct (Pos.compare_cont Eq mc md); reflexivity.
  - symmetry. exact Hm.
Qed.

Lemma compare_not_nan (c d : float) :
  F32.is_nan c = false -> F32.is_nan d = false ->
  exists r, SFcompare c d = Some r.
Proof.
  destruct c, d; simpl; intros; try discriminate; eauto.
Qed.

(** For numbers, [c < d] false means [d <= c]. *)
Lemma lt_false_le (c d : float) :
  F32.is_nan c = false -> F32.is_nan d = false ->
  F32.lt c d = false -> F32.le d c = true.
Proof.
  intros Hc Hd. unfold F32.lt, F32.le, SFltb, SFleb.
  rewrite (compare_antisym c d).
  destruct (compare_not_nan c d Hc Hd) as [r ->].
  destruct r; simpl; congruence.
Qed.

Lemma lt_nan_l (d : float) : F32.lt S754_nan d = false.
Proof. reflexivity. Qed.

Lemma lt_nan_r (c : float) : F32.lt c S754_nan = false.
Proof. destruct c; reflexivity. Qed.

(** [c - c] is [+0] for a finite [c], and NaN for an infinity or a NaN. *)
Lemma sub_diag_finite (c : float) :
  F32.is_finite c = true -> F32.sub c c = F32.zero.
Proof.
  destruct c as [s | s | | s m e]; simpl; try discriminate; intros _.
  - destruct s; reflexivity.
  - unfold F32.sub, SFsub. rewrite Z.sub_diag. reflexivity.
Qed.

Lemma sub_diag (c : float) :
  F32.sub c c = F32.zero \/ F32.sub c c = S754_nan.
Proof.
  destruct (F32.is_finite c) eqn:Hc.
  - left. apply sub_diag_finite, Hc.
  - right. destruct c as [s | s | | s m e]; try discriminate.
    + destruct s; reflexivity.
    + reflexivity.
Qed.

Lemma same_refl (c : float) : F32.same c c = true.
Proof.
  destruct c as [s | s | | s m e]; simpl;
    rewrite ?eqb_reflx, ?Pos.eqb_refl, ?Z.eqb_refl; reflexivity.
Qed.

Lemma same_eq (c d : float) : F32.same c d = true -> c = d.
Proof.
  destruct c as [s | s | | s m e], d as [t | t | | t n f]; simpl;
    try discriminate; try reflexivity.
  - intros H. apply eqb_prop in H. congruence.
  - intros H. apply eqb_prop in H. congruence.
  - intros H. apply andb_prop in H as [H He]. apply andb_prop in H as [Hs Hm].
    apply eqb_prop in Hs. apply Pos.eqb_eq in Hm. apply Z.eqb_eq in He.
    congruence.
Qed.

(** Rounding is symmetric in the sign. *)
Lemma binary_round_aux_opp (s : bool) (m e : Z) (l : location) :
  binary_round_aux F32.prec F32.emax (negb s) m e l =
  SFopp (binary_round_aux F32.prec F32.emax s m e l).
Proof.
  unfold binary_round_aux.
  destruct (shr_fexp F32.prec F32.emax m e l) as [mrs1 e1].
  destruct (shr_fexp F32.prec F32.emax _ e1 loc_Exact) as [mrs2 e2].
  destruct (shr_m mrs2); try reflexivity.
  destruct (e2 <=? F32.emax - F32.prec); reflexivity.
Qed.

Lemma binary_normalize_opp (z e : Z) :
  z <> 0 ->
  binary_normalize F32.prec F32.emax (- z) e false =
  SFopp (binary_normalize F32.prec F32.emax z e false).
Proof.
  intros Hz. destruct z as [| p | p]; [congruence | |]; simpl.
  - unfold binary_round.
    destruct (shl_align p e _) as [mz ez].
    apply (binary_round_aux_opp false).
  - unfold binary_round.
    destruct (shl_align p e _) as [mz ez].
    apply (binary_round_aux_opp true).
Qed.

(** [d - c] is the opposite of [c - d], except that both are [+0] when the
    difference is zero. *)
Lemma sub_antisym (c d : float) :
  F32.sub d c = SFopp (F32.sub c d) \/
  (F32.sub c d = F32.zero /\ F32.sub d c = F32.zero).
Proof.
  destruct c as [s | s | | s m e], d as [t | t | | t n f];
    try (left; reflexivity);
    try (destruct s, t; (left; reflexivity) || (right; split; reflexivity)).
  unfold F32.sub, SFsub.
  rewrite (Z.min_comm f e).
  set (ez := Z.min e f).
  set (A := cond_Zopp s (Z.pos (fst (shl_align m e ez)))).
  set (B := cond_Zopp t (Z.pos (fst (shl_align n f ez)))).
  destruct (Z.eq_dec (A - B) 0) as [H0 | H0].
  - right. replace (B - A) with 0 by lia. rewrite H0. split; reflexivity.
  - left. replace (B - A) with (- (A - B)) by lia.
    apply binary_normalize_opp, H0.
Qed.

Lemma mul_opp_opp (c : float) : F32.mul (SFopp c) (SFopp c) = F32.mul c c.
Proof. destruct c as [s | s | | s m e]; try destruct s; reflexivity. Qed.

Lemma sub_square_sym (c d : float) :
  F32.mul (F32.sub d c) (F32.sub d c) = F32.mul (F32.sub c d) (F32.sub c d).
Proof.
  destruct (sub_antisym c d) as [-> | [-> ->]].
  - apply mul_opp_opp.
  - reflexivity.
Qed.

(** What is not [> 0] is not [> c] for a positive [c]. *)
Lemma gt_zero_false (c : float) (m : positive) (e : Z) :
  F32.gt c (F32.of_int 0) = false ->
  F32.gt c (S754_finite false m e) = false.
Proof.
  destruct c as [s | s | | s mc ec]; try destruct s;
    try (intros; reflexivity); discriminate.
Qed.

End F32Facts.

(** ** The boundary rule *)

Section Wrap.

Variable bound : Z.
Variables (m : positive) (e : Z).
Hypothesis bound_float : F32.of_int bound = S754_finite false m e.

Lemma lt_irrefl (c : float) : F32.lt c c = false.
Proof.
  unfold F32.lt, SFltb.
  pose proof (F32Facts.compare_antisym c c) as H.
  destruct (SFcompare c c) as [[ | | ] | ]; simpl in H; congruence.
Qed.

Lemma wrap_below (c : float) :
  F32.lt c (F32.of_int 0) = true -> wrap bound c = F32.of_int bound.
Proof.
  intros H. unfold wrap. rewrite H.
  unfold F32.gt. rewrite lt_irrefl. reflexivity.
Qed.

Lemma wrap_above (c : float) :
  F32.gt c (F32.of_int bound) = true -> wrap bound c = F32.of_int 0.
Proof.
  intros H. unfold wrap.
  assert (F32.lt c (F32.of_int 0) = false) as ->.
  { rewrite bound_float in H.
    destruct c as [s | s | | s mc ec]; try destruct s;
      (reflexivity || discriminate). }
  rewrite H. reflexivity.
Qed.

Lemma wrap_inside (c : float) :
  F32.lt c (F32.of_int 0) = false -> F32.gt c (F32.of_int bound) = false ->
  wrap bound c = c.
Proof. intros H0 H1. unfold wrap. rewrite H0, H1. reflexivity. Qed.

Lemma wrap_at_bound : wrap bound (F32.of_int bound) = F32.of_int bound.
Proof.
  apply wrap_inside.
  - rewrite bound_float. reflexivity.
  - apply lt_irrefl.
Qed.

(** After [wrap], neither test of [borders] fires any more. *)
Lemma wrap_not_outside (c : float) : not_outside bound (wrap bound c) = true.
Proof.
  unfold not_outside.
  destruct (F32.lt c (F32.of_int 0)) eqn:H0.
  - rewrite (wrap_below c H0). unfold F32.gt. rewrite lt_irrefl.
    rewrite bound_float. reflexivity.
  - destruct (F32.gt c (F32.of_int bound)) eqn:H1.
    + rewrite (wrap_above c H1). rewrite bound_float. reflexivity.
    + rewrite (wrap_inside c H0 H1), H0, H1. reflexivity.
Qed.

Lemma wrap_idempotent (c : float) : wrap bound (wrap bound c) = wrap bound c.
Proof.
  pose proof (wrap_not_outside c) as H. unfold not_outside in H.
  apply andb_prop in H as [H0 H1].
  apply negb_true_iff in H0, H1.
  apply wrap_inside; assumption.
Qed.

Lemma wrap_not_nan (c : float) :
  F32.is_nan c = false -> F32.is_nan (wrap bound c) = false.
Proof.
  intros Hc. unfold wrap.
  destruct (F32.lt c (F32.of_int 0)).
  - unfold F32.gt. rewrite lt_irrefl, bound_float. reflexivity.
  - destruct (F32.gt c (F32.of_int bound)); [reflexivity | exact Hc].
Qed.

Lemma not_outside_closed (c : float) :
  F32.is_nan c = false -> not_outside bound c = true ->
  within_closed bound c = true.
Proof.
  intros Hc H. unfold not_outside in H.
  apply andb_prop in H as [H0 H1].
  apply negb_true_iff in H0, H1.
  unfold within_closed. apply andb_true_intro. split.
  - apply F32Facts.lt_false_le; [exact Hc | reflexivity | exact H0].
  - apply F32Facts.lt_false_le;
      [rewrite bound_float; reflexivity | exact Hc | exact H1].
Qed.

Lemma wrap_closed (c : float) :
  F32.is_nan c = false -> within_closed bound (wrap bound c) = true.
Proof.
  intros Hc. apply not_outside_closed.
  - apply wrap_not_nan, Hc.
  - apply wrap_not_outside.
Qed.

End Wrap.

Lemma screenWidth_float :
  F32.of_int screenWidth = S754_finite false 9830400 (-13).
Proof. reflexivity. Qed.

Lemma screenHeight_float :
  F32.of_int screenHeight = S754_finite false 13107200 (-14).
Proof. reflexivity. Qed.

(** C1, as stated, fails: a boid that left the screen on the left is put on
    the right edge, at [x = width] itself, and a boid standing exactly at
    [x = width] stays there instead of going to [0]. *)
Lemma borders_reaches_the_bound :
  F32.lt (x (position stray)) (F32.of_int 0) = true /\
  x (position (borders stray)) = F32.of_int screenWidth /\
  in_screen (position (borders stray)) = false /\
  x (position edge) = F32.of_int screenWidth /\
  x (position (borders edge)) = F32.of_int screenWidth /\
  in_screen (position (borders edge)) = false.
Proof. vm_compute. repeat split; reflexivity. Qed.

(** C1, amended: after [borders], a position whose coordinates are numbers
    lies in the closed rectangle [0 <= x <= width], [0 <= y <= height]; per
    axis, a coordinate below 0 becomes the bound itself, a coordinate above
    the bound becomes 0, and any other coordinate, the bound included, is
    left as it is. *)
Theorem borders_closed_range (b : Boid) :
  is_number (position b) = true ->
  on_screen (position (borders b)) = true /\
  wraps_to screenWidth (x (position b)) (x (position (borders b))) /\
  wraps_to screenHeight (y (position b)) (y (position (borders b))).
Proof.
  intros Hn. unfold is_number in Hn.
  apply andb_prop in Hn as [Hx Hy]. apply negb_true_iff in Hx, Hy.
  split; [| split].
  - unfold on_screen. simpl. apply andb_true_intro. split.
    + exact (wrap_closed _ _ _ screenWidth_float _ Hx).
    + exact (wrap_closed _ _ _ screenHeight_float _ Hy).
  - simpl. repeat split.
    + apply (wrap_below _ (x (position b))).
    + apply (wrap_above _ _ _ screenWidth_float).
    + intros H0 H1. apply wrap_inside; assumption.
  - simpl. repeat split.
    + apply (wrap_below _ (y (position b))).
    + apply (wrap_above _ _ _ screenHeight_float).
    + intros H0 H1. apply wrap_inside; assumption.
Qed.

Lemma borders_closed_range_witness :
  is_number (position stray) = true /\
  on_screen (position (borders stray)) = true /\
  wraps_to screenWidth (x (position stray)) (x (position (borders stray))) /\
  wraps_to screenHeight (y (position stray)) (y (position (borders stray))).
Proof.
  split; [reflexivity |].
  apply (borders_closed_range stray). reflexivity.
Defined.

(** C9: [borders] writes [position] only; [velocity], [acceleration] and
    [rotation] are those of the boid it was given. *)
Theorem borders_frame (b : Boid) :
  velocity (borders b) = velocity b /\
  acceleration (borders b) = acceleration b /\
  rotation (borders b) = rotation b.
Proof. destruct b as [p v a r]. repeat split. Qed.

(** C10: [borders] is idempotent: a second application changes nothing. *)
Theorem borders_idempotent (b : Boid) : borders (borders b) = borders b.
Proof.
  destruct b as [[px py] v a r]. unfold borders. simpl.
  rewrite (wrap_idempotent _ _ _ screenWidth_float px).
  rewrite (wrap_idempotent _ _ _ screenHeight_float py).
  reflexivity.
Qed.

(** ** The neighbour scans *)

Section Scans.

Variable self : Boid.

Lemma separate_scan_skip (acc : Vector2 * Z) (other : Boid) :
  in_radius SEPARATION_RADIUS self other = false ->
  separate_scan self acc other = acc.
Proof.
  intros H. destruct acc as [steer count].
  unfold separate_scan. unfold in_radius in H. cbv zeta in *.
  rewrite H. reflexivity.
Qed.

Lemma align_scan_skip (acc : Vector2 * Z) (other : Boid) :
  in_radius NEIGHBOR_RADIUS self other = false ->
  align_scan self acc other = acc.
Proof.
  intros H. destruct acc as [sum count].
  unfold align_scan. unfold in_radius in H. cbv zeta in *.
  rewrite H. reflexivity.
Qed.

Lemma cohesion_scan_skip (acc : Vector2 * Z) (other : Boid) :
  in_radius NEIGHBOR_RADIUS self other = false ->
  cohesion_scan self acc other = acc.
Proof.
  intros H. destruct acc as [sum count].
  unfold cohesion_scan. unfold in_radius in H. cbv zeta in *.
  rewrite H. reflexivity.
Qed.

Lemma align_scan_take (sum : Vector2) (count : Z) (other : Boid) :
  in_radius NEIGHBOR_RADIUS self other = true ->
  align_scan self (sum, count) other =
  (Vector2Add sum (velocity other), count + 1).
Proof.
  intros H. unfold align_scan. unfold in_radius in H. cbv zeta in *.
  rewrite H. reflexivity.
Qed.

(** A scan that skips every element returns its accumulator. *)
Lemma scan_all_skipped {A : Type} (scan : A -> Boid -> A) (radius : float)
      (boids : list Boid) (acc : A) :
  (forall a other, in_radius radius self other = false -> scan a other = a) ->
  no_neighbor radius self boids ->
  fold_left scan boids acc = acc.
Proof.
  intros Hskip Hno. induction Hno as [| other rest Hother _ IH]; simpl.
  - reflexivity.
  - rewrite (Hskip acc other Hother). exact IH.
Qed.

(** Dropping a skipped element from the vector does not change a scan. *)
Lemma scan_drop_skipped {A : Type} (scan : A -> Boid -> A)
      (before after : list Boid) (other : Boid) (acc : A) :
  (forall a, scan a other = a) ->
  fold_left scan (before ++ other :: after) acc =
  fold_left scan (before ++ after) acc.
Proof.
  intros Hskip. rewrite !fold_left_app. simpl. rewrite Hskip. reflexivity.
Qed.

End Scans.

(** The distance of a position to itself is [+0], or NaN when a coordinate is
    not finite; neither is [> 0]. *)
Lemma in_radius_coincident (radius : float) (self other : Boid) :
  position other = position self -> in_radius radius self other = false.
Proof.
  intros H. unfold in_radius, Vector2Distance. rewrite H.
  destruct (F32Facts.sub_diag (x (position self))) as [-> | ->],
           (F32Facts.sub_diag (y (position self))) as [-> | ->];
    reflexivity.
Qed.

(** C6: a rule whose scan finds no agent with [0 < d < radius] returns the
    zero vector [(+0, +0)]: [separate] for [SEPARATION_RADIUS], [align] and
    [cohesion] for [NEIGHBOR_RADIUS].  The rules are total functions, so
    nothing is raised. *)
Theorem no_neighbor_zero_force (self : Boid) (boids : list Boid) :
  (no_neighbor SEPARATION_RADIUS self boids ->
   separate self boids = Vector2Zero) /\
  (no_neighbor NEIGHBOR_RADIUS self boids ->
   align self boids = Vector2Zero /\ cohesion self boids = Vector2Zero).
Proof.
  split; [intros H | intros H; split].
  - unfold separate.
    rewrite (scan_all_skipped self _ _ boids _ (separate_scan_skip self) H).
    reflexivity.
  - unfold align.
    rewrite (scan_all_skipped self _ _ boids _ (align_scan_skip self) H).
    reflexivity.
  - unfold cohesion.
    rewrite (scan_all_skipped self _ _ boids _ (cohesion_scan_skip self) H).
    reflexivity.
Qed.

(** C7: an agent is never its own neighbour, whatever the radius, and two
    agents at the same position do not see each other: taking one of them
    out of the vector changes none of the other's three steering forces. *)
Theorem coincident_agents_invisible
        (radius : float) (self other : Boid) (before after : list Boid) :
  position other = position self ->
  in_radius radius self self = false /\
  in_radius radius self other = false /\
  in_radius radius other self = false /\
  separate self (before ++ other :: after) = separate self (before ++ after) /\
  align self (before ++ other :: after) = align self (before ++ after) /\
  cohesion self (before ++ other :: after) = cohesion self (before ++ after).
Proof.
  intros H.
  split; [apply in_radius_coincident; reflexivity |].
  split; [apply in_radius_coincident; exact H |].
  split; [apply in_radius_coincident; symmetry; exact H |].
  split; [| split].
  - unfold separate. rewrite scan_drop_skipped; [reflexivity |].
    intros a. apply separate_scan_skip, in_radius_coincident, H.
  - unfold align. rewrite scan_drop_skipped; [reflexivity |].
    intros a. apply align_scan_skip, in_radius_coincident, H.
  - unfold cohesion. rewrite scan_drop_skipped; [reflexivity |].
    intros a. apply cohesion_scan_skip, in_radius_coincident, H.
Qed.

(** ** The frame loop *)

Section Loop.

Local Open Scope nat_scope.

Variable boids : list Boid.

Lemma flock_upto_S (k : nat) :
  flock_upto (S k) boids = flock_at (flock_upto k boids) k.
Proof.
  unfold flock_upto. rewrite seq_S, fold_left_app. reflexivity.
Qed.

Lemma flock_at_length (l : list Boid) (i : nat) :
  length (flock_at l i) = length l.
Proof.
  unfold flock_at. destruct (l !! i); [apply length_insert | reflexivity].
Qed.

Lemma flock_at_lookup_ne (l : list Boid) (i j : nat) :
  i <> j -> flock_at l i !! j = l !! j.
Proof.
  intros H. unfold flock_at.
  destruct (l !! i); [apply list_lookup_insert_ne, H | reflexivity].
Qed.

Lemma flock_at_lookup_eq (l : list Boid) (i : nat) (b : Boid) :
  l !! i = Some b -> flock_at l i !! i = Some (flock_body b l).
Proof.
  intros H. unfold flock_at. rewrite H.
  apply list_lookup_insert_eq. eapply lookup_lt_Some, H.
Qed.

Lemma flock_upto_length (k : nat) :
  length (flock_upto k boids) = length boids.
Proof.
  induction k as [| k IH]; [reflexivity |].
  rewrite flock_upto_S, flock_at_length. exact IH.
Qed.

(** The first [k] iterations leave the agents from index [k] on untouched. *)
Lemma flock_upto_lookup_ge (k j : nat) :
  k <= j -> flock_upto k boids !! j = boids !! j.
Proof.
  induction k as [| k IH]; intros H; [reflexivity |].
  rewrite flock_upto_S, flock_at_lookup_ne by lia.
  apply IH. lia.
Qed.

(** Agent [j] is written once, by iteration [j]. *)
Lemma flock_upto_lookup_lt (k j : nat) :
  j < k -> flock_upto k boids !! j = flock_upto (S j) boids !! j.
Proof.
  induction k as [| k IH]; intros H; [lia |].
  destruct (decide (j = k)) as [-> | Hne]; [reflexivity |].
  rewrite flock_upto_S, flock_at_lookup_ne by congruence.
  apply IH. lia.
Qed.

Lemma flock_upto_step (j : nat) (b : Boid) :
  boids !! j = Some b ->
  flock_upto (S j) boids !! j = Some (flock_body b (flock_upto j boids)).
Proof.
  intros H. rewrite flock_upto_S. apply flock_at_lookup_eq.
  rewrite flock_upto_lookup_ge by lia. exact H.
Qed.

(** What iteration [j] reads: the agents before [j] as the frame leaves
    them, the agents from [j] on as the frame found them. *)
Lemma flock_upto_split (k j : nat) :
  j <= k -> k <= length boids ->
  flock_upto j boids = take j (flock_upto k boids) ++ drop j boids.
Proof.
  intros Hjk Hk. apply list_eq. intros i.
  assert (length (take j (flock_upto k boids)) = j) as Hlen.
  { rewrite length_take, flock_upto_length. lia. }
  destruct (decide (i < j)) as [Hi | Hi].
  - rewrite lookup_app_l by lia.
    rewrite lookup_take_lt by exact Hi.
    rewrite (flock_upto_lookup_lt j i) by exact Hi.
    rewrite (flock_upto_lookup_lt k i) by lia.
    reflexivity.
  - rewrite lookup_app_r by lia.
    rewrite Hlen, lookup_drop.
    rewrite flock_upto_lookup_ge by lia.
    f_equal. lia.
Qed.

Lemma tick_length : length (tick boids) = length boids.
Proof. apply flock_upto_length. Qed.

(** The agent at index [i] after a frame. *)
Lemma tick_lookup (i : nat) (b : Boid) :
  boids !! i = Some b ->
  tick boids !! i =
  Some (flock_body b (take i (tick boids) ++ drop i boids)).
Proof.
  intros H. pose proof (lookup_lt_Some _ _ _ H) as Hi.
  change (tick boids) with (flock_upto (length boids) boids).
  rewrite (flock_upto_lookup_lt (length boids) i) by exact Hi.
  rewrite (flock_upto_step i b H).
  rewrite <- (flock_upto_split (length boids) i) by lia.
  reflexivity.
Qed.

Lemma tick_lookup_None (i : nat) :
  boids !! i = None -> tick boids !! i = None.
Proof.
  intros H. apply lookup_ge_None. rewrite tick_length.
  apply lookup_ge_None, H.
Qed.

Lemma tick_snapshot_lookup (i : nat) (b : Boid) :
  boids !! i = Some b ->
  tick_snapshot boids !! i = Some (flock_body b boids).
Proof.
  intros H. unfold tick_snapshot. rewrite list_lookup_fmap, H. reflexivity.
Qed.

End Loop.

Lemma boids_differ_in_x (b1 b2 : Boid) :
  F32.same (x (position b1)) (x (position b2)) = false -> b1 <> b2.
Proof. intros D ->. rewrite F32Facts.same_refl in D. discriminate D. Qed.

(** C3, as stated, fails: in this initial flock the second boid reads the
    first one where the loop has just moved it, and ends the frame elsewhere
    than under the snapshot update. *)
Lemma tick_differs_from_snapshot :
  reachable pair_flock /\ tick pair_flock <> tick_snapshot pair_flock.
Proof.
  split.
  - apply reachable_init; reflexivity.
  - intros Heq. apply (f_equal (fun l => l !! 1%nat)) in Heq.
    pose proof (tick_lookup pair_flock 0 _ eq_refl) as H0.
    rewrite take_0 in H0.
    rewrite (tick_lookup pair_flock 1 _ eq_refl) in Heq.
    rewrite (tick_snapshot_lookup pair_flock 1 _ eq_refl) in Heq.
    rewrite (take_S_r _ 0 _ H0), take_0 in Heq.
    apply (inj Some) in Heq. revert Heq.
    refine (boids_differ_in_x _ _ _).
    vm_compute. reflexivity.
Qed.

(** C3, amended: within a frame the three steering queries of the agent at
    index [i] read one and the same vector, made of the agents before [i] as
    this frame leaves them and of the agents from [i] on as the previous frame
    left them; the loop keeps the number of agents, and agrees with the
    snapshot update on the first agent. *)
Theorem tick_interleaved (boids : list Boid) (i : nat) (b : Boid) :
  boids !! i = Some b ->
  length (tick boids) = length boids /\
  tick boids !! i =
    Some (flock_body b (take i (tick boids) ++ drop i boids)) /\
  tick_snapshot boids !! i = Some (flock_body b boids) /\
  (i = 0%nat -> tick boids !! i = tick_snapshot boids !! i).
Proof.
  intros H. split; [apply tick_length |].
  split; [apply tick_lookup, H |].
  split; [apply tick_snapshot_lookup, H |].
  intros ->.
  rewrite (tick_lookup boids 0 b H), (tick_snapshot_lookup boids 0 b H).
  reflexivity.
Qed.

Lemma tick_interleaved_witness :
  slow_trio !! 1%nat = Some trio_b /\
  length (tick slow_trio) = length slow_trio /\
  tick slow_trio !! 1%nat =
    Some (flock_body trio_b (take 1 (tick slow_trio) ++ drop 1 slow_trio)) /\
  tick_snapshot slow_trio !! 1%nat = Some (flock_body trio_b slow_trio) /\
  (1%nat = 0%nat -> tick slow_trio !! 1%nat = tick_snapshot slow_trio !! 1%nat).
Proof.
  split; [reflexivity |].
  apply (tick_interleaved slow_trio 1 trio_b). reflexivity.
Defined.

(** ** Positions of the reachable flocks *)

Lemma of_int_in_range (bound : Z) (check : float -> bool) :
  forallb (fun n => check (F32.of_int (Z.of_nat n)))
          (seq 0 (S (Z.to_nat bound))) = true ->
  forall z, 0 <= z <= bound -> check (F32.of_int z) = true.
Proof.
  intros Hall z Hz.
  rewrite forallb_forall in Hall.
  rewrite <- (Z2Nat.id z) by lia.
  apply Hall. apply in_seq. lia.
Qed.

Lemma spawn_kept_on_screen (d : Draw) :
  valid_draw d = true ->
  kept_on_screen (spawn d) = true /\ is_number (position (spawn d)) = true.
Proof.
  unfold valid_draw. intros H.
  repeat (apply andb_prop in H as [H ?]).
  assert (0 <= draw_x d <= screenWidth) as Hx by lia.
  assert (0 <= draw_y d <= screenHeight) as Hy by lia.
  pose proof (of_int_in_range screenWidth
    (fun c => not_outside screenWidth c && negb (F32.is_nan c))
    ltac:(vm_compute; reflexivity) _ Hx) as Cx.
  pose proof (of_int_in_range screenHeight
    (fun c => not_outside screenHeight c && negb (F32.is_nan c))
    ltac:(vm_compute; reflexivity) _ Hy) as Cy.
  simpl in Cx, Cy.
  apply andb_prop in Cx as [Cx1 Cx2]. apply andb_prop in Cy as [Cy1 Cy2].
  unfold kept_on_screen, is_number. simpl.
  rewrite Cx1, Cx2, Cy1, Cy2. split; reflexivity.
Qed.

Lemma flock_body_kept_on_screen (b : Boid) (boids : list Boid) :
  kept_on_screen (flock_body b boids) = true.
Proof.
  unfold kept_on_screen, flock_body, borders. simpl.
  rewrite (wrap_not_outside _ _ _ screenWidth_float).
  rewrite (wrap_not_outside _ _ _ screenHeight_float).
  reflexivity.
Qed.

Lemma tick_kept_on_screen (boids : list Boid) (b : Boid) :
  b ∈ tick boids -> kept_on_screen b = true.
Proof.
  intros Hb. apply list_elem_of_lookup in Hb as [i Hi].
  pose proof (lookup_lt_Some _ _ _ Hi) as Hlt. rewrite tick_length in Hlt.
  destruct (lookup_lt_is_Some_2 boids i Hlt) as [b0 Hb0].
  rewrite (tick_lookup boids i b0 Hb0) in Hi.
  injection Hi as <-. apply flock_body_kept_on_screen.
Qed.

Lemma kept_on_screen_closed (b : Boid) :
  kept_on_screen b = true -> is_number (position b) = true ->
  on_screen (position b) = true.
Proof.
  unfold kept_on_screen, is_number, on_screen. intros Hk Hn.
  apply andb_prop in Hk as [Hx Hy]. apply andb_prop in Hn as [Nx Ny].
  apply negb_true_iff in Nx, Ny.
  rewrite (not_outside_closed _ _ _ screenWidth_float _ Nx Hx).
  rewrite (not_outside_closed _ _ _ screenHeight_float _ Ny Hy).
  reflexivity.
Qed.

(** C4, as stated, fails: [GetRandomValue(0, screenWidth)] can draw
    [screenWidth] itself, so an initial flock can stand on the right and
    bottom edges, outside [[0, width) x [0, height)]. *)
Lemma initial_flock_on_the_edge :
  reachable corner_flock /\
  Exists (fun b => in_screen (position b) = false) corner_flock.
Proof.
  split.
  - apply reachable_init; reflexivity.
  - apply Exists_cons_hd. reflexivity.
Qed.

(** In the initial flock and after every frame, neither test of [borders]
    fires on the position of an agent. *)
Lemma reachable_not_outside (boids : list Boid) (b : Boid) :
  reachable boids -> b ∈ boids -> kept_on_screen b = true.
Proof.
  intros Hr Hb.
  destruct Hr as [draws Hlen Hvalid | boids Hr].
  - apply list_elem_of_fmap in Hb as [d [-> Hd]].
    rewrite forallb_forall in Hvalid.
    apply spawn_kept_on_screen, Hvalid, list_elem_of_In, Hd.
  - apply (tick_kept_on_screen boids b Hb).
Qed.

(** ** Alignment of three agents with one velocity *)





Lemma no_neighbor_zero_force_witness :
  no_neighbor SEPARATION_RADIUS trio_a [trio_a; edge] /\
  no_neighbor NEIGHBOR_RADIUS trio_a [trio_a; edge] /\
  separate trio_a [trio_a; edge] = Vector2Zero /\
  align trio_a [trio_a; edge] = Vector2Zero /\
  cohesion trio_a [trio_a; edge] = Vector2Zero.
Proof.
  assert (no_neighbor SEPARATION_RADIUS trio_a [trio_a; edge]) as Hs.
  { apply Forall_cons_2; [vm_compute; reflexivity |].
    apply Forall_cons_2; [vm_compute; reflexivity | apply Forall_nil_2]. }
  assert (no_neighbor NEIGHBOR_RADIUS trio_a [trio_a; edge]) as Hn.
  { apply Forall_cons_2; [vm_compute; reflexivity |].
    apply Forall_cons_2; [vm_compute; reflexivity | apply Forall_nil_2]. }
  split; [exact Hs |]. split; [exact Hn |].
  destruct (no_neighbor_zero_force trio_a [trio_a; edge]) as [S N].
  split; [exact (S Hs) | exact (N Hn)].
Defined.

Lemma coincident_agents_invisible_witness :
  position (spawn (mkDraw 100 100 0 2)) = position trio_a /\
  in_radius NEIGHBOR_RADIUS trio_a trio_a = false /\
  in_radius NEIGHBOR_RADIUS trio_a (spawn (mkDraw 100 100 0 2)) = false /\
  in_radius NEIGHBOR_RADIUS (spawn (mkDraw 100 100 0 2)) trio_a = false /\
  separate trio_a ([trio_a] ++ spawn (mkDraw 100 100 0 2) :: [trio_b]) =
    separate trio_a ([trio_a] ++ [trio_b]) /\
  align trio_a ([trio_a] ++ spawn (mkDraw 100 100 0 2) :: [trio_b]) =
    align trio_a ([trio_a] ++ [trio_b]) /\
  cohesion trio_a ([trio_a] ++ spawn (mkDraw 100 100 0 2) :: [trio_b]) =
    cohesion trio_a ([trio_a] ++ [trio_b]).
Proof.
  split; [reflexivity |].
  apply (coincident_agents_invisible NEIGHBOR_RADIUS trio_a
           (spawn (mkDraw 100 100 0 2)) [trio_a] [trio_b]).
  reflexivity.
Defined.

(** ** The neighbour relation *)

Lemma Vector2Distance_sym (p q : Vector2) :
  Vector2Distance q p = Vector2Distance p q.
Proof.
  unfold Vector2Distance.
  rewrite (F32Facts.sub_square_sym (x p) (x q)).
  rewrite (F32Facts.sub_square_sym (y p) (y q)).
  reflexivity.
Qed.

(** X1: the scan guard is symmetric: [other] passes the guard of [self] for
    a radius exactly when [self] passes the guard of [other], because
    [Vector2Distance] computes the same binary32 value in both directions. *)
Theorem in_radius_symmetric (radius : float) (self other : Boid) :
  Vector2Distance (position other) (position self) =
    Vector2Distance (position self) (position other) /\
  in_radius radius other self = in_radius radius self other.
Proof.
  split; [apply Vector2Distance_sym |].
  unfold in_radius. rewrite Vector2Distance_sym. reflexivity.
Qed.

Lemma lt_separation_neighbor (d : float) :
  F32.lt d SEPARATION_RADIUS = true -> F32.lt d NEIGHBOR_RADIUS = true.
Proof.
  destruct d as [s | s | | s m e]; try destruct s;
    try (intros; reflexivity); try discriminate.
  unfold F32.lt, SFltb, SFcompare, SEPARATION_RADIUS, NEIGHBOR_RADIUS.
  destruct (Z.compare_spec e (-19)) as [-> | H | H]; try discriminate.
  - intros _. reflexivity.
  - intros _. destruct (Z.compare_spec e (-17)) as [H' | H' | H'];
      first [reflexivity | lia].
Qed.

Lemma separation_neighbor_is_neighbor_aux (self other : Boid) :
  in_radius SEPARATION_RADIUS self other = true ->
  in_radius NEIGHBOR_RADIUS self other = true.
Proof.
  unfold in_radius. intros H. apply andb_prop in H as [H0 H1].
  rewrite H0, (lt_separation_neighbor _ H1). reflexivity.
Qed.

(** X2: an agent that [separate] counts is also counted by [align] and
    [cohesion]: the guard for [SEPARATION_RADIUS] implies the guard for
    [NEIGHBOR_RADIUS]. *)
Theorem separation_neighbor_is_neighbor (self other : Boid) :
  in_radius SEPARATION_RADIUS self other = true ->
  in_radius NEIGHBOR_RADIUS self other = true.
Proof. apply separation_neighbor_is_neighbor_aux. Qed.

Lemma separation_neighbor_is_neighbor_witness :
  in_radius SEPARATION_RADIUS trio_a trio_b = true /\
  in_radius NEIGHBOR_RADIUS trio_a trio_b = true.
Proof.
  split; [vm_compute; reflexivity |].
  apply (separation_neighbor_is_neighbor trio_a trio_b).
  vm_compute. reflexivity.
Defined.

Lemma no_neighbor_separation (self : Boid) (boids : list Boid) :
  no_neighbor NEIGHBOR_RADIUS self boids ->
  no_neighbor SEPARATION_RADIUS self boids.
Proof.
  unfold no_neighbor. intros HF.
  eapply Forall_impl; [exact HF |]. intros other H. simpl in H.
  destruct (in_radius SEPARATION_RADIUS self other) eqn:E; [| reflexivity].
  rewrite (separation_neighbor_is_neighbor_aux self other E) in H.
  discriminate H.
Qed.

(** ** What the steering rules read *)

Section Filter.

Variable self : Boid.
Variable radius : float.

(** A scan that skips the agents failing the guard only sees [neighbors]. *)
Lemma scan_neighbors {A : Type} (scan : A -> Boid -> A)
      (boids : list Boid) (acc : A) :
  (forall a other, in_radius radius self other = false -> scan a other = a) ->
  fold_left scan boids acc = fold_left scan (neighbors radius self boids) acc.
Proof.
  intros Hskip. revert acc.
  induction boids as [| other rest IH]; intros acc; [reflexivity |].
  unfold neighbors. cbn [fold_left List.filter].
  destruct (in_radius radius self other) eqn:E.
  - cbn [fold_left]. apply IH.
  - rewrite (Hskip acc other E). apply IH.
Qed.

Lemma neighbors_all_pass (boids : list Boid) :
  Forall (fun other => in_radius radius self other = true)
         (neighbors radius self boids).
Proof.
  apply Forall_forall. intros other H.
  apply list_elem_of_In in H. apply filter_In in H. tauto.
Qed.

End Filter.

Lemma filter_idem_bool {A : Type} (f : A -> bool) (l : list A) :
  List.filter f (List.filter f l) = List.filter f l.
Proof.
  induction l as [| a l IH]; [reflexivity |].
  cbn [List.filter]. destruct (f a) eqn:E.
  - cbn [List.filter]. rewrite E, IH. reflexivity.
  - exact IH.
Qed.

(** X3: the three forces depend on the vector only through the agents that
    pass the guard, taken in the order of the vector: the agents outside the
    radius, at distance 0 or with a NaN distance can be removed without
    changing any force. *)
Theorem rules_read_neighbors_only (self : Boid) (boids : list Boid) :
  separate self boids =
    separate self (neighbors SEPARATION_RADIUS self boids) /\
  align self boids = align self (neighbors NEIGHBOR_RADIUS self boids) /\
  cohesion self boids = cohesion self (neighbors NEIGHBOR_RADIUS self boids).
Proof.
  split; [| split].
  - unfold separate.
    rewrite (scan_neighbors self SEPARATION_RADIUS _ boids _
               (separate_scan_skip self)).
    rewrite (scan_neighbors self SEPARATION_RADIUS _
               (neighbors SEPARATION_RADIUS self boids) _
               (separate_scan_skip self)).
    unfold neighbors. rewrite filter_idem_bool. reflexivity.
  - unfold align.
    rewrite (scan_neighbors self NEIGHBOR_RADIUS _ boids _
               (align_scan_skip self)).
    rewrite (scan_neighbors self NEIGHBOR_RADIUS _
               (neighbors NEIGHBOR_RADIUS self boids) _
               (align_scan_skip self)).
    unfold neighbors. rewrite filter_idem_bool. reflexivity.
  - unfold cohesion.
    rewrite (scan_neighbors self NEIGHBOR_RADIUS _ boids _
               (cohesion_scan_skip self)).
    rewrite (scan_neighbors self NEIGHBOR_RADIUS _
               (neighbors NEIGHBOR_RADIUS self boids) _
               (cohesion_scan_skip self)).
    unfold neighbors. rewrite filter_idem_bool. reflexivity.
Qed.

Section Totals.

Variable self : Boid.

Lemma align_scan_totals (boids : list Boid) (sum : Vector2) (count : Z) :
  fold_left (align_scan self) boids (sum, count) =
  (fold_left Vector2Add
     (velocity <$> neighbors NEIGHBOR_RADIUS self boids) sum,
   count + Z.of_nat (length (neighbors NEIGHBOR_RADIUS self boids))).
Proof.
  revert sum count.
  induction boids as [| other rest IH]; intros sum count.
  - simpl. f_equal. lia.
  - unfold neighbors. cbn [fold_left List.filter].
    destruct (in_radius NEIGHBOR_RADIUS self other) eqn:E.
    + rewrite (align_scan_take self sum count other E), IH.
      cbn [fmap list_fmap fold_left length]. unfold neighbors.
      f_equal. lia.
    + rewrite (align_scan_skip self (sum, count) other E). apply IH.
Qed.

Lemma cohesion_scan_take (sum : Vector2) (count : Z) (other : Boid) :
  in_radius NEIGHBOR_RADIUS self other = true ->
  cohesion_scan self (sum, count) other =
  (Vector2Add sum (position other), count + 1).
Proof.
  intros H. unfold cohesion_scan. unfold in_radius in H. cbv zeta in *.
  rewrite H. reflexivity.
Qed.

Lemma cohesion_scan_totals (boids : list Boid) (sum : Vector2) (count : Z) :
  fold_left (cohesion_scan self) boids (sum, count) =
  (fold_left Vector2Add
     (position <$> neighbors NEIGHBOR_RADIUS self boids) sum,
   count + Z.of_nat (length (neighbors NEIGHBOR_RADIUS self boids))).
Proof.
  revert sum count.
  induction boids as [| other rest IH]; intros sum count.
  - simpl. f_equal. lia.
  - unfold neighbors. cbn [fold_left List.filter].
    destruct (in_radius NEIGHBOR_RADIUS self other) eqn:E.
    + rewrite (cohesion_scan_take sum count other E), IH.
      cbn [fmap list_fmap fold_left length]. unfold neighbors.
      f_equal. lia.
    + rewrite (cohesion_scan_skip self (sum, count) other E). apply IH.
Qed.

Lemma separate_scan_count (boids : list Boid) (steer : Vector2) (count : Z) :
  snd (fold_left (separate_scan self) boids (steer, count)) =
  count + Z.of_nat (length (neighbors SEPARATION_RADIUS self boids)).
Proof.
  revert steer count.
  induction boids as [| other rest IH]; intros steer count.
  - simpl. lia.
  - unfold neighbors. cbn [fold_left List.filter].
    destruct (in_radius SEPARATION_RADIUS self other) eqn:E.
    + unfold separate_scan at 2. unfold in_radius in E. cbv zeta in *.
      rewrite E, IH. cbn [length]. unfold neighbors. lia.
    + rewrite (separate_scan_skip self (steer, count) other E). apply IH.
Qed.

End Totals.

(** X4: what the scans of [align] and [cohesion] accumulate: [count] ends as
    the number of agents passing the guard, and [sum] as the left-to-right
    binary32 sum, started from zero, of their velocities (for [align]) or
    positions (for [cohesion]); the [count] of [separate] is the number of
    agents passing its guard.  No count exceeds the size of the vector. *)
Theorem scan_totals (self : Boid) (boids : list Boid) :
  fold_left (align_scan self) boids (Vector2Zero, 0) =
    (fold_left Vector2Add
       (velocity <$> neighbors NEIGHBOR_RADIUS self boids) Vector2Zero,
     Z.of_nat (length (neighbors NEIGHBOR_RADIUS self boids))) /\
  fold_left (cohesion_scan self) boids (Vector2Zero, 0) =
    (fold_left Vector2Add
       (position <$> neighbors NEIGHBOR_RADIUS self boids) Vector2Zero,
     Z.of_nat (length (neighbors NEIGHBOR_RADIUS self boids))) /\
  snd (fold_left (separate_scan self) boids (Vector2Zero, 0)) =
    Z.of_nat (length (neighbors SEPARATION_RADIUS self boids)) /\
  (length (neighbors NEIGHBOR_RADIUS self boids) <= length boids)%nat /\
  (length (neighbors SEPARATION_RADIUS self boids) <= length boids)%nat.
Proof.
  split; [rewrite align_scan_totals; reflexivity |].
  split; [rewrite cohesion_scan_totals; reflexivity |].
  split; [rewrite separate_scan_count; reflexivity |].
  split; apply filter_length_le.
Qed.

(** ** The clamp *)

Lemma limit_clamped (steer : Vector2) : clamped (limit steer).
Proof.
  unfold limit.
  destruct (F32.gt (Vector2Length steer) MAX_FORCE) eqn:E.
  - right. exists steer. split; [exact E | reflexivity].
  - left. exact E.
Qed.

Lemma zero_clamped : clamped Vector2Zero.
Proof. left. reflexivity. Qed.

(** X5: every force returned by a rule went through the clamp: either
    [Vector2Length] of it is not above [MAX_FORCE], or it is a longer vector
    normalised and scaled to [MAX_FORCE].  This includes the early returns:
    the zero vector of [align] and [cohesion], and the unclamped vector that
    [separate] returns when its length is not positive. *)
Theorem steering_force_clamped (self : Boid) (boids : list Boid) :
  clamped (separate self boids) /\
  clamped (align self boids) /\
  clamped (cohesion self boids).
Proof.
  split; [| split].
  - unfold separate.
    destruct (fold_left (separate_scan self) boids (Vector2Zero, 0))
      as [steer count].
    set (steer' := if 0 <? count then _ else steer).
    destruct (F32.gt (Vector2Length steer') (F32.of_int 0)) eqn:E.
    + apply limit_clamped.
    + left. apply (F32Facts.gt_zero_false _ _ _ E).
  - unfold align.
    destruct (fold_left (align_scan self) boids (Vector2Zero, 0))
      as [sum count].
    destruct (0 <? count); [apply limit_clamped | apply zero_clamped].
  - unfold cohesion.
    destruct (fold_left (cohesion_scan self) boids (Vector2Zero, 0))
      as [sum count].
    destruct (0 <? count); [apply limit_clamped | apply zero_clamped].
Qed.

(** ** Frames of an agent without neighbours *)

Lemma applyForce_zero_weighted (b : Boid) :
  acceleration b = Vector2Zero ->
  applyForce (Vector2Scale Vector2Zero COHESION_WEIGHT)
    (applyForce (Vector2Scale Vector2Zero ALIGNMENT_WEIGHT)
       (applyForce (Vector2Scale Vector2Zero SEPARATION_WEIGHT) b)) = b.
Proof.
  destruct b as [p v a r]. simpl. intros ->. reflexivity.
Qed.

Lemma rules_alone (self : Boid) (boids : list Boid) :
  no_neighbor NEIGHBOR_RADIUS self boids ->
  separate self boids = Vector2Zero /\
  align self boids = Vector2Zero /\
  cohesion self boids = Vector2Zero.
Proof.
  intros Hn. pose proof (no_neighbor_separation self boids Hn) as Hs.
  split; [| split].
  - unfold separate.
    rewrite (scan_all_skipped self _ _ boids _ (separate_scan_skip self) Hs).
    reflexivity.
  - unfold align.
    rewrite (scan_all_skipped self _ _ boids _ (align_scan_skip self) Hn).
    reflexivity.
  - unfold cohesion.
    rewrite (scan_all_skipped self _ _ boids _ (cohesion_scan_skip self) Hn).
    reflexivity.
Qed.

Lemma flock_body_alone (b : Boid) (boids : list Boid) :
  acceleration b = Vector2Zero ->
  no_neighbor NEIGHBOR_RADIUS b boids ->
  flock_body b boids = borders (update b).
Proof.
  intros Ha Hn.
  destruct (rules_alone b boids Hn) as [Hsep [Hali Hcoh]].
  unfold flock_body. rewrite Hsep, Hali, Hcoh.
  rewrite (applyForce_zero_weighted b Ha). reflexivity.
Qed.

(** X6: an agent with a zero accumulator and no agent passing its guard for
    [NEIGHBOR_RADIUS] is just integrated and wrapped by its turn in the
    loop: the three forces are zero, their weighted sum leaves the
    accumulator at [(+0, +0)], and the turn is [borders] after [update]. *)
Theorem isolated_agent_frame (b : Boid) (boids : list Boid) :
  acceleration b = Vector2Zero ->
  no_neighbor NEIGHBOR_RADIUS b boids ->
  separate b boids = Vector2Zero /\
  align b boids = Vector2Zero /\
  cohesion b boids = Vector2Zero /\
  flock_body b boids = borders (update b).
Proof.
  intros Ha Hn.
  destruct (rules_alone b boids Hn) as [Hsep [Hali Hcoh]].
  repeat (split; [assumption |]).
  apply flock_body_alone; assumption.
Qed.

Lemma isolated_agent_frame_witness :
  acceleration trio_a = Vector2Zero /\
  no_neighbor NEIGHBOR_RADIUS trio_a [trio_a; edge] /\
  separate trio_a [trio_a; edge] = Vector2Zero /\
  align trio_a [trio_a; edge] = Vector2Zero /\
  cohesion trio_a [trio_a; edge] = Vector2Zero /\
  flock_body trio_a [trio_a; edge] = borders (update trio_a).
Proof.
  assert (no_neighbor NEIGHBOR_RADIUS trio_a [trio_a; edge]) as Hn.
  { apply Forall_cons_2; [vm_compute; reflexivity |].
    apply Forall_cons_2; [vm_compute; reflexivity | apply Forall_nil_2]. }
  split; [reflexivity |]. split; [exact Hn |].
  exact (isolated_agent_frame trio_a [trio_a; edge] eq_refl Hn).
Defined.

(** ** Invariants of the reachable flocks *)

Lemma spawn_settled (d : Draw) : settled (spawn d).
Proof. split; reflexivity. Qed.

Lemma flock_body_settled (b : Boid) (boids : list Boid) :
  settled (flock_body b boids).
Proof. split; reflexivity. Qed.

Lemma tick_elem (boids : list Boid) (b' : Boid) :
  b' ∈ tick boids -> exists b l, b' = flock_body b l.
Proof.
  intros Hb. apply list_elem_of_lookup in Hb as [i Hi].
  pose proof (lookup_lt_Some _ _ _ Hi) as Hlt. rewrite tick_length in Hlt.
  destruct (lookup_lt_is_Some_2 boids i Hlt) as [b0 Hb0].
  rewrite (tick_lookup boids i b0 Hb0) in Hi.
  apply (inj Some) in Hi. eauto.
Qed.

(** X7: the flock never grows or shrinks: the initial flock and the flock
    after any number of frames hold exactly [NUM_BOIDS] agents. *)
Theorem reachable_flock_size (boids : list Boid) :
  reachable boids -> length boids = NUM_BOIDS.
Proof.
  induction 1 as [draws Hlen Hvalid | boids Hr IH].
  - rewrite length_fmap. exact Hlen.
  - rewrite tick_length. exact IH.
Qed.

Lemma reachable_flock_size_witness :
  reachable pair_flock /\ length pair_flock = NUM_BOIDS.
Proof.
  assert (reachable pair_flock) as Hr by (apply reachable_init; reflexivity).
  split; [exact Hr | exact (reachable_flock_size pair_flock Hr)].
Defined.

(** X8: between frames every agent has a zero accumulator and a heading
    computed from its current velocity: in the initial flock and after any
    number of frames, [acceleration] is [(+0, +0)] and [rotation] is
    [atan2(velocity.y, velocity.x)]. *)
Theorem reachable_agents_settled (boids : list Boid) (b : Boid) :
  reachable boids -> b ∈ boids ->
  acceleration b = Vector2Zero /\
  rotation b = atan2 (y (velocity b)) (x (velocity b)).
Proof.
  intros Hr Hb. destruct Hr as [draws Hlen Hvalid | boids Hr].
  - apply list_elem_of_fmap in Hb as [d [-> Hd]]. apply spawn_settled.
  - apply tick_elem in Hb as [b0 [l ->]]. apply flock_body_settled.
Qed.

Lemma reachable_agents_settled_witness :
  reachable corner_flock /\
  spawn (mkDraw 1200 800 0 0) ∈ corner_flock /\
  acceleration (spawn (mkDraw 1200 800 0 0)) = Vector2Zero /\
  rotation (spawn (mkDraw 1200 800 0 0)) =
    atan2 (y (velocity (spawn (mkDraw 1200 800 0 0))))
          (x (velocity (spawn (mkDraw 1200 800 0 0)))).
Proof.
  assert (reachable corner_flock) as Hr by (apply reachable_init; reflexivity).
  assert (spawn (mkDraw 1200 800 0 0) ∈ corner_flock) as Hin
    by apply list_elem_of_here.
  split; [exact Hr | split; [exact Hin |]].
  exact (reachable_agents_settled corner_flock _ Hr Hin).
Defined.

(** ** An agent at rest *)

Lemma add_zero_r (c : float) :
  c <> S754_zero true -> F32.add c F32.zero = c.
Proof.
  destruct c as [s | s | | s m e]; try reflexivity.
  destruct s; [congruence | reflexivity].
Qed.

Lemma Vector2Add_zero_r (p : Vector2) :
  x p <> S754_zero true -> y p <> S754_zero true ->
  Vector2Add p Vector2Zero = p.
Proof.
  intros Hx Hy. destruct p as [px py]. unfold Vector2Add. simpl in *.
  rewrite (add_zero_r px Hx), (add_zero_r py Hy). reflexivity.
Qed.

Lemma normalize_not_positive (v : Vector2) :
  F32.gt (Vector2Length v) F32.zero = false ->
  Vector2Scale (Vector2Normalize v) MAX_SPEED = Vector2Zero.
Proof.
  intros H. unfold Vector2Normalize. unfold Vector2Length in H.
  cbv zeta. rewrite H. reflexivity.
Qed.

Lemma update_stops (b : Boid) :
  F32.gt (Vector2Length (Vector2Add (velocity b) (acceleration b))) F32.zero
    = false ->
  x (position b) <> S754_zero true -> y (position b) <> S754_zero true ->
  update b = mkBoid (position b) Vector2Zero Vector2Zero
                    (atan2 F32.zero F32.zero).
Proof.
  intros H Hx Hy. unfold update. cbv zeta.
  rewrite (normalize_not_positive _ H).
  rewrite (Vector2Add_zero_r _ Hx Hy). reflexivity.
Qed.

(** X9: the zero-length case of [update]: when [Vector2Length] of
    [velocity + acceleration] is not positive (the zero vector, a vector so
    small that its squares underflow, or a NaN component), the agent stops:
    the new velocity is exactly [(+0, +0)] and a position without a [-0]
    coordinate is unchanged; and it stays stopped under further [update]s
    as long as no force is applied. *)
Theorem update_at_rest (b : Boid) :
  F32.gt (Vector2Length (Vector2Add (velocity b) (acceleration b))) F32.zero
    = false ->
  x (position b) <> S754_zero true -> y (position b) <> S754_zero true ->
  velocity (update b) = Vector2Zero /\
  position (update b) = position b /\
  update (update b) = update b.
Proof.
  intros H Hx Hy. rewrite (update_stops b H Hx Hy).
  split; [reflexivity | split; [reflexivity |]].
  apply (update_stops (mkBoid (position b) Vector2Zero Vector2Zero
                              (atan2 F32.zero F32.zero)));
    [reflexivity | exact Hx | exact Hy].
Qed.

Lemma update_at_rest_witness :
  F32.gt (Vector2Length (Vector2Add (velocity edge) (acceleration edge)))
         F32.zero = false /\
  x (position edge) <> S754_zero true /\
  y (position edge) <> S754_zero true /\
  velocity (update edge) = Vector2Zero /\
  position (update edge) = position edge /\
  update (update edge) = update edge.
Proof.
  assert (x (position edge) <> S754_zero true) as Hx by discriminate.
  assert (y (position edge) <> S754_zero true) as Hy by discriminate.
  split; [reflexivity |]. split; [exact Hx |]. split; [exact Hy |].
  exact (update_at_rest edge eq_refl Hx Hy).
Defined.

Lemma borders_kept (b : Boid) :
  kept_on_screen b = true -> borders b = b.
Proof.
  destruct b as [[px py] v a r]. unfold kept_on_screen, not_outside, borders.
  cbn [position velocity acceleration rotation x y].
  intros H. apply andb_prop in H as [Hx Hy].
  apply andb_prop in Hx as [Hx0 Hx1]. apply andb_prop in Hy as [Hy0 Hy1].
  apply negb_true_iff in Hx0, Hx1, Hy0, Hy1.
  rewrite (wrap_inside screenWidth px Hx0 Hx1).
  rewrite (wrap_inside screenHeight py Hy0 Hy1).
  reflexivity.
Qed.

Lemma of_int_not_negative_zero (z : Z) :
  0 <= z -> F32.of_int z <> S754_zero true.
Proof.
  intros Hz. destruct z as [| p | p]; [discriminate | | lia].
  unfold F32.of_int, binary_normalize, binary_round.
  destruct (shl_align p 0 _) as [mz ez].
  unfold binary_round_aux.
  destruct (shr_fexp F32.prec F32.emax (Z.pos mz) ez loc_Exact) as [mrs1 e1].
  destruct (shr_fexp F32.prec F32.emax _ e1 loc_Exact) as [mrs2 e2].
  destruct (shr_m mrs2); try discriminate.
  destruct (e2 <=? F32.emax - F32.prec); discriminate.
Qed.

Lemma flock_body_resting (d : Draw) (boids : list Boid) :
  valid_draw d = true -> draw_vx d = 0 -> draw_vy d = 0 ->
  no_neighbor NEIGHBOR_RADIUS (spawn d) boids ->
  flock_body (spawn d) boids = spawn d.
Proof.
  intros Hv Hvx Hvy Hn.
  rewrite (flock_body_alone (spawn d) boids eq_refl Hn).
  destruct (spawn_kept_on_screen d Hv) as [Hk _].
  assert (0 <= draw_x d /\ 0 <= draw_y d) as [Hx Hy].
  { unfold valid_draw in Hv. repeat (apply andb_prop in Hv as [Hv ?]). lia. }
  assert (update (spawn d) = spawn d) as ->.
  { destruct d as [dx dy vx vy]. simpl in Hvx, Hvy, Hx, Hy. subst vx vy.
    rewrite update_stops.
    - reflexivity.
    - reflexivity.
    - apply of_int_not_negative_zero, Hx.
    - apply of_int_not_negative_zero, Hy. }
  apply borders_kept, Hk.
Qed.

(** X10: a boid spawned with velocity [(0, 0)] that no agent of the vector
    passes the guard of does not change at all in its turn of the loop: it
    keeps its position, stays at rest, and keeps its heading
    [atan2(0, 0)]. *)
Theorem resting_agent_stays (d : Draw) (boids : list Boid) :
  valid_draw d = true -> draw_vx d = 0 -> draw_vy d = 0 ->
  no_neighbor NEIGHBOR_RADIUS (spawn d) boids ->
  flock_body (spawn d) boids = spawn d.
Proof. apply flock_body_resting. Qed.

Lemma resting_agent_stays_witness :
  valid_draw (mkDraw 1200 400 0 0) = true /\
  no_neighbor NEIGHBOR_RADIUS edge [trio_a; edge] /\
  flock_body edge [trio_a; edge] = edge.
Proof.
  assert (no_neighbor NEIGHBOR_RADIUS edge [trio_a; edge]) as Hn.
  { apply Forall_cons_2; [vm_compute; reflexivity |].
    apply Forall_cons_2; [vm_compute; reflexivity | apply Forall_nil_2]. }
  split; [reflexivity |]. split; [exact Hn |].
  exact (resting_agent_stays (mkDraw 1200 400 0 0) [trio_a; edge]
           eq_refl eq_refl eq_refl Hn).
Defined.

(** ** What the rules do not read *)

Section Motion.

Variables self self' : Boid.
Hypothesis self_motion : same_motion self self'.

Lemma separate_scan_motion (acc : Vector2 * Z) (other other' : Boid) :
  position other = position other' ->
  separate_scan self acc other = separate_scan self' acc other'.
Proof.
  destruct self_motion as [Hp _]. intros Ho.
  unfold separate_scan. rewrite Hp, Ho. reflexivity.
Qed.

Lemma align_scan_motion (acc : Vector2 * Z) (other other' : Boid) :
  same_motion other other' ->
  align_scan self acc other = align_scan self' acc other'.
Proof.
  destruct self_motion as [Hp _]. intros [Ho Hv].
  unfold align_scan. rewrite Hp, Ho, Hv. reflexivity.
Qed.

Lemma cohesion_scan_motion (acc : Vector2 * Z) (other other' : Boid) :
  position other = position other' ->
  cohesion_scan self acc other = cohesion_scan self' acc other'.
Proof.
  destruct self_motion as [Hp _]. intros Ho.
  unfold cohesion_scan. rewrite Hp, Ho. reflexivity.
Qed.

Lemma fold_scan_motion {A : Type} (R : Boid -> Boid -> Prop)
      (scan scan' : A -> Boid -> A) (boids boids' : list Boid) (acc : A) :
  (forall a o o', R o o' -> scan a o = scan' a o') ->
  Forall2 R boids boids' ->
  fold_left scan boids acc = fold_left scan' boids' acc.
Proof.
  intros Hstep HF. revert acc.
  induction HF as [| o o' l l' Ho _ IH]; intros acc; [reflexivity |].
  cbn [fold_left]. rewrite (Hstep acc o o' Ho). apply IH.
Qed.

End Motion.

(** X11: the rules read nothing but positions and velocities: replacing
    every agent, the querying one included, by an agent with the same
    [position] and [velocity] (whatever its [acceleration] and [rotation])
    leaves the three forces unchanged; [separate] and [cohesion] do not even
    read the velocities of the other agents. *)
Theorem rules_read_motion_only
        (self self' : Boid) (boids boids' : list Boid) :
  same_motion self self' ->
  (Forall2 (fun o o' => position o = position o') boids boids' ->
   separate self boids = separate self' boids' /\
   cohesion self boids = cohesion self' boids') /\
  (Forall2 same_motion boids boids' ->
   align self boids = align self' boids').
Proof.
  intros Hs. pose proof Hs as [Hp Hv]. split.
  - intros HF. split.
    + unfold separate.
      rewrite (fold_scan_motion _ _ _ boids boids' _
                 (separate_scan_motion self self' Hs) HF).
      rewrite Hv. reflexivity.
    + unfold cohesion.
      rewrite (fold_scan_motion _ _ _ boids boids' _
                 (cohesion_scan_motion self self' Hs) HF).
      rewrite Hp, Hv. reflexivity.
  - intros HF. unfold align.
    rewrite (fold_scan_motion _ _ _ boids boids' _
               (align_scan_motion self self' Hs) HF).
    rewrite Hv. reflexivity.
Qed.

Lemma rules_read_motion_only_witness :
  same_motion trio_a (applyForce (mkVector2 F32.one F32.one) trio_a) /\
  Forall2 same_motion [trio_a; trio_b]
          [trio_a; applyForce (mkVector2 F32.one F32.one) trio_b] /\
  align trio_a [trio_a; trio_b] =
    align (applyForce (mkVector2 F32.one F32.one) trio_a)
          [trio_a; applyForce (mkVector2 F32.one F32.one) trio_b].
Proof.
  assert (same_motion trio_a (applyForce (mkVector2 F32.one F32.one) trio_a))
    as Hs by (split; reflexivity).
  assert (Forall2 same_motion [trio_a; trio_b]
            [trio_a; applyForce (mkVector2 F32.one F32.one) trio_b]) as HF.
  { repeat constructor. }
  split; [exact Hs |]. split; [exact HF |].
  destruct (rules_read_motion_only trio_a
              (applyForce (mkVector2 F32.one F32.one) trio_a)
              [trio_a; trio_b]
              [trio_a; applyForce (mkVector2 F32.one F32.one) trio_b] Hs)
    as [_ Hal].
  exact (Hal HF).
Defined.

(** ** A flock that does not move *)

Section Still.

Variable boids : list Boid.
Hypothesis still : still_flock boids.

Lemma still_flock_body (i : nat) (b : Boid) :
  boids !! i = Some b -> flock_body b boids = b.
Proof.
  intros Hi. unfold still_flock in still.
  rewrite Forall_lookup in still.
  destruct (still i b Hi) as [[d [-> [Hv [Hvx Hvy]]]] Hn].
  apply flock_body_resting; assumption.
Qed.

Lemma still_flock_at (i : nat) : flock_at boids i = boids.
Proof.
  unfold flock_at. destruct (boids !! i) as [b |] eqn:Hi; [| reflexivity].
  rewrite (still_flock_body i b Hi). apply list_insert_id, Hi.
Qed.

Lemma still_flock_upto (k : nat) : flock_upto k boids = boids.
Proof.
  induction k as [| k IH]; [reflexivity |].
  rewrite flock_upto_S, IH. apply still_flock_at.
Qed.

Lemma still_tick : tick boids = boids.
Proof. apply still_flock_upto. Qed.

Lemma still_tick_snapshot : tick_snapshot boids = boids.
Proof.
  apply list_eq. intros i. unfold tick_snapshot.
  rewrite list_lookup_fmap.
  destruct (boids !! i) as [b |] eqn:Hi; [| reflexivity].
  simpl. rewrite (still_flock_body i b Hi). reflexivity.
Qed.

Lemma still_forever (n : nat) : Nat.iter n tick boids = boids.
Proof.
  induction n as [| n IH]; [reflexivity |].
  simpl. rewrite IH. apply still_tick.
Qed.

End Still.

(** X12: a flock of boids spawned at rest in which no agent passes the guard
    of another for [NEIGHBOR_RADIUS] never moves: a frame of the loop gives
    the same vector back, so does any number of frames, and the loop agrees
    there with the snapshot update. *)
Theorem still_flock_fixed (boids : list Boid) (n : nat) :
  still_flock boids ->
  tick boids = boids /\
  Nat.iter n tick boids = boids /\
  tick_snapshot boids = tick boids.
Proof.
  intros H. split; [apply still_tick, H |].
  split; [apply still_forever, H |].
  rewrite (still_tick boids H). apply still_tick_snapshot, H.
Qed.

Lemma still_flock_fixed_witness :
  still_flock corners /\
  tick corners = corners /\
  Nat.iter 60 tick corners = corners /\
  tick_snapshot corners = tick corners.
Proof.
  assert (still_flock corners) as H.
  { apply Forall_cons_2; [split |].
    - exists (mkDraw 0 0 0 0). repeat split; reflexivity.
    - apply Forall_cons_2; [vm_compute; reflexivity |].
      apply Forall_cons_2; [vm_compute; reflexivity | apply Forall_nil_2].
    - apply Forall_cons_2; [split | apply Forall_nil_2].
      + exists (mkDraw 1200 800 0 0). repeat split; reflexivity.
      + apply Forall_cons_2; [vm_compute; reflexivity |].
        apply Forall_cons_2; [vm_compute; reflexivity | apply Forall_nil_2]. }
  split; [exact H |].
  exact (still_flock_fixed corners 60 H).
Defined.

(** ** Positions that are not finite *)

Module Unbounded.

Lemma sub_not_finite_l (c d : float) :
  F32.is_finite c = false -> F32.is_finite (F32.sub c d) = false.
Proof.
  destruct c as [s | s | | s m e], d as [t | t | | t n f];
    try discriminate; try reflexivity.
  destruct s, t; reflexivity.
Qed.

Lemma sub_not_finite_r (c d : float) :
  F32.is_finite d = false -> F32.is_finite (F32.sub c d) = false.
Proof.
  destruct c as [s | s | | s m e], d as [t | t | | t n f];
    try discriminate; try reflexivity.
  destruct s, t; reflexivity.
Qed.

Lemma square_not_finite (z : float) :
  F32.is_finite z = false -> unbounded (F32.mul z z) = true.
Proof.
  destruct z as [s | s | | s m e]; try discriminate; try reflexivity.
  destruct s; reflexivity.
Qed.

Lemma square_sign_clear (z : float) : sign_clear (F32.mul z z) = true.
Proof.
  destruct z as [s | s | | s m e]; try (destruct s; reflexivity);
    try reflexivity.
  unfold F32.mul, SFmul. rewrite xorb_nilpotent.
  unfold binary_round_aux.
  destruct (shr_fexp F32.prec F32.emax _ (e + e) loc_Exact) as [mrs1 e1].
  destruct (shr_fexp F32.prec F32.emax _ e1 loc_Exact) as [mrs2 e2].
  destruct (shr_m mrs2); try reflexivity.
  destruct (e2 <=? F32.emax - F32.prec); reflexivity.
Qed.

Lemma add_unbounded_l (h t : float) :
  unbounded h = true -> sign_clear t = true ->
  unbounded (F32.add h t) = true.
Proof.
  destruct h as [s | s | | s m e]; try destruct s; try discriminate;
    destruct t as [t | t | | t n f]; try destruct t;
    try discriminate; reflexivity.
Qed.

Lemma add_unbounded_r (t h : float) :
  sign_clear t = true -> unbounded h = true ->
  unbounded (F32.add t h) = true.
Proof.
  destruct h as [s | s | | s m e]; try destruct s; try discriminate;
    destruct t as [t | t | | t n f]; try destruct t;
    try discriminate; reflexivity.
Qed.

Lemma sqrt_unbounded (h : float) :
  unbounded h = true -> unbounded (F32.sqrtf h) = true.
Proof.
  destruct h as [s | s | | s m e]; try destruct s; try discriminate;
    reflexivity.
Qed.

Lemma guard_unbounded (d radius : float) :
  unbounded d = true ->
  F32.gt d (F32.of_int 0) && F32.lt d radius = false.
Proof.
  destruct d as [s | s | | s m e]; try destruct s; try discriminate;
    intros _; [| reflexivity].
  destruct radius as [t | t | | t n f]; try destruct t; reflexivity.
Qed.

Lemma sum_of_squares_unbounded (dx dy : float) :
  F32.is_finite dx = false \/ F32.is_finite dy = false ->
  unbounded (F32.sqrtf (F32.add (F32.mul dx dx) (F32.mul dy dy))) = true.
Proof.
  intros [H | H]; apply sqrt_unbounded.
  - apply add_unbounded_l;
      [apply square_not_finite, H | apply square_sign_clear].
  - apply add_unbounded_r;
      [apply square_sign_clear | apply square_not_finite, H].
Qed.

End Unbounded.

Lemma not_finite_vector (p : Vector2) :
  is_finite_vector p = false ->
  F32.is_finite (x p) = false \/ F32.is_finite (y p) = false.
Proof.
  unfold is_finite_vector. intros H. apply andb_false_iff in H. exact H.
Qed.

Lemma distance_unbounded (p q : Vector2) :
  is_finite_vector p = false \/ is_finite_vector q = false ->
  unbounded (Vector2Distance p q) = true.
Proof.
  intros H. unfold Vector2Distance.
  apply Unbounded.sum_of_squares_unbounded.
  destruct H as [H | H]; apply not_finite_vector in H as [H | H].
  - left. apply Unbounded.sub_not_finite_l, H.
  - right. apply Unbounded.sub_not_finite_l, H.
  - left. apply Unbounded.sub_not_finite_r, H.
  - right. apply Unbounded.sub_not_finite_r, H.
Qed.

Lemma in_radius_not_finite (radius : float) (self other : Boid) :
  is_finite_vector (position self) = false \/
  is_finite_vector (position other) = false ->
  in_radius radius self other = false.
Proof.
  intros H. unfold in_radius. cbv zeta.
  apply Unbounded.guard_unbounded, distance_unbounded, H.
Qed.

(** X13: an agent whose position has a coordinate that is NaN or infinite
    takes no part in the steering: its distance to any agent is NaN or
    [+infinity], so no agent counts it, whatever the radius, and it counts
    no agent: its own three forces are the zero vector in every vector. *)
Theorem lost_agent_is_ignored
        (radius : float) (lost other : Boid) (boids : list Boid) :
  is_finite_vector (position lost) = false ->
  in_radius radius other lost = false /\
  in_radius radius lost other = false /\
  separate lost boids = Vector2Zero /\
  align lost boids = Vector2Zero /\
  cohesion lost boids = Vector2Zero.
Proof.
  intros H.
  split; [apply in_radius_not_finite; right; exact H |].
  split; [apply in_radius_not_finite; left; exact H |].
  apply rules_alone. apply Forall_forall. intros o _.
  apply in_radius_not_finite. left. exact H.
Qed.

Lemma lost_agent_is_ignored_witness :
  is_finite_vector
    (position (mkBoid (mkVector2 S754_nan F32.one) (velocity trio_a)
                      Vector2Zero (rotation trio_a))) = false /\
  in_radius NEIGHBOR_RADIUS trio_a
    (mkBoid (mkVector2 S754_nan F32.one) (velocity trio_a)
            Vector2Zero (rotation trio_a)) = false /\
  align (mkBoid (mkVector2 S754_nan F32.one) (velocity trio_a)
                Vector2Zero (rotation trio_a)) slow_trio = Vector2Zero.
Proof.
  split; [reflexivity |].
  destruct (lost_agent_is_ignored NEIGHBOR_RADIUS
              (mkBoid (mkVector2 S754_nan F32.one) (velocity trio_a)
                      Vector2Zero (rotation trio_a))
              trio_a slow_trio eq_refl) as [H1 [_ [_ [H2 _]]]].
  split; [exact H1 | exact H2].
Defined.

(** * Rounding *)

(** ** One operation on finite values *)

(** *** Powers of two and binary digits *)

Local Open Scope R_scope.

Lemma bpow_pos e : 0 < bpow e.
Proof. apply powerRZ_lt. lra. Qed.

Lemma bpow_add a b : bpow (a + b) = bpow a * bpow b.
Proof. apply powerRZ_add. lra. Qed.

Lemma bpow_0 : bpow 0 = 1.
Proof. reflexivity. Qed.

Lemma bpow_1 : bpow 1 = 2.
Proof. unfold bpow. simpl. lra. Qed.

Lemma bpow_opp a : bpow (- a) = / bpow a.
Proof. apply powerRZ_neg'. Qed.

Lemma bpow_succ a : bpow (a + 1) = 2 * bpow a.
Proof. rewrite bpow_add, bpow_1. lra. Qed.

Lemma bpow_ge_1 z : (0 <= z)%Z -> 1 <= bpow z.
Proof.
  intros Hz. rewrite <- (Z2Nat.id z Hz).
  induction (Z.to_nat z) as [| n IH].
  - change (Z.of_nat 0) with 0%Z. rewrite bpow_0. lra.
  - rewrite Nat2Z.inj_succ. unfold Z.succ. rewrite bpow_succ. lra.
Qed.

Lemma bpow_le a b : (a <= b)%Z -> bpow a <= bpow b.
Proof.
  intros H. replace b with (a + (b - a))%Z by lia.
  rewrite bpow_add.
  assert (1 <= bpow (b - a)) by (apply bpow_ge_1; lia).
  pose proof (bpow_pos a). nra.
Qed.

Lemma bpow_lt a b : (a < b)%Z -> bpow a < bpow b.
Proof.
  intros H. apply Rlt_le_trans with (bpow (a + 1)).
  - rewrite bpow_succ. pose proof (bpow_pos a). lra.
  - apply bpow_le. lia.
Qed.

Lemma bpow_IZR n : (0 <= n)%Z -> bpow n = IZR (2 ^ n).
Proof.
  intros Hn. rewrite <- (Z2Nat.id n Hn).
  induction (Z.to_nat n) as [| k IH].
  - change (Z.of_nat 0) with 0%Z. rewrite bpow_0. reflexivity.
  - rewrite Nat2Z.inj_succ. unfold Z.succ. rewrite bpow_succ, IH.
    rewrite Z.pow_add_r by lia. rewrite mult_IZR. simpl. lra.
Qed.

Lemma digits2_pos_spec p :
  (2 ^ (Z.pos (digits2_pos p) - 1) <= Z.pos p < 2 ^ Z.pos (digits2_pos p))%Z.
Proof.
  induction p as [p IH | p IH |]; simpl digits2_pos.
  - rewrite Pos2Z.inj_succ. unfold Z.succ.
    replace (Z.pos (digits2_pos p) + 1 - 1)%Z with (Z.pos (digits2_pos p) - 1 + 1)%Z by lia.
    rewrite !Z.pow_add_r by lia. lia.
  - rewrite Pos2Z.inj_succ. unfold Z.succ.
    replace (Z.pos (digits2_pos p) + 1 - 1)%Z with (Z.pos (digits2_pos p) - 1 + 1)%Z by lia.
    rewrite !Z.pow_add_r by lia. lia.
  - simpl. lia.
Qed.

Lemma Zdigits2_spec m : (0 < m)%Z ->
  (2 ^ (Zdigits2 m - 1) <= m < 2 ^ Zdigits2 m)%Z /\ (0 < Zdigits2 m)%Z.
Proof.
  destruct m as [| p | p]; try lia. intros _. simpl.
  split; [apply digits2_pos_spec | lia].
Qed.

Lemma Zdigits2_0 : Zdigits2 0 = 0%Z.
Proof. reflexivity. Qed.

(* digits from bounds *)
Lemma Zdigits2_unique m d : (0 < d)%Z ->
  (2 ^ (d - 1) <= m < 2 ^ d)%Z -> Zdigits2 m = d.
Proof.
  intros Hd [H1 H2].
  assert (0 < m)%Z by (pose proof (Z.pow_pos_nonneg 2 (d - 1)); lia).
  destruct (Zdigits2_spec m H) as [[H3 H4] H5].
  destruct (Z.lt_trichotomy (Zdigits2 m) d) as [Hlt | [Heq | Hgt]]; [| exact Heq |].
  - assert (2 ^ Zdigits2 m <= 2 ^ (d - 1))%Z by (apply Z.pow_le_mono_r; lia). lia.
  - assert (2 ^ d <= 2 ^ (Zdigits2 m - 1))%Z by (apply Z.pow_le_mono_r; lia). lia.
Qed.

Lemma Rabs_bound x y : (Rabs x <= y -> - y <= x <= y)%R.
Proof. unfold Rabs. destruct (Rcase_abs x); lra. Qed.

Local Open Scope Z_scope.

(** *** Locations and right shifts *)

Lemma shr_record_of_loc_m m l : shr_m (shr_record_of_loc m l) = m.
Proof. destruct l as [| []]; reflexivity. Qed.

Lemma loc_of_shr_record_of_loc m l :
  loc_of_shr_record (shr_record_of_loc m l) = l.
Proof. destruct l as [| []]; reflexivity. Qed.

Lemma rec_ok_of_loc m l x : loc_ok m l x -> rec_ok (shr_record_of_loc m l) x.
Proof.
  unfold rec_ok. rewrite shr_record_of_loc_m, loc_of_shr_record_of_loc. auto.
Qed.

Lemma loc_ok_range m l x : loc_ok m l x -> (IZR m <= x < IZR m + 1)%R.
Proof. destruct l as [| []]; simpl; intros; lra. Qed.

Lemma IZR_xO p : IZR (Z.pos p~0) = (2 * IZR (Z.pos p))%R.
Proof. rewrite Pos2Z.inj_xO, mult_IZR. reflexivity. Qed.

Lemma IZR_xI p : IZR (Z.pos p~1) = (2 * IZR (Z.pos p) + 1)%R.
Proof. rewrite Pos2Z.inj_xI, plus_IZR, mult_IZR. reflexivity. Qed.

Lemma shr_1_ok mrs x :
  0 <= shr_m mrs -> rec_ok mrs x ->
  rec_ok (shr_1 mrs) (x / 2) /\ shr_m (shr_1 mrs) = shr_m mrs / 2.
Proof.
  destruct mrs as [m r s]. unfold rec_ok.
  cbn [shr_m]. intros Hm H.
  destruct m as [| [p | p |] | p]; try lia;
    destruct r, s;
    cbn [shr_1 shr_m shr_r shr_s loc_of_shr_record loc_ok orb] in *;
    try rewrite (IZR_xO p) in H; try rewrite (IZR_xI p) in H;
    (split; [lra | ]).
  all: try reflexivity.
  all: try (rewrite Pos2Z.inj_xI; apply (Z.div_unique _ 2 _ 1); lia).
  all: try (rewrite Pos2Z.inj_xO; apply (Z.div_unique _ 2 _ 0); lia).
Qed.

Lemma bpow_neg_1 : bpow (- (1)) = (/ 2)%R.
Proof. rewrite (bpow_opp 1), bpow_1. reflexivity. Qed.

Lemma bpow_neg_xI n :
  bpow (- Z.pos n~1) = (bpow (- Z.pos n) * bpow (- Z.pos n) * / 2)%R.
Proof.
  rewrite Pos2Z.inj_xI.
  replace (- (2 * Z.pos n + 1)) with (- Z.pos n + - Z.pos n + - (1)) by lia.
  rewrite !bpow_add, bpow_neg_1. reflexivity.
Qed.

Lemma bpow_neg_xO n :
  bpow (- Z.pos n~0) = (bpow (- Z.pos n) * bpow (- Z.pos n))%R.
Proof.
  rewrite Pos2Z.inj_xO.
  replace (- (2 * Z.pos n)) with (- Z.pos n + - Z.pos n) by lia.
  rewrite !bpow_add. reflexivity.
Qed.

Lemma iter_shr_ok n : forall mrs x,
  0 <= shr_m mrs -> rec_ok mrs x ->
  rec_ok (SpecFloat.iter_pos shr_1 n mrs) (x * bpow (- Z.pos n)) /\
  shr_m (SpecFloat.iter_pos shr_1 n mrs) = shr_m mrs / 2 ^ Z.pos n.
Proof.
  induction n as [n IH | n IH |]; intros mrs x Hm H; simpl SpecFloat.iter_pos.
  - destruct (shr_1_ok mrs x Hm H) as [H1 E1].
    assert (0 <= shr_m (shr_1 mrs)) as Hm1 by (rewrite E1; apply Z.div_pos; lia).
    destruct (IH _ _ Hm1 H1) as [H2 E2].
    assert (0 <= shr_m (SpecFloat.iter_pos shr_1 n (shr_1 mrs))) as Hm2
      by (rewrite E2; apply Z.div_pos; [lia | apply Z.pow_pos_nonneg; lia]).
    destruct (IH _ _ Hm2 H2) as [H3 E3].
    split.
    + replace (x * bpow (- Z.pos n~1))%R
        with (x / 2 * bpow (- Z.pos n) * bpow (- Z.pos n))%R; [exact H3 |].
      rewrite bpow_neg_xI. lra.
    + rewrite E3, E2, E1. rewrite !Z.div_div by (try apply Z.pow_pos_nonneg; lia).
      f_equal. rewrite Pos2Z.inj_xI.
      replace (2 * Z.pos n + 1) with (1 + Z.pos n + Z.pos n) by lia.
      rewrite !Z.pow_add_r by lia. change (2 ^ 1) with 2. ring.
  - destruct (IH _ _ Hm H) as [H2 E2].
    assert (0 <= shr_m (SpecFloat.iter_pos shr_1 n mrs)) as Hm2
      by (rewrite E2; apply Z.div_pos; [lia | apply Z.pow_pos_nonneg; lia]).
    destruct (IH _ _ Hm2 H2) as [H3 E3].
    split.
    + replace (x * bpow (- Z.pos n~0))%R
        with (x * bpow (- Z.pos n) * bpow (- Z.pos n))%R; [exact H3 |].
      rewrite bpow_neg_xO. lra.
    + rewrite E3, E2. rewrite !Z.div_div by (try apply Z.pow_pos_nonneg; lia).
      f_equal. rewrite Pos2Z.inj_xO.
      rewrite <- Z.pow_add_r by lia. f_equal. lia.
  - destruct (shr_1_ok mrs x Hm H) as [H1 E1]. split.
    + assert (x * bpow (- Z.pos 1) = x / 2)%R as ->; [| exact H1].
      change (- Z.pos 1)%Z with (- (1))%Z. rewrite bpow_neg_1. lra.
    + rewrite E1. reflexivity.
Qed.

(** *** The two shifts of [binary_round_aux] *)

Lemma fexp32_eq e : fexp F32.prec F32.emax e = fexp32 e.
Proof. reflexivity. Qed.

Lemma rne_ok m l x :
  0 <= m -> loc_ok m l x ->
  (Rabs (IZR (round_nearest_even m l) - x) <= / 2)%R /\
  m <= round_nearest_even m l <= m + 1 /\
  (l = loc_Exact -> round_nearest_even m l = m).
Proof.
  intros Hm H. destruct l as [| []]; simpl in *.
  - subst x. split; [| split; [lia | auto]].
    unfold Rminus. rewrite Rplus_opp_r, Rabs_R0. lra.
  - subst x. destruct (Z.even m).
    + split; [apply Rabs_le; lra | split; [lia | discriminate]].
    + split; [| split; [lia | discriminate]].
      rewrite plus_IZR. apply Rabs_le; lra.
  - split; [apply Rabs_le; lra | split; [lia | discriminate]].
  - split; [| split; [lia | discriminate]].
    rewrite plus_IZR. apply Rabs_le; lra.
Qed.

(** The first shift of [binary_round_aux]. *)
Lemma shr_fexp_ok mx ex lx x :
  0 <= mx -> loc_ok mx lx x -> ex <= fexp32 (Zdigits2 mx + ex) ->
  let e1 := fexp32 (Zdigits2 mx + ex) in
  exists mrs,
    shr_fexp F32.prec F32.emax mx ex lx = (mrs, e1) /\
    0 <= shr_m mrs < 2 ^ 24 /\
    rec_ok mrs (x * bpow (ex - e1)) /\
    (lx = loc_Exact -> e1 = ex -> mrs = shr_record_of_loc mx loc_Exact) /\
    (-149 < e1 -> 0 < mx -> 2 ^ 23 <= shr_m mrs).
Proof.
  intros Hm H He e1. unfold shr_fexp. rewrite fexp32_eq. fold e1.
  assert (mx < 2 ^ Zdigits2 mx /\ (0 < mx -> 2 ^ (Zdigits2 mx - 1) <= mx) /\ 0 <= Zdigits2 mx)
    as [Hd1 [Hd2 Hd0]].
  { destruct (Z.eq_dec mx 0) as [-> | Hne]; [simpl; lia |].
    destruct (Zdigits2_spec mx ltac:(lia)) as [[? ?] ?]. lia. }
  destruct (Z.eq_dec e1 ex) as [Heq | Hne].
  - (* no shift *)
    rewrite Heq, Z.sub_diag. simpl shr.
    exists (shr_record_of_loc mx lx). split; [reflexivity |].
    rewrite shr_record_of_loc_m.
    assert (Zdigits2 mx <= 24) by (unfold e1, fexp32 in Heq; lia).
    assert (2 ^ Zdigits2 mx <= 2 ^ 24) by (apply Z.pow_le_mono_r; lia).
    split; [lia |]. split; [| split].
    + rewrite bpow_0, Rmult_1_r. apply rec_ok_of_loc, H.
    + intros -> _. reflexivity.
    + intros He1 Hpos. rewrite <- Heq in He1.
      assert (Zdigits2 mx = 24) as Hd by (unfold e1, fexp32 in *; lia).
      rewrite Hd in Hd2. simpl in Hd2. apply Hd2, Hpos.
  - assert (0 < e1 - ex) as Hn by lia.
    destruct (e1 - ex) as [| n | n] eqn:En; try lia.
    simpl shr.
    destruct (iter_shr_ok n (shr_record_of_loc mx lx) x) as [H1 E1].
    { rewrite shr_record_of_loc_m. exact Hm. }
    { apply rec_ok_of_loc, H. }
    rewrite shr_record_of_loc_m in E1.
    exists (SpecFloat.iter_pos shr_1 n (shr_record_of_loc mx lx)).
    split; [f_equal; lia |].
    assert (0 < 2 ^ Z.pos n) by (apply Z.pow_pos_nonneg; lia).
    assert (Zdigits2 mx - 24 <= Z.pos n) as Hdn by (unfold e1, fexp32 in *; lia).
    split; [| split; [| split]].
    + rewrite E1. split; [apply Z.div_pos; lia |].
      apply Z.div_lt_upper_bound; [lia |].
      destruct (Z_le_gt_dec (Zdigits2 mx) (24 + Z.pos n)) as [Hle | Hgt]; [| lia].
      assert (2 ^ Zdigits2 mx <= 2 ^ (Z.pos n + 24)) by (apply Z.pow_le_mono_r; lia).
      rewrite Z.pow_add_r in * by lia. lia.
    + replace (ex - e1) with (- Z.pos n) by lia. exact H1.
    + intros _ Habs. lia.
    + intros He1 Hpos. rewrite E1.
      assert (Z.pos n = Zdigits2 mx - 24) as Hnd by (unfold e1, fexp32 in *; lia).
      apply Z.div_le_lower_bound; [lia |].
      specialize (Hd2 Hpos).
      replace (Zdigits2 mx - 1) with (23 + Z.pos n) in Hd2 by lia.
      rewrite Z.pow_add_r in Hd2 by lia. lia.
Qed.

Lemma second_shr m2 e1 :
  0 <= m2 <= 2 ^ 24 -> -149 <= e1 ->
  shr_fexp F32.prec F32.emax m2 e1 loc_Exact =
  if m2 =? 2 ^ 24
  then (Build_shr_record (2 ^ 23) false false, e1 + 1)
  else (Build_shr_record m2 false false, e1).
Proof.
  intros Hm He. unfold shr_fexp. rewrite fexp32_eq.
  destruct (Z.eqb_spec m2 (2 ^ 24)) as [-> | Hne].
  - change (Zdigits2 (2 ^ 24)) with 25.
    replace (fexp32 (25 + e1) - e1) with 1 by (unfold fexp32; lia).
    reflexivity.
  - assert (fexp32 (Zdigits2 m2 + e1) - e1 <= 0) as Hn.
    { destruct (Z.eq_dec m2 0) as [-> | H0]; [simpl; unfold fexp32; lia |].
      destruct (Zdigits2_spec m2 ltac:(lia)) as [[H1 H2] H3].
      assert (Zdigits2 m2 <= 24).
      { destruct (Z_le_gt_dec (Zdigits2 m2) 24); [assumption |].
        assert (2 ^ 24 <= 2 ^ (Zdigits2 m2 - 1)) by (apply Z.pow_le_mono_r; lia).
        lia. }
      unfold fexp32. lia. }
    destruct (fexp32 (Zdigits2 m2 + e1) - e1) as [| n | n]; try lia; reflexivity.
Qed.

(** [binary_round_aux] on the mantissa [mx] with location [lx] for the real
    [x]: the result is [bra_result] for a mantissa within one half of [x]
    scaled to the exponent of its last place. *)
Lemma round_aux_spec sx mx ex lx x :
  0 <= mx -> loc_ok mx lx x -> ex <= fexp32 (Zdigits2 mx + ex) ->
  let e1 := fexp32 (Zdigits2 mx + ex) in
  exists m2,
    binary_round_aux F32.prec F32.emax sx mx ex lx = bra_result sx m2 e1 /\
    0 <= m2 <= 2 ^ 24 /\
    (Rabs (IZR m2 - x * bpow (ex - e1)) <= / 2)%R /\
    (lx = loc_Exact -> e1 = ex -> m2 = mx) /\
    (-149 < e1 -> 2 ^ 23 <= m2) /\
    (-149 < e1 -> (IZR (2 ^ 23) <= x * bpow (ex - e1))%R).
Proof.
  intros Hm H He e1.
  destruct (shr_fexp_ok mx ex lx x Hm H He) as [mrs [E1 [Hr [Hok [Hex Hlow]]]]].
  assert (-149 < e1 -> 0 < mx) as Hmx.
  { intros Hgt. destruct (Z.eq_dec mx 0) as [-> | ?]; [| lia].
    unfold e1, fexp32 in *. simpl Zdigits2 in *. lia. }
  fold e1 in E1, Hok, Hex, Hlow.
  unfold binary_round_aux. rewrite E1.
  destruct (rne_ok (shr_m mrs) (loc_of_shr_record mrs) _ (proj1 Hr) Hok)
    as [Habs [Hm2 Hexact]].
  set (m2 := round_nearest_even (shr_m mrs) (loc_of_shr_record mrs)) in *.
  exists m2.
  assert (-149 <= e1) as He1 by (unfold e1, fexp32; lia).
  rewrite (second_shr m2 e1 ltac:(lia) He1).
  split; [| split; [lia | split; [exact Habs | split; [| split]]]].
  - unfold bra_result.
    destruct (Z.eqb_spec m2 (2 ^ 24)) as [E | E].
    + rewrite E. reflexivity.
    + cbn [shr_m]. destruct m2 as [| p | p]; try lia; reflexivity.
  - intros Hl He'. subst lx. rewrite (Hexact ltac:(rewrite (Hex eq_refl He'); reflexivity)).
    rewrite (Hex eq_refl He'). reflexivity.
  - intros Hgt. specialize (Hlow Hgt (Hmx Hgt)). lia.
  - intros Hgt. specialize (Hlow Hgt (Hmx Hgt)).
    apply loc_ok_range in Hok. apply IZR_le in Hlow. lra.
Qed.

(** *** The error of [binary_round_aux] *)

Local Open Scope R_scope.

Lemma u_val : u = / 16777216.
Proof.
  unfold u. change (-24)%Z with (- (24))%Z.
  rewrite (bpow_opp 24), (bpow_IZR 24) by lia. reflexivity.
Qed.

Lemma Rabs_mult_pos a b : 0 < b -> Rabs (a * b) = Rabs a * b.
Proof. intros H. rewrite Rabs_mult, (Rabs_pos_eq b); lra. Qed.

Lemma bpow_sub_mul x a b : x * bpow (a - b) * bpow b = x * bpow a.
Proof.
  replace a with ((a - b) + b)%Z at 2 by lia. rewrite bpow_add. ring.
Qed.

Lemma canonical_24 (m : positive) (e : Z) :
  (2 ^ 23 <= Z.pos m < 2 ^ 24)%Z -> (-149 <= e)%Z ->
  canonical_mantissa F32.prec F32.emax m e = true.
Proof.
  intros Hm He. unfold canonical_mantissa. rewrite fexp32_eq.
  change (Z.pos (digits2_pos m)) with (Zdigits2 (Z.pos m)).
  rewrite (Zdigits2_unique (Z.pos m) 24) by (simpl; lia).
  unfold fexp32. apply Z.eqb_eq. lia.
Qed.

Lemma canonical_sub (m : positive) :
  (Z.pos m < 2 ^ 23)%Z ->
  canonical_mantissa F32.prec F32.emax m (-149) = true.
Proof.
  intros Hm. unfold canonical_mantissa. rewrite fexp32_eq.
  change (Z.pos (digits2_pos m)) with (Zdigits2 (Z.pos m)).
  destruct (Zdigits2_spec (Z.pos m) ltac:(lia)) as [[H1 H2] H3].
  assert (Zdigits2 (Z.pos m) <= 23)%Z.
  { destruct (Z_le_gt_dec (Zdigits2 (Z.pos m)) 23); [assumption |].
    assert (2 ^ 23 <= 2 ^ (Zdigits2 (Z.pos m) - 1))%Z by (apply Z.pow_le_mono_r; lia).
    lia. }
  unfold fexp32. apply Z.eqb_eq. lia.
Qed.

(** ... which makes the result a rounding of [x * 2^ex]; the absolute error
    can be taken as 0 when a subnormal result is exact. *)
Lemma round_aux_rounded eta0 sx mx ex lx x :
  (0 <= mx)%Z -> loc_ok mx lx x -> (ex <= fexp32 (Zdigits2 mx + ex))%Z ->
  (fexp32 (Zdigits2 mx + ex) = (-149)%Z ->
   eta <= eta0 \/ (0 <= eta0 /\ lx = loc_Exact /\ ex = (-149)%Z)) ->
  rounded eta0 (binary_round_aux F32.prec F32.emax sx mx ex lx) sx (x * bpow ex).
Proof.
  intros Hm H He Heta.
  destruct (round_aux_spec sx mx ex lx x Hm H He) as [m2 [E [Hm2 [Habs [Hexact [Hlow Hx]]]]]].
  set (e1 := fexp32 (Zdigits2 mx + ex)) in *.
  rewrite E. clear E.
  assert (-149 <= e1)%Z as He1 by (unfold e1, fexp32; lia).
  set (X := x * bpow ex).
  assert (0 <= x) as Hx0.
  { apply loc_ok_range in H. assert (0 <= IZR mx) by (apply IZR_le; lia). lra. }
  assert (0 <= X) as HX0.
  { unfold X. pose proof (bpow_pos ex). nra. }
  assert (Rabs (IZR m2 * bpow e1 - X) <= bpow e1 / 2) as Herr.
  { replace (IZR m2 * bpow e1 - X)
      with ((IZR m2 - x * bpow (ex - e1)) * bpow e1)
      by (unfold X; rewrite <- (bpow_sub_mul x ex e1); ring).
    rewrite Rabs_mult_pos by apply bpow_pos.
    pose proof (bpow_pos e1). nra. }
  assert ((-149 < e1)%Z -> bpow e1 / 2 <= u * X) as Hrel.
  { intros Hgt. specialize (Hx Hgt).
    assert (IZR (2 ^ 23) * bpow e1 <= X) as HX.
    { unfold X. rewrite <- (bpow_sub_mul x ex e1).
      pose proof (bpow_pos e1). nra. }
    rewrite u_val. change (IZR (2 ^ 23)) with 8388608 in HX. lra. }
  assert (e1 = (-149)%Z -> X < bpow (-125)) as Hsmall.
  { intros He1'.
    apply loc_ok_range in H.
    destruct (Z.eq_dec mx 0%Z) as [Hz | Hnz].
    - subst mx. simpl Zdigits2 in *.
      assert (ex <= -149)%Z by (unfold e1, fexp32 in *; lia).
      unfold X. simpl in H.
      assert (bpow ex <= bpow (-149)) by (apply bpow_le; lia).
      assert (bpow (-149) < bpow (-125)) by (apply bpow_lt; lia).
      pose proof (bpow_pos ex). nra.
    - destruct (Zdigits2_spec mx ltac:(lia)) as [[H1 H2] H3].
      assert (Zdigits2 mx + ex <= -125)%Z by (unfold e1, fexp32 in *; lia).
      assert (IZR mx + 1 <= bpow (Zdigits2 mx)) as Hb.
      { rewrite bpow_IZR by lia. rewrite <- plus_IZR. apply IZR_le. lia. }
      unfold X.
      assert (bpow (Zdigits2 mx) * bpow ex <= bpow (-125)).
      { rewrite <- bpow_add. apply bpow_le. lia. }
      pose proof (bpow_pos ex). nra. }
  assert (e1 = (-149)%Z -> Rabs (IZR m2 * bpow e1 - X) <= eta0) as Herr0.
  { intros He'. destruct (Heta He') as [Hle | [H0 [Hl Hex]]].
    - eapply Rle_trans; [exact Herr |]. eapply Rle_trans; [| exact Hle].
      rewrite He'. unfold eta.
      replace (-150)%Z with (-149 + - (1))%Z by lia.
      rewrite bpow_add, bpow_neg_1. lra.
    - rewrite (Hexact Hl ltac:(lia)). subst lx. simpl in H. unfold X.
      rewrite H. replace ex with e1 by lia.
      unfold Rminus. rewrite Rplus_opp_r, Rabs_R0. exact H0. }
  assert ((0 < m2)%Z -> 0 < X) as Hpos0.
  { intros Hgt. assert (1 <= IZR m2) by (apply IZR_le; lia).
    assert (/ 2 <= x * bpow (ex - e1)).
    { apply Rabs_bound in Habs. lra. }
    unfold X. rewrite <- (bpow_sub_mul x ex e1).
    pose proof (bpow_pos e1). nra. }
  unfold bra_result, rounded.
  destruct (Z.eqb_spec m2 0%Z) as [Hz | Hnz].
  - (* zero *)
    split; [reflexivity |]. split; [reflexivity |].
    assert (e1 = (-149)%Z) as He' by lia.
    specialize (Herr0 He').
    subst m2. rewrite Rmult_0_l in Herr0.
    unfold Rminus in Herr0. rewrite Rplus_0_l, Rabs_Ropp, Rabs_pos_eq in Herr0 by exact HX0.
    exact Herr0.
  - destruct (Z.eqb_spec m2 (2 ^ 24)%Z) as [Hc | Hnc].
    + (* carry *)
      assert (IZR (Z.pos (2 ^ 23)) * bpow (e1 + 1) = IZR m2 * bpow e1) as Hy.
      { rewrite Hc, bpow_succ. change (IZR (2 ^ 24)) with 16777216.
        change (IZR (Z.pos (2 ^ 23))) with 8388608. ring. }
      destruct (Z.leb_spec (e1 + 1)%Z 104%Z) as [Hle | Hgt].
      * split.
        { unfold valid, valid_binary, bounded.
          rewrite canonical_24 by (simpl; lia).
          apply Z.leb_le. unfold F32.emax, F32.prec. lia. }
        split; [reflexivity |]. split; [apply Hpos0; lia |]. rewrite Hy.
        destruct (Z.eq_dec e1 (-149)%Z) as [He' | He'].
        -- right. split; [apply Herr0, He' | apply Hsmall, He'].
        -- left. specialize (Hrel ltac:(lia)). lra.
      * split; [reflexivity |]. split; [reflexivity |].
        specialize (Hrel ltac:(lia)).
        assert (bpow 128 <= IZR m2 * bpow e1) as Hbig.
        { rewrite Hc. change (IZR (2 ^ 24)) with (IZR (2 ^ 24)).
          rewrite <- bpow_IZR by lia. rewrite <- bpow_add. apply bpow_le. lia. }
        assert (IZR m2 * bpow e1 - X <= u * X).
        { eapply Rle_trans; [apply Rle_abs |]. lra. }
        rewrite u_val in *.
        replace 128%Z with (127 + 1)%Z in Hbig by lia. rewrite bpow_succ in Hbig.
        pose proof (bpow_pos 127). lra.
    + assert (0 < m2 < 2 ^ 24)%Z as Hm2' by lia.
      assert (IZR (Z.pos (Z.to_pos m2)) = IZR m2) as Hpos
        by (rewrite Z2Pos.id by lia; reflexivity).
      destruct (Z.leb_spec e1 104%Z) as [Hle | Hgt].
      * split.
        { unfold valid, valid_binary, bounded.
          destruct (Z.eq_dec e1 (-149)%Z) as [He' | He'].
          - destruct (Z_lt_le_dec m2 (2 ^ 23)%Z).
            + rewrite He', canonical_sub by (rewrite Z2Pos.id; lia). reflexivity.
            + rewrite canonical_24 by (rewrite ?Z2Pos.id; lia).
              apply Z.leb_le. unfold F32.emax, F32.prec. lia.
          - rewrite canonical_24 by (rewrite ?Z2Pos.id; lia).
            apply Z.leb_le. unfold F32.emax, F32.prec. lia. }
        split; [reflexivity |]. split; [apply Hpos0; lia |]. rewrite Hpos.
        destruct (Z.eq_dec e1 (-149)%Z) as [He' | He'].
        -- right. split; [apply Herr0, He' | apply Hsmall, He'].
        -- left. specialize (Hrel ltac:(lia)). lra.
      * split; [reflexivity |]. split; [reflexivity |].
        specialize (Hrel ltac:(lia)). specialize (Hlow ltac:(lia)).
        assert (bpow 128 <= IZR m2 * bpow e1) as Hbig.
        { apply Rle_trans with (IZR (2 ^ 23) * bpow e1).
          - rewrite <- bpow_IZR by lia. rewrite <- bpow_add. apply bpow_le. lia.
          - apply IZR_le in Hlow. pose proof (bpow_pos e1). nra. }
        assert (IZR m2 * bpow e1 - X <= u * X).
        { eapply Rle_trans; [apply Rle_abs |]. lra. }
        rewrite u_val in *.
        replace 128%Z with (127 + 1)%Z in Hbig by lia. rewrite bpow_succ in Hbig.
        pose proof (bpow_pos 127). lra.
Qed.

Local Open Scope Z_scope.

(** *** Canonical values *)

Lemma valid_finite s m e :
  valid (S754_finite s m e) = true ->
  fexp32 (Zdigits2 (Z.pos m) + e) = e /\ e <= 104.
Proof.
  unfold valid, valid_binary, bounded, canonical_mantissa.
  rewrite fexp32_eq. intros H. apply andb_prop in H as [H1 H2].
  apply Z.eqb_eq in H1. apply Z.leb_le in H2.
  unfold F32.emax, F32.prec in H2. split; [exact H1 | lia].
Qed.

Lemma Zdigits2_mul a b : 0 < a -> 0 < b ->
  Zdigits2 a + Zdigits2 b - 1 <= Zdigits2 (a * b).
Proof.
  intros Ha Hb.
  destruct (Zdigits2_spec a Ha) as [[A1 A2] A3].
  destruct (Zdigits2_spec b Hb) as [[B1 B2] B3].
  destruct (Zdigits2_spec (a * b) ltac:(lia)) as [[C1 C2] C3].
  destruct (Z_le_gt_dec (Zdigits2 a + Zdigits2 b - 1) (Zdigits2 (a * b)));
    [assumption |].
  assert (2 ^ Zdigits2 (a * b) <= 2 ^ (Zdigits2 a - 1 + (Zdigits2 b - 1)))
    by (apply Z.pow_le_mono_r; lia).
  rewrite Z.pow_add_r in * by lia.
  assert (2 ^ (Zdigits2 a - 1) * 2 ^ (Zdigits2 b - 1) <= a * b) by nia.
  lia.
Qed.

Local Open Scope R_scope.

Lemma F2R_abs_finite s m e :
  Rabs (F2R (S754_finite s m e)) = IZR (Z.pos m) * bpow e.
Proof.
  simpl. pose proof (bpow_pos e).
  assert (0 < IZR (Z.pos m)) by (apply IZR_lt; lia).
  destruct s.
  - rewrite Rabs_left; nra.
  - rewrite Rabs_pos_eq; nra.
Qed.

Lemma F2R_sgn f :
  F2R f = (if sgn f then -1 else 1) * Rabs (F2R f).
Proof.
  destruct f as [s | s | | s m e]; simpl F2R at 1 ; simpl sgn;
    try (simpl; rewrite Rabs_R0; ring).
  rewrite F2R_abs_finite. ring.
Qed.

(** *** Multiplication *)

(** The product of two finite values is the exact product, rounded. *)
Lemma mul_rounded (a b : float) :
  fin a -> fin b ->
  rounded eta (F32.mul a b) (xorb (sgn a) (sgn b)) (Rabs (F2R a * F2R b)).
Proof.
  intros [Va Fa] [Vb Fb].
  assert (0 <= eta) as Heta by (apply Rlt_le, bpow_pos).
  destruct a as [s | s | | s m e], b as [t | t | | t n f];
    try discriminate; simpl sgn.
  - split; [reflexivity |]. split; [reflexivity |].
    simpl. rewrite Rmult_0_l, Rabs_R0. exact Heta.
  - split; [reflexivity |]. split; [reflexivity |].
    simpl F2R at 1. rewrite Rmult_0_l, Rabs_R0. exact Heta.
  - split; [reflexivity |]. split; [reflexivity |].
    simpl F2R at 2. rewrite Rmult_0_r, Rabs_R0. exact Heta.
  - destruct (valid_finite _ _ _ Va) as [Ca Ea].
    destruct (valid_finite _ _ _ Vb) as [Cb Eb].
    rewrite Rabs_mult, !F2R_abs_finite.
    replace (IZR (Z.pos m) * bpow e * (IZR (Z.pos n) * bpow f))
      with (IZR (Z.pos (m * n)) * bpow (e + f))
      by (rewrite Pos2Z.inj_mul, mult_IZR, bpow_add; ring).
    unfold F32.mul, SFmul.
    apply round_aux_rounded.
    + lia.
    + reflexivity.
    + rewrite Pos2Z.inj_mul.
      pose proof (Zdigits2_mul (Z.pos m) (Z.pos n) ltac:(lia) ltac:(lia)) as Hd.
      destruct (Zdigits2_spec (Z.pos m) ltac:(lia)) as [_ Dm].
      destruct (Zdigits2_spec (Z.pos n) ltac:(lia)) as [_ Dn].
      unfold fexp32 in *. lia.
    + intros _. left. lra.
Qed.

(** *** Signed form *)

Lemma F2R_pos_sgn f : 0 < F2R f -> sgn f = false.
Proof.
  destruct f as [s | s | | s m e]; simpl; try lra.
  destruct s; [| reflexivity].
  pose proof (bpow_pos e). assert (0 < IZR (Z.pos m)) by (apply IZR_lt; lia).
  nra.
Qed.

Lemma F2R_neg_sgn f : F2R f < 0 -> sgn f = true.
Proof.
  destruct f as [s | s | | s m e]; simpl; try lra.
  destruct s; [reflexivity |].
  pose proof (bpow_pos e). assert (0 < IZR (Z.pos m)) by (apply IZR_lt; lia).
  nra.
Qed.

Lemma mul_pos_cases (a b : R) :
  0 < a * b -> (0 < a /\ 0 < b) \/ (a < 0 /\ b < 0).
Proof.
  intros H.
  destruct (Rtotal_order a 0) as [Ha | [Ha | Ha]];
    destruct (Rtotal_order b 0) as [Hb | [Hb | Hb]];
    try (subst; rewrite ?Rmult_0_l, ?Rmult_0_r in H; lra);
    try (left; split; assumption); try (right; split; assumption).
  - assert (a * b < 0) by (apply Ropp_lt_cancel; rewrite Ropp_0, Ropp_mult_distr_l; apply Rmult_lt_0_compat; lra). lra.
  - assert (a * b < 0) by (apply Ropp_lt_cancel; rewrite Ropp_0, Ropp_mult_distr_r; apply Rmult_lt_0_compat; lra). lra.
Qed.

Lemma mul_neg_cases (a b : R) :
  a * b < 0 -> (0 < a /\ b < 0) \/ (a < 0 /\ 0 < b).
Proof.
  intros H. destruct (mul_pos_cases a (- b)) as [[? ?] | [? ?]].
  - rewrite <- Ropp_mult_distr_r. lra.
  - left. split; lra.
  - right. split; lra.
Qed.

Lemma mul_rounds (a b : float) :
  fin a -> fin b -> rounds eta (F32.mul a b) (F2R a * F2R b).
Proof.
  intros Ha Hb. exists (xorb (sgn a) (sgn b)).
  split; [apply mul_rounded; assumption |].
  split; intros H.
  - destruct (mul_pos_cases _ _ H) as [[Pa Pb] | [Na Nb]].
    + rewrite (F2R_pos_sgn a), (F2R_pos_sgn b) by assumption. reflexivity.
    + rewrite (F2R_neg_sgn a), (F2R_neg_sgn b) by assumption. reflexivity.
  - destruct (mul_neg_cases _ _ H) as [[Pa Nb] | [Na Pb]].
    + rewrite (F2R_pos_sgn a), (F2R_neg_sgn b) by assumption. reflexivity.
    + rewrite (F2R_neg_sgn a), (F2R_pos_sgn b) by assumption. reflexivity.
Qed.

Lemma rounds_not_nan eta0 r V : rounds eta0 r V -> F32.is_nan r = false.
Proof. intros [s [[_ H] _]]. destruct r; try reflexivity. contradiction. Qed.

Lemma rounds_valid eta0 r V : rounds eta0 r V -> valid r = true.
Proof. intros [s [[H _] _]]. exact H. Qed.

Lemma rounds_finite eta0 r V :
  rounds eta0 r V -> Rabs V <= bpow 127 -> fin r.
Proof.
  intros [s [[Hv H] _]] HV. split; [exact Hv |].
  destruct r; try reflexivity; [| contradiction].
  destruct H as [_ H]. lra.
Qed.

Lemma rounds_inf eta0 r V :
  rounds eta0 r V -> F32.is_finite r = false ->
  bpow 127 < Rabs V /\
  r = S754_infinity (if Rlt_dec V 0 then true else false).
Proof.
  intros [s [[Hv H] [Hp Hn]]] Hf.
  destruct r as [t | t | | t m e]; try discriminate; [| contradiction].
  destruct H as [-> H]. split; [exact H |].
  pose proof (bpow_pos 127).
  destruct (Rlt_dec V 0) as [Hlt | Hge].
  - rewrite (Hn Hlt). reflexivity.
  - assert (0 < V).
    { destruct (Rle_lt_dec V 0) as [Hle | ?]; [| assumption].
      assert (V = 0) by lra. subst V. rewrite Rabs_R0 in H. lra. }
    rewrite (Hp H1). reflexivity.
Qed.

(** The error of a finite result, relative with an absolute term. *)
Lemma rounds_err eta0 r V :
  rounds eta0 r V -> 0 <= eta0 <= eta -> F32.is_finite r = true ->
  Rabs (F2R r - V) <= u * Rabs V + eta0 /\
  (bpow (-125) <= Rabs V -> Rabs (F2R r - V) <= u * Rabs V) /\
  (0 <= V -> 0 <= F2R r) /\ (V <= 0 -> F2R r <= 0).
Proof.
  intros [s [[Hv H] [Hp Hn]]] H0 Hf.
  assert (0 < u) as Hu by apply bpow_pos.
  assert (eta < bpow (-125)) as He by (apply bpow_lt; lia).
  pose proof (Rabs_pos V) as HV.
  destruct r as [t | t | | t m e]; try discriminate.
  - destruct H as [_ H]. simpl F2R.
    unfold Rminus. rewrite Rplus_0_l, Rabs_Ropp.
    split; [nra |]. split; [intros; lra | split; lra].
  - destruct H as [-> [HX H]].
    pose proof (bpow_pos e) as Hb.
    assert (0 < IZR (Z.pos m)) as Hm by (apply IZR_lt; lia).
    assert (0 < IZR (Z.pos m) * bpow e) as Hy by nra.
    assert (Rabs (F2R (S754_finite s m e) - V)
            = Rabs (IZR (Z.pos m) * bpow e - Rabs V) /\
            (0 <= V -> 0 <= F2R (S754_finite s m e)) /\
            (V <= 0 -> F2R (S754_finite s m e) <= 0)) as [-> Hsign].
    { simpl F2R. generalize dependent (IZR (Z.pos m)). intros M H Hm Hy.
      destruct (Rtotal_order V 0) as [Hlt | [Heq | Hgt]].
      - rewrite (Hn Hlt). cbv iota. rewrite (Rabs_left V Hlt).
        split; [| split; intros; lra].
        replace (-1 * M * bpow e - V)
          with (- (M * bpow e - - V)) by ring.
        apply Rabs_Ropp.
      - subst V. rewrite Rabs_R0 in HX. lra.
      - rewrite (Hp Hgt). cbv iota. rewrite (Rabs_pos_eq V) by lra.
        split; [| split; intros; lra]. f_equal. ring. }
    assert (0 <= u * Rabs V) by (apply Rmult_le_pos; lra).
    split; [| split; [| exact Hsign]].
    + destruct H as [H | [H _]]; lra.
    + intros Hbig. destruct H as [H | [_ H]]; lra.
Qed.

Local Open Scope Z_scope.

(** *** Alignment, [binary_round] and [binary_normalize] *)

Lemma Zdigits2_shift m k : 0 < m -> 0 <= k ->
  Zdigits2 (m * 2 ^ k) = Zdigits2 m + k.
Proof.
  intros Hm Hk.
  destruct (Zdigits2_spec m Hm) as [[H1 H2] H3].
  apply Zdigits2_unique; [lia |].
  replace (Zdigits2 m + k - 1) with ((Zdigits2 m - 1) + k) by lia.
  rewrite !Z.pow_add_r by lia.
  assert (0 < 2 ^ k) by (apply Z.pow_pos_nonneg; lia).
  nia.
Qed.

Lemma shl_align_spec mx ex ex' :
  snd (shl_align mx ex ex') = Z.min ex ex' /\
  Z.pos (fst (shl_align mx ex ex')) = Z.pos mx * 2 ^ (ex - Z.min ex ex').
Proof.
  unfold shl_align.
  destruct (ex' - ex) as [| d | d] eqn:E; simpl.
  - replace (Z.min ex ex') with ex by lia.
    rewrite Z.sub_diag. simpl. lia.
  - replace (Z.min ex ex') with ex by lia.
    rewrite Z.sub_diag. simpl. lia.
  - replace (Z.min ex ex') with ex' by lia.
    change (Pos.iter xO mx d) with (shift_pos d mx).
    rewrite shift_pos_correct, Z.pow_pos_fold.
    replace (ex - ex') with (Z.pos d) by lia. lia.
Qed.

Local Open Scope R_scope.

Lemma IZR_shift (m k : Z) (e : Z) :
  (0 <= k)%Z -> IZR (m * 2 ^ k) * bpow (e - k) = IZR m * bpow e.
Proof.
  intros Hk. rewrite mult_IZR, <- bpow_IZR by lia.
  replace e with ((e - k) + k)%Z at 2 by lia. rewrite bpow_add. ring.
Qed.

Lemma binary_round_rounded eta0 sx mx ex :
  eta <= eta0 \/ (0 <= eta0 /\ (-149 <= ex)%Z) ->
  rounded eta0 (binary_round F32.prec F32.emax sx mx ex) sx
          (IZR (Z.pos mx) * bpow ex).
Proof.
  intros Heta. unfold binary_round.
  rewrite fexp32_eq.
  change (Z.pos (digits2_pos mx)) with (Zdigits2 (Z.pos mx)).
  set (e' := fexp32 (Zdigits2 (Z.pos mx) + ex)).
  destruct (shl_align_spec mx ex e') as [Hs Hf].
  destruct (shl_align mx ex e') as [mz ez]. simpl in Hs, Hf.
  assert (ez <= ex)%Z as Hle by lia.
  assert (Zdigits2 (Z.pos mz) + ez = Zdigits2 (Z.pos mx) + ex)%Z as Hd.
  { rewrite Hf, Zdigits2_shift by lia. lia. }
  replace (IZR (Z.pos mx) * bpow ex) with (IZR (Z.pos mz) * bpow ez).
  2:{ rewrite Hf.
      replace (bpow ez) with (bpow (ex - (ex - Z.min ex e'))) by (f_equal; lia).
      apply IZR_shift. lia. }
  apply round_aux_rounded.
  - lia.
  - reflexivity.
  - rewrite Hd. fold e'. lia.
  - rewrite Hd. fold e'. intros He'.
    destruct Heta as [H | [H0 Hex]]; [left; exact H |].
    right. split; [exact H0 |]. split; [reflexivity |]. lia.
Qed.

Lemma binary_normalize_rounds (m e : Z) :
  (-149 <= e)%Z ->
  rounds 0 (binary_normalize F32.prec F32.emax m e false) (IZR m * bpow e).
Proof.
  intros He. pose proof (bpow_pos e) as Hb.
  destruct m as [| p | p]; simpl binary_normalize.
  - exists false. split; [| split; intros; lra].
    split; [reflexivity |]. split; [reflexivity |].
    rewrite Rmult_0_l, Rabs_R0. lra.
  - assert (0 < IZR (Z.pos p)) by (apply IZR_lt; lia).
    assert (0 < IZR (Z.pos p) * bpow e) by (apply Rmult_lt_0_compat; assumption).
    exists false. split; [| split; intros; [reflexivity | lra]].
    rewrite Rabs_pos_eq by lra.
    apply binary_round_rounded. right. split; [lra | exact He].
  - assert (0 < IZR (Z.pos p)) by (apply IZR_lt; lia).
    assert (0 < IZR (Z.pos p) * bpow e) by (apply Rmult_lt_0_compat; assumption).
    assert (IZR (Z.neg p) = - IZR (Z.pos p)) as Hn.
    { rewrite <- opp_IZR. reflexivity. }
    exists true. split; [| split; intros; [| reflexivity]].
    + rewrite Hn. replace (- IZR (Z.pos p) * bpow e) with (- (IZR (Z.pos p) * bpow e)) by ring.
      rewrite Rabs_Ropp, Rabs_pos_eq by lra.
      apply binary_round_rounded. right. split; [lra | exact He].
    + rewrite Hn in *. lra.
Qed.

(** *** Conversion from an integer *)

Lemma of_int_rounds (n : Z) : rounds 0 (F32.of_int n) (IZR n).
Proof.
  unfold F32.of_int. replace (IZR n) with (IZR n * bpow 0) by (rewrite bpow_0; ring).
  apply binary_normalize_rounds. lia.
Qed.

(** *** Addition and subtraction *)

Lemma F2R_cond (s : bool) (m : positive) (e : Z) :
  F2R (S754_finite s m e) = IZR (cond_Zopp s (Z.pos m)) * bpow e.
Proof.
  simpl. destruct s; simpl cond_Zopp.
  - change (Z.neg m) with (- Z.pos m)%Z. rewrite opp_IZR. ring.
  - ring.
Qed.

Lemma cond_Zopp_mul s a b : (cond_Zopp s a * b = cond_Zopp s (a * b))%Z.
Proof. destruct s; simpl; lia. Qed.

Lemma aligned (s : bool) (m : positive) (e ez : Z) :
  (ez <= e)%Z ->
  IZR (cond_Zopp s (Z.pos (fst (shl_align m e ez)))) * bpow ez
  = F2R (S754_finite s m e).
Proof.
  intros Hle. destruct (shl_align_spec m e ez) as [_ Hf].
  rewrite Hf, F2R_cond.
  replace (Z.min e ez) with ez by lia.
  rewrite <- cond_Zopp_mul.
  replace (bpow ez) with (bpow (e - (e - ez))) by (f_equal; lia).
  apply IZR_shift. lia.
Qed.

Lemma rounds_exact (f : float) :
  fin f -> rounds 0 f (F2R f).
Proof.
  intros [Hv Hf].
  destruct f as [s | s | | s m e]; try discriminate.
  - exists s. split; [| split; simpl; intros; lra].
    split; [exact Hv |]. split; [reflexivity |]. simpl. rewrite Rabs_R0. lra.
  - exists s. pose proof (bpow_pos e).
    assert (0 < IZR (Z.pos m)) by (apply IZR_lt; lia).
    assert (0 < IZR (Z.pos m) * bpow e) by (apply Rmult_lt_0_compat; assumption).
    split; [| split; simpl; intros; destruct s; try reflexivity; lra].
    split; [exact Hv |]. rewrite F2R_abs_finite.
    split; [reflexivity |]. split; [assumption |]. left.
    unfold Rminus. rewrite Rplus_opp_r, Rabs_R0.
    apply Rmult_le_pos; [apply Rlt_le, bpow_pos | lra].
Qed.

(** The sum of two finite values is the exact sum, rounded; a subnormal sum
    is exact. *)
Lemma add_rounds (a b : float) :
  fin a -> fin b -> rounds 0 (F32.add a b) (F2R a + F2R b).
Proof.
  intros Ha Hb.
  destruct a as [s | s | | s m e], b as [t | t | | t n f];
    try (destruct Ha as [_ Ha]; discriminate);
    try (destruct Hb as [_ Hb]; discriminate).
  - exists (if s then t else false).
    simpl F2R. rewrite Rplus_0_l, Rabs_R0.
    split; [| split; intros; lra].
    destruct s, t; (split; [reflexivity |]); (split; [reflexivity | lra]).
  - simpl F2R at 1. rewrite Rplus_0_l. apply rounds_exact. exact Hb.
  - simpl F2R at 2. rewrite Rplus_0_r. apply rounds_exact. exact Ha.
  - destruct (valid_finite _ _ _ (proj1 Ha)) as [Ca Ea].
    destruct (valid_finite _ _ _ (proj1 Hb)) as [Cb Eb].
    assert (-149 <= e)%Z by (unfold fexp32 in Ca; lia).
    assert (-149 <= f)%Z by (unfold fexp32 in Cb; lia).
    unfold F32.add, SFadd. cbv zeta.
    rewrite <- (aligned s m e (Z.min e f)), <- (aligned t n f (Z.min e f)) by lia.
    rewrite <- Rmult_plus_distr_r, <- plus_IZR.
    apply binary_normalize_rounds. lia.
Qed.

(** The same for the difference. *)
Lemma sub_rounds (a b : float) :
  fin a -> fin b -> rounds 0 (F32.sub a b) (F2R a - F2R b).
Proof.
  intros Ha Hb.
  destruct a as [s | s | | s m e], b as [t | t | | t n f];
    try (destruct Ha as [_ Ha]; discriminate);
    try (destruct Hb as [_ Hb]; discriminate).
  - exists (if s then negb t else false).
    simpl F2R. unfold Rminus. rewrite Rplus_0_l, Ropp_0, Rabs_R0.
    split; [| split; intros; lra].
    destruct s, t; (split; [reflexivity |]); (split; [reflexivity | lra]).
  - simpl F2R at 1. unfold Rminus. rewrite Rplus_0_l.
    replace (- F2R (S754_finite t n f)) with (F2R (S754_finite (negb t) n f))
      by (simpl; destruct t; simpl; ring).
    apply rounds_exact. exact Hb.
  - simpl F2R at 2. unfold Rminus. rewrite Ropp_0, Rplus_0_r.
    apply rounds_exact. exact Ha.
  - destruct (valid_finite _ _ _ (proj1 Ha)) as [Ca Ea].
    destruct (valid_finite _ _ _ (proj1 Hb)) as [Cb Eb].
    assert (-149 <= e)%Z by (unfold fexp32 in Ca; lia).
    assert (-149 <= f)%Z by (unfold fexp32 in Cb; lia).
    unfold F32.sub, SFsub. cbv zeta.
    rewrite <- (aligned s m e (Z.min e f)), <- (aligned t n f (Z.min e f)) by lia.
    unfold Rminus. rewrite Ropp_mult_distr_l, <- Rmult_plus_distr_r.
    rewrite <- opp_IZR, <- plus_IZR.
    apply binary_normalize_rounds. lia.
Qed.

Local Open Scope Z_scope.

(** *** Division *)

Lemma new_location_ok (m2 q r : Z) :
  0 < m2 -> 0 <= r < m2 ->
  loc_ok q (new_location m2 r) (IZR q + IZR r / IZR m2).
Proof.
  intros Hm Hr.
  assert (0 < IZR m2)%R as Hm' by (apply IZR_lt; lia).
  assert (forall a b : Z, (a < b)%Z -> (IZR a / IZR m2 < IZR b / IZR m2)%R) as Hlt.
  { intros a b Hab. apply IZR_lt in Hab. unfold Rdiv.
    apply Rmult_lt_compat_r; [apply Rinv_0_lt_compat; exact Hm' | exact Hab]. }
  assert (IZR m2 / IZR m2 = 1)%R as Hone by (field; lra).
  assert (forall a : Z, (IZR (2 * a) / IZR m2 = 2 * (IZR a / IZR m2))%R) as Htwo.
  { intros a. rewrite mult_IZR. field. lra. }
  pose proof (Hlt r m2 ltac:(lia)) as H1. rewrite Hone in H1.
  unfold new_location.
  destruct (Z.even m2) eqn:Hev.
  - unfold new_location_even.
    destruct (Z.eqb_spec r 0) as [Hz | Hnz].
    + subst r. simpl. unfold Rdiv. rewrite Rmult_0_l. ring.
    + pose proof (Hlt 0 r ltac:(lia)) as H0. unfold Rdiv at 1 in H0.
      rewrite Rmult_0_l in H0.
      destruct (Z.compare_spec (2 * r) m2) as [He | Hl | Hg]; simpl.
      * assert (2 * (IZR r / IZR m2) = 1)%R by (rewrite <- Htwo, He; exact Hone).
        lra.
      * apply Hlt in Hl. rewrite Htwo, Hone in Hl. lra.
      * apply Hlt in Hg. rewrite Htwo, Hone in Hg. lra.
  - unfold new_location_odd.
    destruct (Z.eqb_spec r 0) as [Hz | Hnz].
    + subst r. simpl. unfold Rdiv. rewrite Rmult_0_l. ring.
    + pose proof (Hlt 0 r ltac:(lia)) as H0. unfold Rdiv at 1 in H0.
      rewrite Rmult_0_l in H0.
      assert (2 * r <> m2) as Hodd.
      { intros E. rewrite <- E, Z.even_mul in Hev. discriminate. }
      destruct (Z.compare_spec (2 * r + 1) m2) as [He | Hl | Hg]; simpl.
      * assert (2 * r < m2) as Hl by lia.
        apply Hlt in Hl. rewrite Htwo, Hone in Hl. lra.
      * assert (2 * r < m2) as Hl' by lia.
        apply Hlt in Hl'. rewrite Htwo, Hone in Hl'. lra.
      * assert (m2 < 2 * r) as Hg' by lia.
        apply Hlt in Hg'. rewrite Htwo, Hone in Hg'. lra.
Qed.

Lemma div_digits (m1 m2 s : Z) :
  0 < m1 -> 0 < m2 -> 0 <= s ->
  24 + Zdigits2 m2 - Zdigits2 m1 <= s ->
  24 <= Zdigits2 (m1 * 2 ^ s / m2).
Proof.
  intros H1 H2 Hs Hd.
  destruct (Zdigits2_spec m1 H1) as [[A1 A2] A3].
  destruct (Zdigits2_spec m2 H2) as [[B1 B2] B3].
  assert (2 ^ 23 * m2 <= m1 * 2 ^ s) as Hbig.
  { apply Z.le_trans with (2 ^ 23 * 2 ^ Zdigits2 m2); [nia |].
    rewrite <- Z.pow_add_r by lia.
    apply Z.le_trans with (2 ^ (Zdigits2 m1 - 1) * 2 ^ s).
    - rewrite <- Z.pow_add_r by lia. apply Z.pow_le_mono_r; lia.
    - assert (0 < 2 ^ s) by (apply Z.pow_pos_nonneg; lia). nia. }
  assert (2 ^ 23 <= m1 * 2 ^ s / m2) as Hq.
  { apply Z.div_le_lower_bound; lia. }
  destruct (Zdigits2_spec (m1 * 2 ^ s / m2) ltac:(lia)) as [[C1 C2] C3].
  destruct (Z_le_gt_dec 24 (Zdigits2 (m1 * 2 ^ s / m2))); [assumption |].
  assert (2 ^ Zdigits2 (m1 * 2 ^ s / m2) <= 2 ^ 23) by (apply Z.pow_le_mono_r; lia).
  lia.
Qed.

Local Open Scope R_scope.

Lemma div_rounded (s t : bool) (m n : positive) (e f : Z) :
  valid (S754_finite s m e) = true -> valid (S754_finite t n f) = true ->
  rounded eta (F32.div (S754_finite s m e) (S754_finite t n f)) (xorb s t)
          (IZR (Z.pos m) * bpow e / (IZR (Z.pos n) * bpow f)).
Proof.
  intros Va Vb.
  destruct (valid_finite _ _ _ Va) as [Ca Ea].
  destruct (valid_finite _ _ _ Vb) as [Cb Eb].
  unfold F32.div, SFdiv, SFdiv_core_binary. rewrite fexp32_eq. cbv zeta.
  set (d1 := Zdigits2 (Z.pos m)). set (d2 := Zdigits2 (Z.pos n)).
  set (e' := Z.min (fexp32 (d1 + e - (d2 + f))) (e - f)).
  set (sh := (e - f - e')%Z).
  assert (0 <= sh)%Z as Hsh by (unfold sh, e'; lia).
  set (m' := match sh with
             | 0%Z => Z.pos m
             | Z.pos _ => Z.shiftl (Z.pos m) sh
             | Z.neg _ => 0%Z
             end).
  assert (m' = (Z.pos m * 2 ^ sh)%Z) as Hm'.
  { unfold m'. destruct sh as [| p | p] eqn:E.
    - simpl. lia.
    - rewrite Z.shiftl_mul_pow2 by lia. reflexivity.
    - lia. }
  clearbody m'.
  pose proof (Z_div_mod m' (Z.pos n) ltac:(lia)) as Hdm.
  destruct (Z.div_eucl m' (Z.pos n)) as [q r] eqn:Hqr.
  destruct Hdm as [Hdm Hr].
  assert (q = m' / Z.pos n)%Z as Hq.
  { apply (Z.div_unique m' (Z.pos n) q r); [left; lia | lia]. }
  assert (0 <= q)%Z as Hq0.
  { rewrite Hq. apply Z.div_pos; lia. }
  assert (0 < IZR (Z.pos n)) as Hn by (apply IZR_lt; lia).
  pose proof (bpow_pos f) as Hbf. pose proof (bpow_pos e') as Hbe'.
  replace (IZR (Z.pos m) * bpow e / (IZR (Z.pos n) * bpow f))
    with ((IZR q + IZR r / IZR (Z.pos n)) * bpow e').
  2:{ replace (IZR q + IZR r / IZR (Z.pos n)) with (IZR m' / IZR (Z.pos n)).
      2:{ rewrite Hdm, plus_IZR, mult_IZR. field. lra. }
      rewrite Hm', mult_IZR, <- bpow_IZR by lia.
      replace (bpow e) with (bpow (sh + e' + f)) by (f_equal; unfold sh; lia).
      rewrite !bpow_add. field. lra. }
  apply round_aux_rounded.
  - exact Hq0.
  - apply new_location_ok; lia.
  - destruct (Z_le_gt_dec e' (-149)) as [Hle | Hgt].
    + unfold fexp32. lia.
    + assert (24 <= Zdigits2 q)%Z.
      { rewrite Hq, Hm'. apply div_digits; try lia.
        fold d1 d2. unfold sh. unfold e', fexp32 in *. lia. }
      unfold fexp32. lia.
  - intros _. left. lra.
Qed.

(** The quotient of two finite values, the second not zero, is the exact
    quotient, rounded. *)
Lemma div_rounds (a b : float) :
  fin a -> fin b -> F2R b <> 0 -> rounds eta (F32.div a b) (F2R a / F2R b).
Proof.
  intros Ha Hb Hnz.
  assert (0 <= eta) as Heta by (apply Rlt_le, bpow_pos).
  destruct b as [t | t | | t n f];
    try (destruct Hb as [_ Hb]; discriminate); [exfalso; apply Hnz; reflexivity |].
  destruct a as [s | s | | s m e];
    try (destruct Ha as [_ Ha]; discriminate).
  - exists (xorb s t). change (F2R (S754_zero s)) with 0.
    unfold Rdiv. rewrite Rmult_0_l, Rabs_R0.
    split; [| split; intros; lra].
    split; [reflexivity |]. split; [reflexivity | exact Heta].
  - exists (xorb s t).
    pose proof (bpow_pos e) as Hbe. pose proof (bpow_pos f) as Hbf.
    assert (0 < IZR (Z.pos m)) as Hm by (apply IZR_lt; lia).
    assert (0 < IZR (Z.pos n)) as Hn by (apply IZR_lt; lia).
    assert (0 < IZR (Z.pos m) * bpow e) as Hx by (apply Rmult_lt_0_compat; assumption).
    assert (0 < IZR (Z.pos n) * bpow f) as Hy by (apply Rmult_lt_0_compat; assumption).
    assert (0 < IZR (Z.pos m) * bpow e / (IZR (Z.pos n) * bpow f)) as Hxy
      by (apply Rdiv_lt_0_compat; assumption).
    assert (F2R (S754_finite s m e) / F2R (S754_finite t n f)
            = (if xorb s t then -1 else 1)
              * (IZR (Z.pos m) * bpow e / (IZR (Z.pos n) * bpow f))) as HV.
    { simpl F2R. destruct s, t; simpl xorb; cbv iota; field; lra. }
    split.
    + rewrite HV, Rabs_mult, (Rabs_pos_eq (_ / _)) by lra.
      replace (Rabs (if xorb s t then -1 else 1)) with 1.
      2:{ destruct (xorb s t); [rewrite Rabs_left | rewrite Rabs_pos_eq]; lra. }
      rewrite Rmult_1_l. apply div_rounded; [apply Ha | apply Hb].
    + rewrite HV. destruct (xorb s t); split; intros; try reflexivity; lra.
Qed.

(** *** Square root *)

Local Open Scope Z_scope.

Lemma sqrt_digits (m : Z) :
  0 < m -> Zdigits2 (Z.sqrt m) = Z.div2 (Zdigits2 m + 1).
Proof.
  intros Hm.
  destruct (Zdigits2_spec m Hm) as [[A1 A2] A3].
  pose proof (Z.sqrt_spec m ltac:(lia)) as Hs. cbv zeta in Hs.
  set (q := Z.sqrt m) in *. set (k := Zdigits2 m) in *.
  assert (0 <= q) by apply Z.sqrt_nonneg.
  set (j := Z.div2 (k + 1)).
  assert (k = 2 * j \/ k = 2 * j - 1) as Hk.
  { unfold j. rewrite Z.div2_div.
    pose proof (Z.div_mod (k + 1) 2 ltac:(lia)).
    pose proof (Z.mod_pos_bound (k + 1) 2 ltac:(lia)). lia. }
  assert (0 < j) by lia.
  apply Zdigits2_unique; [lia |].
  assert (2 ^ (2 * j) = 2 ^ j * 2 ^ j) as E1
    by (rewrite <- Z.pow_add_r by lia; f_equal; lia).
  assert (2 ^ (2 * j - 2) = 2 ^ (j - 1) * 2 ^ (j - 1)) as E2
    by (rewrite <- Z.pow_add_r by lia; f_equal; lia).
  assert (0 < 2 ^ j) by (apply Z.pow_pos_nonneg; lia).
  assert (0 < 2 ^ (j - 1)) by (apply Z.pow_pos_nonneg; lia).
  assert (m < 2 ^ (2 * j)).
  { apply Z.lt_le_trans with (2 ^ k); [lia |]. apply Z.pow_le_mono_r; lia. }
  assert (2 ^ (2 * j - 2) <= m).
  { apply Z.le_trans with (2 ^ (k - 1)); [| lia]. apply Z.pow_le_mono_r; lia. }
  split.
  - destruct (Z_le_gt_dec (2 ^ (j - 1)) q); [assumption |].
    assert (Z.succ q <= 2 ^ (j - 1)) by lia.
    assert (Z.succ q * Z.succ q <= 2 ^ (j - 1) * 2 ^ (j - 1)) by nia.
    lia.
  - destruct (Z_lt_ge_dec q (2 ^ j)); [assumption |].
    assert (2 ^ j * 2 ^ j <= q * q) by nia. lia.
Qed.

Local Open Scope R_scope.

Lemma sqrt_loc (m' : Z) :
  (0 <= m')%Z ->
  loc_ok (fst (Z.sqrtrem m'))
         (if (snd (Z.sqrtrem m') =? 0)%Z then loc_Exact
          else loc_Inexact (if (snd (Z.sqrtrem m') <=? fst (Z.sqrtrem m'))%Z
                            then Lt else Gt))
         (sqrt (IZR m')).
Proof.
  intros Hm. pose proof (Z.sqrtrem_spec m' Hm) as Hs.
  pose proof (Z.sqrtrem_sqrt m') as Hq.
  destruct (Z.sqrtrem m') as [q r]. simpl in *. destruct Hs as [Hs Hr].
  assert (0 <= q)%Z as Hq0 by (rewrite Hq; apply Z.sqrt_nonneg).
  assert (0 <= IZR q) as Hq0' by (apply IZR_le; lia).
  assert (IZR m' = IZR q * IZR q + IZR r) as Hs'
    by (rewrite Hs, plus_IZR, mult_IZR; reflexivity).
  assert (0 <= IZR m') as Hm' by (apply IZR_le; lia).
  pose proof (sqrt_pos (IZR m')) as Hp.
  pose proof (sqrt_sqrt (IZR m') Hm') as Hsq.
  set (x := sqrt (IZR m')) in *.
  destruct (Z.eqb_spec r 0) as [Hz | Hnz]; simpl.
  - subst r. rewrite Rplus_0_r in Hs'. unfold x. rewrite Hs'.
    apply sqrt_square. exact Hq0'.
  - assert (1 <= IZR r) as Hr1 by (apply IZR_le; lia).
    assert (IZR r <= 2 * IZR q) as Hr2.
    { rewrite <- mult_IZR. apply IZR_le. lia. }
    destruct (Z.leb_spec r q) as [Hle | Hgt]; simpl.
    + apply IZR_le in Hle. split; nra.
    + assert (IZR q + 1 <= IZR r) as Hgt'.
      { rewrite <- plus_IZR. apply IZR_le. lia. }
      split; nra.
Qed.

Lemma sqrt_rounded (m : positive) (e : Z) :
  valid (S754_finite false m e) = true ->
  rounded 0 (F32.sqrtf (S754_finite false m e)) false
          (sqrt (IZR (Z.pos m) * bpow e)).
Proof.
  intros Va.
  destruct (valid_finite _ _ _ Va) as [Ca Ea].
  assert (-149 <= e)%Z as He by (unfold fexp32 in Ca; lia).
  unfold F32.sqrtf, SFsqrt, SFsqrt_core_binary. rewrite fexp32_eq. cbv zeta.
  set (d := Zdigits2 (Z.pos m)).
  assert (0 < d)%Z as Hd by (apply (Zdigits2_spec (Z.pos m)); lia).
  set (e' := Z.min (fexp32 (Z.div2 (d + e + 1))) (Z.div2 e)).
  set (sh := (e - 2 * e')%Z).
  assert (Z.div2 e * 2 <= e)%Z as Hdiv2.
  { rewrite Z.div2_div. pose proof (Z.div_mod e 2 ltac:(lia)).
    pose proof (Z.mod_pos_bound e 2 ltac:(lia)). lia. }
  assert (0 <= sh)%Z as Hsh by (unfold sh, e'; lia).
  set (m' := match sh with
             | 0%Z => Z.pos m
             | Z.pos _ => Z.shiftl (Z.pos m) sh
             | Z.neg _ => 0%Z
             end).
  assert (m' = (Z.pos m * 2 ^ sh)%Z) as Hm'.
  { unfold m'. destruct sh as [| p | p] eqn:E.
    - simpl. lia.
    - rewrite Z.shiftl_mul_pow2 by lia. reflexivity.
    - lia. }
  clearbody m'.
  assert (0 < m')%Z as Hm0.
  { rewrite Hm'. assert (0 < 2 ^ sh)%Z by (apply Z.pow_pos_nonneg; lia). nia. }
  pose proof (sqrt_loc m' ltac:(lia)) as Hloc.
  pose proof (Z.sqrtrem_sqrt m') as Hq.
  destruct (Z.sqrtrem m') as [q r]. simpl in Hloc, Hq.
  pose proof (bpow_pos e') as Hbe'.
  replace (sqrt (IZR (Z.pos m) * bpow e)) with (sqrt (IZR m') * bpow e').
  2:{ rewrite <- (sqrt_square (bpow e')) at 1 by lra.
      rewrite <- sqrt_mult_alt by (apply IZR_le; lia).
      f_equal. rewrite Hm', mult_IZR, <- bpow_IZR by lia.
      replace (bpow e) with (bpow (sh + e' + e')) by (f_equal; unfold sh; lia).
      rewrite !bpow_add. ring. }
  assert (Zdigits2 q + e' = Z.div2 (d + e + 1))%Z as Hdig.
  { rewrite Hq, sqrt_digits by lia.
    rewrite Hm', Zdigits2_shift by lia. fold d.
    replace (d + sh + 1)%Z with (d + e + 1 - 2 * e')%Z by (unfold sh; lia).
    rewrite !Z.div2_div.
    replace (d + e + 1 - 2 * e')%Z with (d + e + 1 + (- e') * 2)%Z by lia.
    rewrite Z.div_add by lia. lia. }
  apply round_aux_rounded.
  - rewrite Hq. apply Z.sqrt_nonneg.
  - exact Hloc.
  - rewrite Hdig. unfold e'. lia.
  - rewrite Hdig. intros Hsub. exfalso.
    assert (-148 <= d + e + 1)%Z by lia.
    assert (-74 <= Z.div2 (d + e + 1))%Z.
    { rewrite Z.div2_div. apply Z.div_le_lower_bound; lia. }
    unfold fexp32 in Hsub. lia.
Qed.

(** The square root of a finite value that is not negative is the exact
    square root, rounded; it is never subnormal. *)
Lemma sqrt_rounds (a : float) :
  fin a -> 0 <= F2R a -> rounds 0 (F32.sqrtf a) (sqrt (F2R a)).
Proof.
  intros Ha Hpos.
  destruct a as [s | s | | s m e];
    try (destruct Ha as [_ Ha]; discriminate).
  - exists s. simpl F2R. rewrite sqrt_0, Rabs_R0.
    split; [| split; intros; lra].
    split; [reflexivity |]. split; [reflexivity | lra].
  - pose proof (bpow_pos e) as Hbe.
    assert (0 < IZR (Z.pos m)) as Hm by (apply IZR_lt; lia).
    assert (0 < IZR (Z.pos m) * bpow e) as Hx by (apply Rmult_lt_0_compat; assumption).
    destruct s; [simpl in Hpos; lra |].
    exists false. split; [| split; intros; [reflexivity |]].
    + rewrite Rabs_pos_eq by apply sqrt_pos.
      replace (F2R (S754_finite false m e)) with (IZR (Z.pos m) * bpow e)
        by (simpl; ring).
      apply sqrt_rounded. apply Ha.
    + pose proof (sqrt_pos (F2R (S754_finite false m e))). lra.
Qed.

Local Open Scope Z_scope.

(** *** Comparison *)

Local Open Scope R_scope.

Lemma canonical_lt (m1 m2 : positive) (e1 e2 : Z) (s t : bool) :
  valid (S754_finite s m1 e1) = true -> valid (S754_finite t m2 e2) = true ->
  (e1 < e2)%Z ->
  IZR (Z.pos m1) * bpow e1 < IZR (Z.pos m2) * bpow e2.
Proof.
  intros V1 V2 Hlt.
  destruct (valid_finite _ _ _ V1) as [C1 E1].
  destruct (valid_finite _ _ _ V2) as [C2 E2].
  destruct (Zdigits2_spec (Z.pos m1) ltac:(lia)) as [[A1 A2] A3].
  destruct (Zdigits2_spec (Z.pos m2) ltac:(lia)) as [[B1 B2] B3].
  assert (Zdigits2 (Z.pos m2) = 24)%Z as D2 by (unfold fexp32 in *; lia).
  assert (Zdigits2 (Z.pos m1) <= 24)%Z as D1 by (unfold fexp32 in *; lia).
  rewrite D2 in B1.
  assert (Z.pos m1 < 2 ^ 24)%Z as M1.
  { eapply Z.lt_le_trans; [exact A2 |]. apply Z.pow_le_mono_r; lia. }
  apply IZR_lt in M1. apply IZR_le in B1.
  change (IZR (2 ^ 24)) with 16777216 in M1.
  change (IZR (2 ^ (24 - 1))) with 8388608 in B1.
  assert (bpow (e1 + 1) <= bpow e2) as Hb by (apply bpow_le; lia).
  rewrite bpow_succ in Hb.
  pose proof (bpow_pos e1). pose proof (bpow_pos e2).
  apply Rlt_le_trans with (16777216 * bpow e1); [nra |].
  apply Rle_trans with (8388608 * bpow e2); nra.
Qed.

Lemma compare_cont_spec (m1 m2 : positive) :
  match Pos.compare_cont Eq m1 m2 with
  | Lt => IZR (Z.pos m1) < IZR (Z.pos m2)
  | Eq => m1 = m2
  | Gt => IZR (Z.pos m2) < IZR (Z.pos m1)
  end.
Proof.
  change (Pos.compare_cont Eq m1 m2) with (Pos.compare m1 m2).
  destruct (Pos.compare_spec m1 m2) as [H | H | H].
  - exact H.
  - apply IZR_lt. lia.
  - apply IZR_lt. lia.
Qed.

Lemma abs_compare_spec (m1 m2 : positive) (e1 e2 : Z) (s t : bool) :
  valid (S754_finite s m1 e1) = true -> valid (S754_finite t m2 e2) = true ->
  match (match Z.compare e1 e2 with
         | Lt => Lt | Gt => Gt | Eq => Pos.compare_cont Eq m1 m2 end) with
  | Lt => IZR (Z.pos m1) * bpow e1 < IZR (Z.pos m2) * bpow e2
  | Eq => IZR (Z.pos m1) * bpow e1 = IZR (Z.pos m2) * bpow e2
  | Gt => IZR (Z.pos m2) * bpow e2 < IZR (Z.pos m1) * bpow e1
  end.
Proof.
  intros V1 V2.
  destruct (Z.compare_spec e1 e2) as [H | H | H].
  - subst e2. pose proof (compare_cont_spec m1 m2) as Hc.
    pose proof (bpow_pos e1).
    destruct (Pos.compare_cont Eq m1 m2).
    + subst. reflexivity.
    + nra.
    + nra.
  - apply (canonical_lt m1 m2 e1 e2 s t); assumption.
  - apply (canonical_lt m2 m1 e2 e1 t s); assumption.
Qed.

(** On finite values [SFcompare] is the order of the real numbers. *)
Lemma compare_spec (a b : float) :
  fin a -> fin b ->
  match SFcompare a b with
  | Some Lt => F2R a < F2R b
  | Some Eq => F2R a = F2R b
  | Some Gt => F2R b < F2R a
  | None => False
  end.
Proof.
  intros [Va Fa] [Vb Fb].
  destruct a as [s | s | | s m e], b as [t | t | | t n f]; try discriminate.
  - reflexivity.
  - pose proof (bpow_pos f). assert (0 < IZR (Z.pos n)) by (apply IZR_lt; lia).
    assert (0 < IZR (Z.pos n) * bpow f) by (apply Rmult_lt_0_compat; assumption).
    simpl. destruct t; lra.
  - pose proof (bpow_pos e). assert (0 < IZR (Z.pos m)) by (apply IZR_lt; lia).
    assert (0 < IZR (Z.pos m) * bpow e) by (apply Rmult_lt_0_compat; assumption).
    simpl. destruct s; lra.
  - pose proof (bpow_pos e). assert (0 < IZR (Z.pos m)) by (apply IZR_lt; lia).
    assert (0 < IZR (Z.pos m) * bpow e) by (apply Rmult_lt_0_compat; assumption).
    pose proof (bpow_pos f). assert (0 < IZR (Z.pos n)) by (apply IZR_lt; lia).
    assert (0 < IZR (Z.pos n) * bpow f) by (apply Rmult_lt_0_compat; assumption).
    pose proof (abs_compare_spec m n e f s t Va Vb) as Hc.
    unfold SFcompare. unfold F2R.
    destruct s, t.
    + destruct (e ?= f)%Z; [destruct (Pos.compare_cont Eq m n) | |];
        simpl CompOpp; cbv iota; lra.
    + lra.
    + lra.
    + destruct (e ?= f)%Z; [destruct (Pos.compare_cont Eq m n) | |];
        cbv iota; lra.
Qed.

Lemma lt_spec (a b : float) :
  fin a -> fin b -> F32.lt a b = true <-> F2R a < F2R b.
Proof.
  intros Ha Hb. pose proof (compare_spec a b Ha Hb) as H.
  unfold F32.lt, SFltb.
  destruct (SFcompare a b) as [[| |] |]; split; intros; try discriminate;
    try reflexivity; try lra; contradiction.
Qed.

Lemma gt_spec (a b : float) :
  fin a -> fin b -> F32.gt a b = true <-> F2R b < F2R a.
Proof. intros Ha Hb. unfold F32.gt. apply (lt_spec b a Hb Ha). Qed.

Lemma le_spec (a b : float) :
  fin a -> fin b -> F32.le a b = true <-> F2R a <= F2R b.
Proof.
  intros Ha Hb. pose proof (compare_spec a b Ha Hb) as H.
  unfold F32.le, SFleb.
  destruct (SFcompare a b) as [[| |] |]; split; intros; try discriminate;
    try reflexivity; try lra; contradiction.
Qed.

Lemma lt_false_spec (a b : float) :
  fin a -> fin b -> F32.lt a b = false <-> F2R b <= F2R a.
Proof.
  intros Ha Hb. pose proof (lt_spec a b Ha Hb) as H.
  destruct (F32.lt a b); split; intros; try discriminate; try reflexivity.
  - assert (F2R a < F2R b) by (apply H; reflexivity). lra.
  - destruct (Rlt_dec (F2R a) (F2R b)) as [Hlt | Hge]; [| lra].
    apply H in Hlt. discriminate.
Qed.

Lemma gt_false_spec (a b : float) :
  fin a -> fin b -> F32.gt a b = false <-> F2R a <= F2R b.
Proof. intros Ha Hb. unfold F32.gt. apply (lt_false_spec b a Hb Ha). Qed.

(** *** The smallest positive value *)

Lemma fin_pos_min (f : float) :
  fin f -> 0 < F2R f -> bpow (-149) <= F2R f.
Proof.
  intros [Hv Hf] Hpos.
  destruct f as [s | s | | s m e]; try discriminate; [simpl in Hpos; lra |].
  destruct (valid_finite _ _ _ Hv) as [C E].
  assert (-149 <= e)%Z by (unfold fexp32 in C; lia).
  pose proof (bpow_le (-149) e ltac:(lia)).
  pose proof (bpow_pos e). pose proof (bpow_pos (-149)).
  assert (1 <= IZR (Z.pos m)) by (apply IZR_le; lia).
  simpl in *. destruct s; nra.
Qed.

(** *** Finite results *)

(** A rounding of a real of magnitude up to [2^127] is finite, with the
    standard error bound. *)
Lemma rounds_fin eta0 r V :
  rounds eta0 r V -> 0 <= eta0 <= eta -> Rabs V <= bpow 127 ->
  fin r /\
  Rabs (F2R r - V) <= u * Rabs V + eta0 /\
  (bpow (-125) <= Rabs V -> Rabs (F2R r - V) <= u * Rabs V) /\
  (0 <= V -> 0 <= F2R r) /\ (V <= 0 -> F2R r <= 0).
Proof.
  intros H He HV. pose proof (rounds_finite _ _ _ H HV) as Hf.
  split; [exact Hf |]. apply rounds_err; [exact H | exact He | apply Hf].
Qed.

Lemma eta_range : 0 <= eta <= eta.
Proof. pose proof (bpow_pos (-150)). unfold eta. lra. Qed.

Lemma zero_range : 0 <= 0 <= eta.
Proof. pose proof (bpow_pos (-150)). unfold eta. lra. Qed.

Local Open Scope Z_scope.

(** ** The length of a vector *)

Local Open Scope R_scope.

Lemma eta_pos : 0 < eta.
Proof. apply bpow_pos. Qed.

Lemma fin_lt_max (f : float) : fin f -> Rabs (F2R f) < bpow 128.
Proof.
  intros [Hv Hf].
  destruct f as [s | s | | s m e]; try discriminate.
  - simpl. rewrite Rabs_R0. apply bpow_pos.
  - rewrite F2R_abs_finite.
    destruct (valid_finite _ _ _ Hv) as [C E].
    destruct (Zdigits2_spec (Z.pos m) ltac:(lia)) as [[A1 A2] A3].
    assert (Zdigits2 (Z.pos m) <= 24)%Z by (unfold fexp32 in C; lia).
    assert (Z.pos m < 2 ^ 24)%Z as M.
    { eapply Z.lt_le_trans; [exact A2 |]. apply Z.pow_le_mono_r; lia. }
    apply IZR_lt in M. rewrite <- bpow_IZR in M by lia.
    pose proof (bpow_le e 104 E). pose proof (bpow_pos e).
    assert (0 < IZR (Z.pos m)) by (apply IZR_lt; lia).
    replace 128%Z with (24 + 104)%Z by lia. rewrite bpow_add.
    pose proof (bpow_pos 24). nra.
Qed.

Lemma fin_zero (s : bool) : fin (S754_zero s).
Proof. split; reflexivity. Qed.

Lemma square_pos (a : R) : 0 <= a * a.
Proof. nra. Qed.

(** One square. *)
Lemma sq_cases (a : float) :
  fin a ->
  (F32.mul a a = pinf /\ bpow 127 < F2R a * F2R a) \/
  (fin (F32.mul a a) /\ 0 <= F2R (F32.mul a a) /\
   Rabs (F2R (F32.mul a a) - F2R a * F2R a) <= u * (F2R a * F2R a) + eta).
Proof.
  intros Ha. pose proof (mul_rounds a a Ha Ha) as H.
  pose proof (square_pos (F2R a)) as Hp.
  destruct (F32.is_finite (F32.mul a a)) eqn:Hf.
  - right. split; [split; [apply (rounds_valid _ _ _ H) | exact Hf] |].
    destruct (rounds_err _ _ _ H eta_range Hf) as [E [_ [P _]]].
    rewrite (Rabs_pos_eq (F2R a * F2R a)) in E by exact Hp.
    split; [apply P, Hp | exact E].
  - left. destruct (rounds_inf _ _ _ H Hf) as [Hbig ->].
    rewrite Rabs_pos_eq in Hbig by exact Hp.
    split; [| exact Hbig].
    destruct (Rlt_dec (F2R a * F2R a) 0); [lra | reflexivity].
Qed.

Lemma add_pinf_l (b : float) :
  b = pinf \/ fin b -> F32.add pinf b = pinf.
Proof.
  intros [-> | [_ Hf]]; [reflexivity |].
  destruct b; try discriminate; reflexivity.
Qed.

Lemma add_pinf_r (a : float) :
  fin a -> F32.add a pinf = pinf.
Proof. intros [_ Hf]. destruct a; try discriminate; reflexivity. Qed.

Lemma u_pos : 0 < u.
Proof. apply bpow_pos. Qed.

Lemma u_small : u <= / 1000000.
Proof. rewrite u_val. lra. Qed.

Lemma eta_small : 4 * eta <= bpow 126.
Proof.
  replace 126%Z with (124 + 1 + 1)%Z by lia. rewrite !bpow_succ.
  assert (eta <= bpow 124) by (apply bpow_le; lia). lra.
Qed.

Lemma bpow_127 : bpow 127 = 2 * bpow 126.
Proof. replace 127%Z with (126 + 1)%Z by lia. apply bpow_succ. Qed.

Lemma bpow_128 : bpow 128 = 4 * bpow 126.
Proof.
  replace 128%Z with (126 + 1 + 1)%Z by lia. rewrite !bpow_succ. ring.
Qed.

(** The sum of the two squares. *)
Lemma sumsq_cases (v : Vector2) :
  finv v ->
  let s := F32.add (F32.mul (x v) (x v)) (F32.mul (y v) (y v)) in
  (s = pinf /\ bpow 126 < norm2 v) \/
  (fin s /\ 0 <= F2R s /\
   (1 - 2 * u) * norm2 v - 2 * eta <= F2R s <= (1 + 3 * u) * norm2 v + 3 * eta).
Proof.
  intros [Hx Hy]. cbv zeta. unfold norm2.
  pose proof u_pos as Hu. pose proof u_small as Hu'. pose proof eta_pos as He.
  pose proof eta_small as He'. pose proof (bpow_pos 126) as H126.
  pose proof bpow_127 as E127.
  pose proof (square_pos (F2R (x v))) as Px.
  pose proof (square_pos (F2R (y v))) as Py.
  set (a2 := F2R (x v) * F2R (x v)) in *.
  set (b2 := F2R (y v) * F2R (y v)) in *.
  destruct (sq_cases (x v) Hx) as [[Ex Bx] | [Fx [Px' Ex]]].
  - left. rewrite Ex. split.
    + apply add_pinf_l. destruct (sq_cases (y v) Hy) as [[Ey _] | [Fy _]];
        [left; exact Ey | right; exact Fy].
    + fold a2 in Bx. lra.
  - destruct (sq_cases (y v) Hy) as [[Ey By] | [Fy [Py' Ey]]].
    + left. rewrite Ey. split; [apply add_pinf_r, Fx |]. fold b2 in By. lra.
    + fold a2 in Ex. fold b2 in Ey.
      apply Rabs_bound in Ex, Ey.
      set (A := F2R (F32.mul (x v) (x v))) in *.
      set (B := F2R (F32.mul (y v) (y v))) in *.
      pose proof (add_rounds _ _ Fx Fy) as H. fold A B in H.
      destruct (F32.is_finite (F32.add (F32.mul (x v) (x v)) (F32.mul (y v) (y v))))
        eqn:Hf.
      * right. split; [split; [apply (rounds_valid _ _ _ H) | exact Hf] |].
        destruct (rounds_err _ _ _ H zero_range Hf) as [E [_ [P _]]].
        rewrite (Rabs_pos_eq (A + B)) in E by lra. apply Rabs_bound in E.
        split; [apply P; lra |].
        rewrite u_val in *. split; lra.
      * left. destruct (rounds_inf _ _ _ H Hf) as [Hbig ->].
        rewrite Rabs_pos_eq in Hbig by lra.
        split; [destruct (Rlt_dec (A + B) 0); [lra | reflexivity] |].
        rewrite u_val in *. lra.
Qed.

Lemma sqrt_lower (r S : R) : 0 <= r -> r * r <= S -> r <= sqrt S.
Proof.
  intros Hr H. rewrite <- (sqrt_square r Hr). apply sqrt_le_1_alt. exact H.
Qed.

Lemma sqrt_upper (r S : R) : 0 <= r -> 0 <= S -> S <= r * r -> sqrt S <= r.
Proof.
  intros Hr HS H. rewrite <- (sqrt_square r Hr). apply sqrt_le_1_alt. exact H.
Qed.

Lemma bpow_half (e : Z) : bpow e * bpow e = bpow (2 * e).
Proof. rewrite <- bpow_add. f_equal. lia. Qed.

(** The computed length of a vector of finite components: infinite when the
    squares overflow, and otherwise within a few units in the last place of
    the exact norm. *)
Lemma Length_cases (v : Vector2) :
  finv v ->
  (Vector2Length v = pinf /\ bpow 126 < norm2 v) \/
  (fin (Vector2Length v) /\ 0 <= F2R (Vector2Length v) <= bpow 65 /\
   (0 < F2R (Vector2Length v) -> bpow (-75) <= F2R (Vector2Length v)) /\
   (1 - 4 * u) * norm2 v - 2 * eta
   <= F2R (Vector2Length v) * F2R (Vector2Length v)
   <= (1 + 6 * u) * norm2 v + 4 * eta).
Proof.
  intros Hv. unfold Vector2Length.
  pose proof u_pos as Hu. pose proof u_small as Hu'. pose proof eta_pos as He.
  destruct (sumsq_cases v Hv) as [[Es Bs] | [Fs [Ps Es]]]; cbv zeta in *.
  - left. rewrite Es. split; [reflexivity | exact Bs].
  - right.
    set (s := F32.add (F32.mul (x v) (x v)) (F32.mul (y v) (y v))) in *.
    pose proof (sqrt_rounds s Fs Ps) as H.
    pose proof (sqrt_pos (F2R s)) as Hr.
    pose proof (sqrt_sqrt (F2R s) Ps) as Hrr.
    pose proof (fin_lt_max s Fs) as Hmax. rewrite Rabs_pos_eq in Hmax by exact Ps.
    assert (sqrt (F2R s) <= bpow 64) as Hr64.
    { apply sqrt_upper; [apply Rlt_le, bpow_pos | exact Ps |].
      rewrite bpow_half. change (2 * 64)%Z with 128%Z. lra. }
    assert (bpow 64 <= bpow 127) as H64 by (apply bpow_le; lia).
    destruct (rounds_fin _ _ _ H zero_range) as [Fl [E [_ [P _]]]].
    { rewrite Rabs_pos_eq by exact Hr. lra. }
    rewrite (Rabs_pos_eq (sqrt (F2R s))) in E by exact Hr. apply Rabs_bound in E.
    specialize (P Hr).
    set (r := sqrt (F2R s)) in *. set (l := F2R (F32.sqrtf s)) in *.
    split; [exact Fl |]. split; [| split].
    + split; [exact P |].
      replace 65%Z with (64 + 1)%Z by lia. rewrite bpow_succ.
      pose proof (bpow_pos 64). rewrite u_val in *. lra.
    + intros Hpos.
      assert (0 < F2R s) as Hs.
      { destruct (Rle_lt_dec (F2R s) 0) as [Hle | ?]; [| assumption].
        assert (F2R s = 0) as Hz by lra.
        unfold r in *. rewrite Hz, sqrt_0 in *. lra. }
      pose proof (fin_pos_min s Fs Hs) as Hmin.
      assert (7 / 5 * bpow (-75) <= r) as Hr75.
      { apply sqrt_lower.
        - pose proof (bpow_pos (-75)). lra.
        - replace (7 / 5 * bpow (-75) * (7 / 5 * bpow (-75)))
            with (49 / 25 * (bpow (-75) * bpow (-75))) by field.
          rewrite bpow_half. change (2 * -75)%Z with (-150)%Z.
          replace (-149)%Z with (-150 + 1)%Z in Hmin by lia.
          rewrite bpow_succ in Hmin. pose proof (bpow_pos (-150)). lra. }
      pose proof (bpow_pos (-75)). rewrite u_val in *. lra.
    + rewrite u_val in *.
      assert (l * l <= (1 + / 16777216) * (1 + / 16777216) * F2R s) by nra.
      assert ((1 - / 16777216) * (1 - / 16777216) * F2R s <= l * l) by nra.
      pose proof (square_pos (F2R (x v))). pose proof (square_pos (F2R (y v))).
      unfold norm2 in *.
      set (N := F2R (x v) * F2R (x v) + F2R (y v) * F2R (y v)) in *.
      assert (0 <= N) by (unfold N; lra).
      split; nra.
Qed.

(** *** Squares of approximations *)

Lemma Rabs_sq (a : R) : Rabs a * Rabs a = a * a.
Proof. unfold Rabs. destruct (Rcase_abs a); ring. Qed.

Lemma Rabs_diff (r P : R) : Rabs (Rabs r - Rabs P) <= Rabs (r - P).
Proof. apply Rabs_triang_inv2. Qed.

Lemma approx_sq (r P K e : R) :
  Rabs (r - P) <= / 16777216 * Rabs P + e -> 0 <= e <= 1 -> Rabs P <= K ->
  (1 - / 16777216) * (1 - / 16777216) * (P * P) - 2 * K * e <= r * r
  <= (1 + / 16777216) * (1 + / 16777216) * (P * P) + (3 * K + 1) * e.
Proof.
  intros H He HK.
  pose proof (Rabs_diff r P) as Hd.
  rewrite <- (Rabs_sq r), <- (Rabs_sq P).
  pose proof (Rabs_pos r) as Hr. pose proof (Rabs_pos P) as Hp.
  set (a := Rabs r) in *. set (p := Rabs P) in *.
  assert (Rabs (a - p) <= / 16777216 * p + e) as H' by lra.
  apply Rabs_bound in H'. clear H Hd.
  split.
  - destruct (Rle_lt_dec e ((1 - / 16777216) * p)) as [Hle | Hlt].
    + assert (0 <= (1 - / 16777216) * p - e <= a) as Hlow by lra.
      assert (((1 - / 16777216) * p - e) * ((1 - / 16777216) * p - e) <= a * a)
        by nra.
      nra.
    + assert (0 <= a * a) by nra.
      assert ((1 - / 16777216) * (1 - / 16777216) * (p * p)
              <= (1 - / 16777216) * p * e) by nra.
      nra.
  - assert (a <= (1 + / 16777216) * p + e) as Hup by lra.
    assert (a * a <= ((1 + / 16777216) * p + e) * ((1 + / 16777216) * p + e))
      by nra.
    nra.
Qed.

(** A product whose exact value is at most [K]. *)
Lemma mul_sq (a c : float) (K : R) :
  fin a -> fin c -> Rabs (F2R a * F2R c) <= K -> K <= bpow 126 ->
  fin (F32.mul a c) /\
  Rabs (F2R (F32.mul a c)) <= (1 + / 16777216) * K + eta /\
  (1 - / 16777216) * (1 - / 16777216) * (F2R a * F2R c * (F2R a * F2R c))
    - 2 * K * eta
  <= F2R (F32.mul a c) * F2R (F32.mul a c)
  <= (1 + / 16777216) * (1 + / 16777216) * (F2R a * F2R c * (F2R a * F2R c))
     + (3 * K + 1) * eta.
Proof.
  intros Ha Hc HK HK'.
  pose proof (mul_rounds a c Ha Hc) as H.
  pose proof (bpow_pos 126). pose proof bpow_127.
  destruct (rounds_fin _ _ _ H eta_range ltac:(lra)) as [Hf [E _]].
  rewrite u_val in E.
  split; [exact Hf |].
  assert (0 <= eta <= 1) as He.
  { pose proof eta_pos. assert (eta <= bpow 0) as Hb0 by (apply bpow_le; lia).
    rewrite bpow_0 in Hb0. lra. }
  split.
  - pose proof (Rabs_diff (F2R (F32.mul a c)) (F2R a * F2R c)) as Hd.
    apply Rabs_bound in Hd.
    pose proof (Rabs_pos (F2R a * F2R c)). 
    assert (/ 16777216 * Rabs (F2R a * F2R c) <= / 16777216 * K) by lra.
    lra.
  - apply approx_sq; assumption.
Qed.

Lemma bpow_neg_IZR (n : Z) : (0 <= n)%Z -> bpow (- n) = / IZR (2 ^ n).
Proof. intros Hn. rewrite bpow_opp, bpow_IZR by exact Hn. reflexivity. Qed.

Lemma F2R_one : F2R F32.one = 1.
Proof.
  unfold F32.one, F2R. change (-23)%Z with (- (23))%Z.
  rewrite bpow_neg_IZR by lia. change (IZR (2 ^ 23)) with 8388608.
  change (IZR (Z.pos 8388608)) with 8388608. field.
Qed.

Lemma fin_one : fin F32.one.
Proof. split; reflexivity. Qed.

Lemma bpow_inv (e : Z) : / bpow e = bpow (- e).
Proof. symmetry. apply bpow_opp. Qed.

Lemma inv_le (a b : R) : 0 < a -> a <= b -> / b <= / a.
Proof. intros Ha Hab. apply Rinv_le_contravar; assumption. Qed.

(** The reciprocal of a positive finite length. *)
Lemma inverse_length (L : float) :
  fin L -> bpow (-75) <= F2R L <= bpow 65 ->
  fin (F32.div F32.one L) /\
  (1 - / 16777216) <= F2R (F32.div F32.one L) * F2R L <= (1 + / 16777216) /\
  0 <= F2R (F32.div F32.one L).
Proof.
  intros HL [Hlo Hhi].
  pose proof (bpow_pos (-75)) as H75.
  assert (0 < F2R L) as Hpos by lra.
  assert (F2R L <> 0) as Hnz by lra.
  pose proof (div_rounds F32.one L fin_one HL Hnz) as H.
  rewrite F2R_one in H.
  assert (0 < / F2R L) as Hinv by (apply Rinv_0_lt_compat; exact Hpos).
  assert (1 / F2R L = / F2R L) as E1 by (field; exact Hnz).
  rewrite E1 in H.
  assert (/ F2R L <= bpow 75) as Hup.
  { replace 75%Z with (- (-75))%Z by lia. rewrite <- bpow_inv.
    apply inv_le; assumption. }
  assert (bpow (-65) <= / F2R L) as Hdn.
  { change (-65)%Z with (- (65))%Z. rewrite <- bpow_inv.
    apply inv_le; [exact Hpos | exact Hhi]. }
  assert (bpow 75 <= bpow 127) by (apply bpow_le; lia).
  assert (bpow (-125) <= bpow (-65)) by (apply bpow_le; lia).
  destruct (rounds_fin _ _ _ H eta_range) as [Hf [_ [E [P _]]]].
  { rewrite Rabs_pos_eq; lra. }
  rewrite (Rabs_pos_eq (/ F2R L)) in E by lra.
  specialize (E ltac:(lra)). specialize (P ltac:(lra)).
  rewrite u_val in E. apply Rabs_bound in E.
  split; [exact Hf |]. split; [| exact P].
  set (g := F2R (F32.div F32.one L)) in *. set (l := F2R L) in *.
  assert (/ l * l = 1) as Hone by (field; exact Hnz).
  split; nra.
Qed.

(** ** Normalised vectors *)

Lemma eta_tiny : eta <= / 1000000000000000000.
Proof.
  assert (eta <= bpow (- (60))) as H by (apply bpow_le; lia).
  rewrite bpow_neg_IZR in H by lia.
  change (IZR (2 ^ 60)) with 1152921504606846976 in H.
  assert (/ 1152921504606846976 <= / 1000000000000000000)
    by (apply inv_le; lra).
  lra.
Qed.

Lemma eta_rel (N : R) : bpow (-60) <= N -> 1024 * eta <= / 16777216 * N.
Proof.
  intros H.
  assert (1024 * eta = bpow (-140)) as E.
  { unfold eta. replace (-140)%Z with (10 + -150)%Z by lia.
    rewrite bpow_add, (bpow_IZR 10) by lia. reflexivity. }
  assert (/ 16777216 * bpow (-60) = bpow (-84)) as E'.
  { rewrite <- u_val. unfold u. rewrite <- bpow_add. reflexivity. }
  assert (bpow (-140) <= bpow (-84)) by (apply bpow_le; lia).
  lra.
Qed.

Lemma eta_sq : eta = bpow (-75) * bpow (-75).
Proof. rewrite bpow_half. reflexivity. Qed.

Lemma sq_le_reg (a b : R) : 0 <= b -> a * a <= b * b -> Rabs a <= b.
Proof.
  intros Hb H. rewrite <- (Rabs_sq a) in H. pose proof (Rabs_pos a).
  destruct (Rle_lt_dec (Rabs a) b); [assumption | nra].
Qed.

Lemma Normalize_inf (v : Vector2) :
  finv v -> Vector2Length v = pinf ->
  exists s t, Vector2Normalize v = mkVector2 (S754_zero s) (S754_zero t).
Proof.
  intros [[_ Hx] [_ Hy]] HL. unfold Vector2Normalize. cbv zeta.
  change (F32.sqrtf _) with (Vector2Length v). rewrite HL.
  change (F32.gt pinf F32.zero) with true. cbv iota.
  change (F32.div F32.one pinf) with (S754_zero false).
  destruct (x v) as [s | s | | s m e], (y v) as [t | t | | t n f];
    try discriminate; eexists; eexists; reflexivity.
Qed.

Lemma Normalize_not_pos (v : Vector2) :
  F32.gt (Vector2Length v) F32.zero = false -> Vector2Normalize v = Vector2Zero.
Proof.
  intros H. unfold Vector2Normalize. cbv zeta.
  change (F32.sqrtf _) with (Vector2Length v). rewrite H. reflexivity.
Qed.

Lemma F2R_zero : F2R F32.zero = 0.
Proof. reflexivity. Qed.

(** A vector of positive finite length: the components of the normalised
    vector stay below 3, and its squared norm is 1 within 14 units of
    relative error [u] when no square underflows. *)
Lemma Normalize_pos (v : Vector2) :
  finv v -> fin (Vector2Length v) ->
  F32.gt (Vector2Length v) F32.zero = true ->
  finv (Vector2Normalize v) /\
  Rabs (F2R (x (Vector2Normalize v))) <= 3 /\
  Rabs (F2R (y (Vector2Normalize v))) <= 3 /\
  (bpow (-60) <= norm2 v ->
   1 - 14 * / 16777216 <= norm2 (Vector2Normalize v) <= 1 + 14 * / 16777216).
Proof.
  intros Hv HL Hgt.
  destruct (Length_cases v Hv) as [[E _] | [_ [[L0 L65] [Lmin HLL]]]].
  { rewrite E in HL. destruct HL as [_ HL]. discriminate. }
  apply (gt_spec _ _ HL (fin_zero false)) in Hgt.
  change (F2R (S754_zero false)) with 0 in Hgt.
  specialize (Lmin Hgt).
  destruct (inverse_length _ HL (conj Lmin L65)) as [Fg [Hg Pg]].
  unfold Vector2Normalize. cbv zeta.
  change (F32.sqrtf _) with (Vector2Length v).
  assert (F32.gt (Vector2Length v) F32.zero = true) as ->
    by (apply (gt_spec _ _ HL (fin_zero false)); exact Hgt).
  cbv iota. unfold norm2 in *. cbn [x y].
  rewrite u_val in HLL.
  set (l := F2R (Vector2Length v)) in *.
  set (g := F2R (F32.div F32.one (Vector2Length v))) in *.
  set (a := F2R (x v)) in *. set (b := F2R (y v)) in *.
  pose proof (square_pos a) as Pa. pose proof (square_pos b) as Pb.
  pose proof eta_pos as He. pose proof eta_tiny as He'.
  assert (eta <= l * l) as Hel.
  { rewrite eta_sq. pose proof (bpow_pos (-75)). nra. }
  assert (a * a + b * b <= 4 * (l * l)) as HN by lra.
  assert (0 <= g * l) as Hgl by nra.
  assert (g * l * (g * l) <= 25 / 16) as Hgl2 by nra.
  assert (forall c, 0 <= c * c -> c * c <= 4 * (l * l) -> Rabs (c * g) <= 5 / 2)
    as Hbound.
  { intros c Pc Hc. apply sq_le_reg; [lra |].
    replace (c * g * (c * g)) with (c * c * (g * g)) by ring.
    assert (0 <= g * g) by nra.
    assert (c * c * (g * g) <= 4 * (l * l) * (g * g)) by nra.
    nra. }
  assert (5 / 2 <= bpow 126) as H126.
  { assert (bpow 2 <= bpow 126) by (apply bpow_le; lia).
    rewrite (bpow_IZR 2) in * by lia. change (IZR (2 ^ 2)) with 4 in *. lra. }
  destruct (mul_sq (x v) _ (5 / 2) (proj1 Hv) Fg (Hbound a Pa ltac:(lra)) H126)
    as [Fx [Bx Sx]].
  destruct (mul_sq (y v) _ (5 / 2) (proj2 Hv) Fg (Hbound b Pb ltac:(lra)) H126)
    as [Fy [By Sy]].
  fold a g in Bx, Sx. fold b g in By, Sy.
  split; [split; assumption |].
  split; [lra |]. split; [lra |].
  intros HN60. pose proof (eta_rel _ HN60) as Hrel.
  set (nx := F2R (F32.mul (x v) (F32.div F32.one (Vector2Length v)))) in *.
  set (ny := F2R (F32.mul (y v) (F32.div F32.one (Vector2Length v)))) in *.
  set (N := a * a + b * b) in *.
  assert (a * g * (a * g) + b * g * (b * g) = g * g * N) as EN
    by (unfold N; ring).
  set (X := g * g * N) in *.
  assert (0 <= g * g) as Hgg by nra.
  assert (g * g * (l * l) = g * l * (g * l)) as EY by ring.
  assert (g * g * ((1 - 5 * / 16777216) * N) <= g * g * (l * l)) as H1
    by (apply Rmult_le_compat_l; [exact Hgg | lra]).
  assert (g * g * (l * l) <= g * g * ((1 + 7 * / 16777216) * N)) as H2
    by (apply Rmult_le_compat_l; [exact Hgg | lra]).
  assert ((1 - / 16777216) * (1 - / 16777216) <= g * l * (g * l)) as H3 by nra.
  assert (g * l * (g * l) <= (1 + / 16777216) * (1 + / 16777216)) as H4 by nra.
  assert (X <= 1 + 8 * / 16777216) as HX1.
  { replace (g * g * ((1 - 5 * / 16777216) * N))
      with ((1 - 5 * / 16777216) * X) in H1 by (unfold X; ring).
    lra. }
  assert (1 - 10 * / 16777216 <= X) as HX2.
  { replace (g * g * ((1 + 7 * / 16777216) * N))
      with ((1 + 7 * / 16777216) * X) in H2 by (unfold X; ring).
    lra. }
  split; lra.
Qed.

(** ** Vectors normalised and scaled *)

Lemma Length_not_nan_cases (v : Vector2) :
  finv v -> Vector2Length v = pinf \/ fin (Vector2Length v).
Proof.
  intros Hv. destruct (Length_cases v Hv) as [[E _] | [F _]];
    [left; exact E | right; exact F].
Qed.

Lemma gt_zero_cases (L : float) :
  fin L -> F32.gt L F32.zero = true \/ F32.gt L F32.zero = false.
Proof. intros _. destruct (F32.gt L F32.zero); [left | right]; reflexivity. Qed.

(** Whatever its length, a finite vector is normalised to a finite vector
    with components below 3. *)
Lemma Normalize_fin (v : Vector2) :
  finv v ->
  finv (Vector2Normalize v) /\
  Rabs (F2R (x (Vector2Normalize v))) <= 3 /\
  Rabs (F2R (y (Vector2Normalize v))) <= 3.
Proof.
  intros Hv.
  destruct (Length_not_nan_cases v Hv) as [E | HL].
  - destruct (Normalize_inf v Hv E) as [s [t ->]]. cbn [x y].
    change (F2R (S754_zero s)) with 0. change (F2R (S754_zero t)) with 0.
    rewrite Rabs_R0. repeat split; lra.
  - destruct (F32.gt (Vector2Length v) F32.zero) eqn:Hgt.
    + destruct (Normalize_pos v Hv HL Hgt) as [H1 [H2 [H3 _]]].
      repeat split; try apply H1; assumption.
    + rewrite (Normalize_not_pos v Hgt). cbn [x y Vector2Zero].
      change (F2R F32.zero) with 0. rewrite Rabs_R0. repeat split; lra.
Qed.

Lemma bpow_126_big : 1000000 <= bpow 126.
Proof.
  assert (bpow 20 <= bpow 126) by (apply bpow_le; lia).
  rewrite (bpow_IZR 20) in * by lia. change (IZR (2 ^ 20)) with 1048576 in *.
  lra.
Qed.

(** Scaling a vector with components below [K] by a factor below 4. *)
Lemma Scale_fin (v : Vector2) (c : float) (K : R) :
  finv v -> fin c -> Rabs (F2R c) <= 4 ->
  Rabs (F2R (x v)) <= K -> Rabs (F2R (y v)) <= K ->
  / 1000000000 <= K <= 100000 ->
  finv (Vector2Scale v c) /\
  Rabs (F2R (x (Vector2Scale v c))) <= 5 * K /\
  Rabs (F2R (y (Vector2Scale v c))) <= 5 * K.
Proof.
  intros [Hx Hy] Hc HC Kx Ky HK. pose proof bpow_126_big as Hbig.
  pose proof eta_pos as He. pose proof eta_tiny as He'.
  pose proof (Rabs_pos (F2R (x v))) as Px. pose proof (Rabs_pos (F2R (y v))) as Py.
  pose proof (Rabs_pos (F2R c)) as Pc.
  assert (Rabs (F2R (x v) * F2R c) <= 4 * K) as Bx by (rewrite Rabs_mult; nra).
  assert (Rabs (F2R (y v) * F2R c) <= 4 * K) as By by (rewrite Rabs_mult; nra).
  destruct (mul_sq (x v) c (4 * K) Hx Hc Bx ltac:(lra)) as [Fx [Ex _]].
  destruct (mul_sq (y v) c (4 * K) Hy Hc By ltac:(lra)) as [Fy [Ey _]].
  unfold Vector2Scale. cbn [x y].
  split; [split; assumption |]. split; lra.
Qed.

Lemma F2R_MAX_SPEED : F2R MAX_SPEED = 5 / 2.
Proof.
  unfold MAX_SPEED, F2R. change (-22)%Z with (- (22))%Z.
  rewrite bpow_neg_IZR by lia. change (IZR (2 ^ 22)) with 4194304.
  change (IZR (Z.pos 10485760)) with 10485760. field.
Qed.

Lemma F2R_MAX_FORCE : F2R MAX_FORCE = 13421773 / 134217728.
Proof.
  unfold MAX_FORCE, F2R. change (-27)%Z with (- (27))%Z.
  rewrite bpow_neg_IZR by lia. change (IZR (2 ^ 27)) with 134217728.
  change (IZR (Z.pos 13421773)) with 13421773. field.
Qed.

Lemma fin_MAX_SPEED : fin MAX_SPEED.
Proof. split; reflexivity. Qed.

Lemma fin_MAX_FORCE : fin MAX_FORCE.
Proof. split; reflexivity. Qed.

Lemma sq_le_pos (a b : R) : 0 <= a -> 0 <= b -> a * a <= b * b -> a <= b.
Proof. intros Ha Hb H. destruct (Rle_lt_dec a b); [assumption | nra]. Qed.

(** A vector that is normalised and scaled by [c]: its length, exact or as
    [Vector2Length] computes it, is [c] within 16 units of relative error
    [u]. *)
Lemma rescaled (v : Vector2) (c : float) :
  finv v -> fin (Vector2Length v) -> bpow (-60) <= norm2 v ->
  fin c -> / 16 <= F2R c <= 4 ->
  let w := Vector2Scale (Vector2Normalize v) c in
  finv w /\ fin (Vector2Length w) /\
  F2R c * F2R c * (1 - 17 * / 16777216) <= norm2 w
    <= F2R c * F2R c * (1 + 17 * / 16777216) /\
  F2R c * (1 - 16 * / 16777216) <= F2R (Vector2Length w)
    <= F2R c * (1 + 16 * / 16777216).
Proof.
  intros Hv HL HN Hc HC. cbv zeta.
  pose proof eta_pos as He. pose proof eta_tiny as He'.
  pose proof (eta_rel _ HN) as Hrel.
  assert (F32.gt (Vector2Length v) F32.zero = true) as Hgt.
  { apply (gt_spec _ _ HL (fin_zero false)).
    change (F2R (S754_zero false)) with 0.
    destruct (Length_cases v Hv) as [[E _] | [_ [[L0 _] [_ HLL]]]].
    - rewrite E in HL. destruct HL as [_ HL]. discriminate.
    - rewrite u_val in HLL. pose proof (bpow_pos (-60)).
      destruct (Rle_lt_dec (F2R (Vector2Length v)) 0) as [Hle | ?];
        [| assumption].
      assert (F2R (Vector2Length v) = 0) as Hz by lra.
      rewrite Hz in HLL. lra. }
  destruct (Normalize_pos v Hv HL Hgt) as [Fn [Bx [By Hn]]].
  specialize (Hn HN).
  set (n := Vector2Normalize v) in *.
  set (C := F2R c) in *.
  pose proof (Rabs_pos (F2R (x n))) as Px. pose proof (Rabs_pos (F2R (y n))) as Py.
  assert (Rabs C <= 4) as HC' by (rewrite Rabs_pos_eq; lra).
  assert (Rabs (F2R (x n) * F2R c) <= 12) as Kx
    by (rewrite Rabs_mult; fold C; rewrite (Rabs_pos_eq C) by lra; nra).
  assert (Rabs (F2R (y n) * F2R c) <= 12) as Ky
    by (rewrite Rabs_mult; fold C; rewrite (Rabs_pos_eq C) by lra; nra).
  pose proof bpow_126_big as Hbig.
  destruct (mul_sq (x n) c 12 (proj1 Fn) Hc Kx ltac:(lra)) as [Fx [Ex Sx]].
  destruct (mul_sq (y n) c 12 (proj2 Fn) Hc Ky ltac:(lra)) as [Fy [Ey Sy]].
  assert (finv (Vector2Scale n c)) as Fw by (split; assumption).
  fold C in Sx, Sy.
  set (w := Vector2Scale n c) in *.
  assert (norm2 w = F2R (F32.mul (x n) c) * F2R (F32.mul (x n) c)
                    + F2R (F32.mul (y n) c) * F2R (F32.mul (y n) c)) as Ew
    by reflexivity.
  set (wx2 := F2R (F32.mul (x n) c) * F2R (F32.mul (x n) c)) in *.
  set (wy2 := F2R (F32.mul (y n) c) * F2R (F32.mul (y n) c)) in *.
  unfold norm2 in Hn.
  assert (F2R (x n) * C * (F2R (x n) * C) + F2R (y n) * C * (F2R (y n) * C)
          = C * C * (F2R (x n) * F2R (x n) + F2R (y n) * F2R (y n))) as EN by ring.
  set (P := F2R (x n) * C * (F2R (x n) * C)) in *.
  set (Q := F2R (y n) * C * (F2R (y n) * C)) in *.
  set (M := F2R (x n) * F2R (x n) + F2R (y n) * F2R (y n)) in *.
  assert (/ 256 <= C * C <= 16) as HCC by nra.
  assert (C * C * (1 - 14 * / 16777216) <= C * C * M) as HM1
    by (apply Rmult_le_compat_l; lra).
  assert (C * C * M <= C * C * (1 + 14 * / 16777216)) as HM2
    by (apply Rmult_le_compat_l; lra).
  assert (C * C * (1 - 17 * / 16777216) <= norm2 w
          <= C * C * (1 + 17 * / 16777216)) as HW.
  { rewrite Ew. split; lra. }
  split; [exact Fw |].
  destruct (Length_cases w Fw) as [[_ Big] | [FL [[L0 _] [_ HLL]]]].
  { lra. }
  split; [exact FL |]. split; [exact HW |].
  rewrite u_val in HLL.
  set (l := F2R (Vector2Length w)) in *.
  set (W := norm2 w) in *.
  assert (C * C * (1 - 22 * / 16777216) <= l * l) as Hl1 by lra.
  assert (l * l <= C * C * (1 + 24 * / 16777216)) as Hl2 by lra.
  split.
  - apply sq_le_pos; [nra | exact L0 |]. nra.
  - apply sq_le_pos; [exact L0 | nra |]. nra.
Qed.

(** ** The clamp and the speed *)

Lemma norm2_component (v : Vector2) (K : R) :
  0 <= K -> norm2 v <= K * K ->
  Rabs (F2R (x v)) <= K /\ Rabs (F2R (y v)) <= K.
Proof.
  intros HK H. unfold norm2 in H.
  pose proof (square_pos (F2R (x v))). pose proof (square_pos (F2R (y v))).
  split; apply sq_le_reg; try exact HK; lra.
Qed.

Lemma Length_zeros (s t : bool) :
  Vector2Length (Vector2Scale (mkVector2 (S754_zero s) (S754_zero t)) MAX_FORCE)
  = S754_zero false.
Proof. destruct s, t; reflexivity. Qed.

(** The clamp: whatever finite vector goes in, the length of what comes out
    is at most [MAX_FORCE] within 16 units of relative error [u]. *)
Lemma limit_bound (steer : Vector2) :
  finv steer ->
  finv (limit steer) /\ fin (Vector2Length (limit steer)) /\
  F2R (Vector2Length (limit steer))
    <= F2R MAX_FORCE * (1 + 16 * / 16777216) /\
  Rabs (F2R (x (limit steer))) <= / 4 /\ Rabs (F2R (y (limit steer))) <= / 4.
Proof.
  intros Hs. unfold limit.
  pose proof F2R_MAX_FORCE as EF. pose proof eta_pos as He.
  pose proof eta_tiny as He'.
  destruct (Length_cases steer Hs) as [[E Big] | [FL [[L0 L65] [_ HLL]]]].
  - rewrite E. change (F32.gt pinf MAX_FORCE) with true. cbv iota.
    destruct (Normalize_inf steer Hs E) as [s [t ->]].
    rewrite Length_zeros.
    split; [split; destruct s, t; split; reflexivity |].
    split; [split; reflexivity |].
    change (F2R (S754_zero false)) with 0.
    split; [rewrite EF; lra |].
    destruct s, t; cbn; rewrite Rabs_R0; lra.
  - rewrite u_val in HLL.
    destruct (F32.gt (Vector2Length steer) MAX_FORCE) eqn:Hgt.
    + apply (gt_spec _ _ FL fin_MAX_FORCE) in Hgt. rewrite EF in Hgt.
      assert (bpow (-60) <= norm2 steer) as HN.
      { assert (bpow (-60) <= bpow (- (10))) as H by (apply bpow_le; lia).
        rewrite (bpow_neg_IZR 10) in H by lia.
        change (IZR (2 ^ 10)) with 1024 in H.
        set (l := F2R (Vector2Length steer)) in *.
        assert (/ 101 <= l * l) by nra.
        lra. }
      destruct (rescaled steer MAX_FORCE Hs FL HN fin_MAX_FORCE
                  ltac:(rewrite EF; lra)) as [Fw [FLw [HW HLw]]].
      rewrite EF in HW, HLw.
      split; [exact Fw |]. split; [exact FLw |].
      split; [rewrite EF; lra |].
      apply norm2_component; lra.
    + apply (gt_false_spec _ _ FL fin_MAX_FORCE) in Hgt. rewrite EF in Hgt.
      split; [exact Hs |]. split; [exact FL |].
      split; [rewrite EF; lra |].
      set (l := F2R (Vector2Length steer)) in *.
      assert (l * l <= / 99) by nra.
      apply norm2_component; lra.
Qed.

(** The velocity that [update] stores, when the length of
    [velocity + acceleration] neither overflows nor falls below [2^-30]. *)
Lemma update_speed_bounds (b : Boid) :
  finv (Vector2Add (velocity b) (acceleration b)) ->
  fin (Vector2Length (Vector2Add (velocity b) (acceleration b))) ->
  bpow (-60) <= norm2 (Vector2Add (velocity b) (acceleration b)) ->
  finv (velocity (update b)) /\
  fin (Vector2Length (velocity (update b))) /\
  5 / 2 * (1 - 16 * / 16777216) <= F2R (Vector2Length (velocity (update b)))
    <= 5 / 2 * (1 + 16 * / 16777216) /\
  25 / 4 * (1 - 17 * / 16777216) <= norm2 (velocity (update b))
    <= 25 / 4 * (1 + 17 * / 16777216).
Proof.
  intros Hv HL HN. unfold update. cbn [velocity].
  destruct (rescaled _ MAX_SPEED Hv HL HN fin_MAX_SPEED
              ltac:(rewrite F2R_MAX_SPEED; lra)) as [Fw [FLw [HW HLw]]].
  rewrite F2R_MAX_SPEED in HW, HLw.
  split; [exact Fw |]. split; [exact FLw |]. split; [exact HLw |].
  replace (25 / 4) with (5 / 2 * (5 / 2)) by field. exact HW.
Qed.

(** ** Magnitudes along a frame *)

Lemma within_le (A B : R) (f : float) : within A f -> A <= B -> within B f.
Proof. intros [H1 H2] H. split; [exact H1 | lra]. Qed.

Lemma withinv_le (A B : R) (v : Vector2) :
  withinv A v -> A <= B -> withinv B v.
Proof. intros [H1 H2] H. split; eapply within_le; eassumption. Qed.

Lemma within_nonneg (B : R) (f : float) : within B f -> 0 <= B.
Proof. intros [_ H]. pose proof (Rabs_pos (F2R f)). lra. Qed.

Lemma withinv_fin (B : R) (v : Vector2) : withinv B v -> finv v.
Proof. intros [[H1 _] [H2 _]]. split; assumption. Qed.

Lemma within_zero (s : bool) (B : R) : 0 <= B -> within B (S754_zero s).
Proof.
  intros H. split; [apply fin_zero |].
  change (F2R (S754_zero s)) with 0. rewrite Rabs_R0. exact H.
Qed.

Lemma withinv_zero (B : R) : 0 <= B -> withinv B Vector2Zero.
Proof. intros H. split; apply within_zero, H. Qed.

Lemma add_within (A B : R) (a b : float) :
  within A a -> within B b -> A + B <= bpow 126 ->
  within ((1 + / 16777216) * (A + B)) (F32.add a b).
Proof.
  intros [Fa Ha] [Fb Hb] HB.
  pose proof (add_rounds a b Fa Fb) as H.
  pose proof (Rabs_triang (F2R a) (F2R b)) as Ht.
  pose proof (bpow_pos 126). pose proof bpow_127.
  destruct (rounds_fin _ _ _ H zero_range ltac:(lra)) as [Hf [E _]].
  split; [exact Hf |]. rewrite u_val in E.
  pose proof (Rabs_diff (F2R (F32.add a b)) (F2R a + F2R b)) as Hd.
  apply Rabs_bound in Hd. lra.
Qed.

Lemma sub_within (A B : R) (a b : float) :
  within A a -> within B b -> A + B <= bpow 126 ->
  within ((1 + / 16777216) * (A + B)) (F32.sub a b).
Proof.
  intros [Fa Ha] [Fb Hb] HB.
  pose proof (sub_rounds a b Fa Fb) as H.
  pose proof (Rabs_triang (F2R a) (- F2R b)) as Ht.
  rewrite Rabs_Ropp in Ht. fold (F2R a - F2R b) in Ht.
  pose proof (bpow_pos 126). pose proof bpow_127.
  destruct (rounds_fin _ _ _ H zero_range ltac:(lra)) as [Hf [E _]].
  split; [exact Hf |]. rewrite u_val in E.
  pose proof (Rabs_diff (F2R (F32.sub a b)) (F2R a - F2R b)) as Hd.
  apply Rabs_bound in Hd. lra.
Qed.

Lemma mul_within (A C : R) (a c : float) :
  within A a -> within C c -> A * C <= bpow 126 ->
  within ((1 + / 16777216) * (A * C) + eta) (F32.mul a c).
Proof.
  intros [Fa Ha] [Fc Hc] HB.
  pose proof (Rabs_pos (F2R a)). pose proof (Rabs_pos (F2R c)).
  assert (Rabs (F2R a * F2R c) <= A * C) as HK by (rewrite Rabs_mult; nra).
  destruct (mul_sq a c (A * C) Fa Fc HK HB) as [Hf [E _]].
  split; assumption.
Qed.

Lemma Vector2Add_within (A B : R) (v w : Vector2) :
  withinv A v -> withinv B w -> A + B <= bpow 126 ->
  withinv ((1 + / 16777216) * (A + B)) (Vector2Add v w).
Proof.
  intros [Hx Hy] [Kx Ky] H. split; cbn [Vector2Add x y];
    apply add_within; assumption.
Qed.

Lemma Vector2Subtract_within (A B : R) (v w : Vector2) :
  withinv A v -> withinv B w -> A + B <= bpow 126 ->
  withinv ((1 + / 16777216) * (A + B)) (Vector2Subtract v w).
Proof.
  intros [Hx Hy] [Kx Ky] H. split; cbn [Vector2Subtract x y];
    apply sub_within; assumption.
Qed.

Lemma Vector2Scale_within (A C : R) (v : Vector2) (c : float) :
  withinv A v -> within C c -> A * C <= bpow 126 ->
  withinv ((1 + / 16777216) * (A * C) + eta) (Vector2Scale v c).
Proof.
  intros [Hx Hy] Hc H. split; cbn [Vector2Scale x y];
    apply mul_within; assumption.
Qed.

Lemma Normalize_within (v : Vector2) :
  finv v -> withinv 3 (Vector2Normalize v).
Proof.
  intros Hv. destruct (Normalize_fin v Hv) as [[Fx Fy] [Bx By]].
  split; split; assumption.
Qed.

Lemma limit_within (steer : Vector2) :
  finv steer -> withinv (/ 4) (limit steer).
Proof.
  intros Hs. destruct (limit_bound steer Hs) as [[Fx Fy] [_ [_ [Bx By]]]].
  split; split; assumption.
Qed.

(** *** Small integers *)

Lemma of_int_nonneg (n : Z) :
  (1 <= n <= 16777216)%Z ->
  fin (F32.of_int n) /\
  (1 - / 16777216) * IZR n <= F2R (F32.of_int n) <= (1 + / 16777216) * IZR n.
Proof.
  intros Hn. pose proof (of_int_rounds n) as H.
  assert (1 <= IZR n <= 16777216) as Hn'.
  { split; [apply (IZR_le 1) | apply (IZR_le _ 16777216)]; lia. }
  pose proof bpow_126_big.  pose proof bpow_127.
  destruct (rounds_fin _ _ _ H zero_range) as [Hf [E _]].
  { rewrite Rabs_pos_eq by lra.
    assert (bpow 24 <= bpow 127) by (apply bpow_le; lia).
    rewrite (bpow_IZR 24) in * by lia. change (IZR (2 ^ 24)) with 16777216 in *.
    lra. }
  rewrite u_val, (Rabs_pos_eq (IZR n)) in E by lra. apply Rabs_bound in E.
  split; [exact Hf |]. lra.
Qed.

(** [1.0f / (float) count] for a positive count. *)
Lemma inverse_count (n : Z) :
  (1 <= n <= 16777216)%Z ->
  within 2 (F32.div F32.one (F32.of_int n)).
Proof.
  intros Hn. destruct (of_int_nonneg n Hn) as [Hf Hb].
  assert (1 <= IZR n) as Hn' by (apply (IZR_le 1); lia).
  set (c := F2R (F32.of_int n)) in *.
  assert (9 / 10 <= c) as Hc by lra.
  assert (c <> 0) as Hnz by lra.
  pose proof (div_rounds F32.one _ fin_one Hf Hnz) as H.
  fold c in H. rewrite F2R_one in H.
  assert (0 < 1 / c <= 10 / 9) as Hq.
  { split.
    - apply Rdiv_lt_0_compat; lra.
    - apply (Rmult_le_reg_r c); [lra |]. field_simplify; lra. }
  pose proof bpow_126_big. pose proof bpow_127.
  destruct (rounds_fin _ _ _ H eta_range) as [Hfin [E _]].
  { rewrite Rabs_pos_eq; lra. }
  rewrite u_val, (Rabs_pos_eq (1 / c)) in E by lra.
  pose proof eta_tiny. pose proof eta_pos.
  split; [exact Hfin |].
  pose proof (Rabs_diff (F2R (F32.div F32.one (F32.of_int n))) (1 / c)) as Hd.
  rewrite (Rabs_pos_eq (1 / c)) in Hd by lra.
  apply Rabs_bound in Hd. lra.
Qed.

(** *** The scans *)

Section ScanWithin.

Variable scan : Vector2 * Z -> Boid -> Vector2 * Z.
Variable guard : Boid -> bool.
Variable term : Boid -> Vector2.
Variable T : R.

Hypothesis scan_eq : forall s c other,
  scan (s, c) other
  = if guard other then (Vector2Add s (term other), (c + 1)%Z) else (s, c).
Hypothesis T_range : 0 <= T <= bpow 100.

Lemma scan_within_step (k : Z) :
  (0 <= k <= 4194304)%Z ->
  (1 + / 16777216) * (2 * T * IZR k + T) <= 2 * T * IZR (k + 1).
Proof.
  intros Hk. rewrite plus_IZR.
  assert (0 <= IZR k <= 4194304) as Hk'.
  { split; [apply (IZR_le 0) | apply (IZR_le _ 4194304)]; lia. }
  assert (/ 16777216 * (2 * IZR k + 1) <= 1) as Hu by lra.
  assert (T * (/ 16777216 * (2 * IZR k + 1)) <= T * 1) as H
    by (apply Rmult_le_compat_l; lra).
  lra.
Qed.

Lemma scan_within_bound (k : Z) :
  (0 <= k <= 4194305)%Z -> 2 * T * IZR k <= bpow 125.
Proof.
  intros Hk.
  assert (0 <= IZR k <= 8388608) as Hk'.
  { split; [apply (IZR_le 0) | apply (IZR_le _ 8388608)]; lia. }
  assert (2 * T * IZR k <= 2 * bpow 100 * 8388608).
  { assert (T * IZR k <= bpow 100 * 8388608)
      by (apply Rmult_le_compat; lra). lra. }
  replace 125%Z with (1 + 100 + 23 + 1)%Z by lia.
  rewrite !bpow_add, bpow_1, (bpow_IZR 23) by lia.
  change (IZR (2 ^ 23)) with 8388608. pose proof (bpow_pos 100). lra.
Qed.

Lemma scan_within_gen (l : list Boid) :
  (forall other, other ∈ l -> guard other = true -> withinv T (term other)) ->
  forall (k : Z) (s : Vector2) (c : Z),
  (0 <= k)%Z -> (k + Z.of_nat (length l) <= 4194304)%Z ->
  withinv (2 * T * IZR k) s -> (0 <= c <= k)%Z ->
  withinv (2 * T * IZR (k + Z.of_nat (length l))) (fst (fold_left scan l (s, c)))
  /\ (0 <= snd (fold_left scan l (s, c)) <= k + Z.of_nat (length l))%Z.
Proof.
  induction l as [| other l IH]; intros Hl k s c Hk Hlen Hs Hc.
  - simpl. rewrite Z.add_0_r. split; assumption.
  - cbn [fold_left]. rewrite scan_eq.
    assert (k + Z.of_nat (length (other :: l))
            = (k + 1) + Z.of_nat (length l))%Z as E
      by (cbn [length]; lia).
    rewrite E.
    assert (forall o, o ∈ l -> guard o = true -> withinv T (term o)) as Hl'
      by (intros o Ho; apply Hl; right; exact Ho).
    destruct (guard other) eqn:Hg.
    + apply IH; [exact Hl' | lia | lia | | lia].
      eapply withinv_le.
      * apply Vector2Add_within; [exact Hs | apply Hl; [left | exact Hg] |].
        pose proof (scan_within_bound k ltac:(lia)).
        assert (bpow 100 <= bpow 125) by (apply bpow_le; lia).
        assert (bpow 126 = 2 * bpow 125) as ->
          by (replace 126%Z with (125 + 1)%Z by lia; apply bpow_succ).
        lra.
      * apply scan_within_step. lia.
    + apply IH; [exact Hl' | lia | lia | | lia].
      eapply withinv_le; [exact Hs |].
      rewrite plus_IZR.
      assert (0 <= IZR k) by (apply (IZR_le 0); lia). nra.
Qed.

(** A scan that adds terms of magnitude up to [T] over at most [2^22]
    agents returns a finite sum. *)
Lemma scan_within (l : list Boid) :
  (forall other, other ∈ l -> guard other = true -> withinv T (term other)) ->
  (Z.of_nat (length l) <= 4194304)%Z ->
  withinv (2 * T * 4194304) (fst (fold_left scan l (Vector2Zero, 0%Z))) /\
  (0 <= snd (fold_left scan l (Vector2Zero, 0%Z)) <= 4194304)%Z.
Proof.
  intros Hl Hlen.
  destruct (scan_within_gen l Hl 0 Vector2Zero 0 ltac:(lia) ltac:(lia))
    as [H1 H2].
  - apply withinv_zero. lra.
  - lia.
  - split; [| lia].
    eapply withinv_le; [exact H1 |].
    assert (IZR (0 + Z.of_nat (length l)) <= 4194304)
      by (apply (IZR_le _ 4194304); lia).
    assert (T * IZR (0 + Z.of_nat (length l)) <= T * 4194304)
      by (apply Rmult_le_compat_l; lra).
    lra.
Qed.

End ScanWithin.

(** *** The three rules on a flock of bounded agents *)

Lemma limit_bounded_force (steer : Vector2) :
  finv steer -> bounded_force (limit steer).
Proof.
  intros Hs. destruct (limit_bound steer Hs) as [[Fx Fy] [FL [HL [Bx By]]]].
  split; [split; split; assumption |]. split; assumption.
Qed.

Lemma zero_bounded_force : bounded_force Vector2Zero.
Proof.
  split; [apply withinv_zero; lra |].
  split; [split; reflexivity |].
  change (F2R (Vector2Length Vector2Zero)) with 0.
  rewrite F2R_MAX_FORCE. lra.
Qed.

Lemma bpow_126_huge : 1000000000000000000000000000000 <= bpow 126.
Proof.
  assert (bpow 100 <= bpow 126) by (apply bpow_le; lia).
  rewrite (bpow_IZR 100) in * by lia.
  change (IZR (2 ^ 100)) with 1267650600228229401496703205376 in *.
  lra.
Qed.

Lemma within_MAX_SPEED : within 4 MAX_SPEED.
Proof.
  split; [apply fin_MAX_SPEED |].
  rewrite F2R_MAX_SPEED, Rabs_pos_eq; lra.
Qed.

(** The tail shared by the three rules: normalise, scale to [MAX_SPEED],
    subtract the own velocity, clamp. *)
Lemma steer_tail (steer : Vector2) (self : Boid) :
  finv steer -> tame self ->
  bounded_force
    (limit (Vector2Subtract (Vector2Scale (Vector2Normalize steer) MAX_SPEED)
                            (velocity self))).
Proof.
  intros Hs [_ Hv]. pose proof bpow_126_huge as Hbig.
  pose proof eta_pos. pose proof eta_tiny.
  apply limit_bounded_force.
  eapply withinv_fin. apply Vector2Subtract_within; [| exact Hv |].
  - apply Vector2Scale_within;
      [apply Normalize_within, Hs | apply within_MAX_SPEED | lra].
  - lra.
Qed.

Lemma fold_pair {A : Type} (scan : Vector2 * Z -> A -> Vector2 * Z)
      (l : list A) (acc : Vector2 * Z) :
  fold_left scan l acc = (fst (fold_left scan l acc), snd (fold_left scan l acc)).
Proof. destruct (fold_left scan l acc); reflexivity. Qed.

Lemma tame_elem (boids : list Boid) (other : Boid) :
  Forall tame boids -> other ∈ boids -> tame other.
Proof. intros H Ho. rewrite Forall_forall in H. apply H, Ho. Qed.

(** Alignment and cohesion. *)
Lemma align_bounded (self : Boid) (boids : list Boid) :
  tame self -> Forall tame boids -> (Z.of_nat (length boids) <= 4194304)%Z ->
  bounded_force (align self boids).
Proof.
  intros Hself Hall Hlen. pose proof bpow_126_huge as Hbig.
  pose proof eta_pos. pose proof eta_tiny.
  destruct (scan_within (align_scan self)
              (fun other =>
                 F32.gt (Vector2Distance (position self) (position other))
                        (F32.of_int 0)
                 && F32.lt (Vector2Distance (position self) (position other))
                           NEIGHBOR_RADIUS)
              velocity 15) with (l := boids) as [Hs Hc].
  - intros s c other. reflexivity.
  - split; [lra |]. assert (bpow 4 <= bpow 100) by (apply bpow_le; lia).
    rewrite (bpow_IZR 4) in * by lia. change (IZR (2 ^ 4)) with 16 in *. lra.
  - intros other Ho _. apply (tame_elem boids other Hall Ho).
  - exact Hlen.
  - unfold align. rewrite (fold_pair (align_scan self)).
    set (sum := fst (fold_left (align_scan self) boids (Vector2Zero, 0%Z))) in *.
    set (count := snd (fold_left (align_scan self) boids (Vector2Zero, 0%Z))) in *.
    destruct (Z.ltb_spec 0 count) as [Hpos | Hzero];
      [| apply zero_bounded_force].
    apply steer_tail; [| exact Hself].
    eapply withinv_fin. apply Vector2Scale_within;
      [exact Hs | apply inverse_count; lia | lra].
Qed.

Lemma cohesion_bounded (self : Boid) (boids : list Boid) :
  tame self -> Forall tame boids -> (Z.of_nat (length boids) <= 4194304)%Z ->
  bounded_force (cohesion self boids).
Proof.
  intros Hself Hall Hlen. pose proof bpow_126_huge as Hbig.
  pose proof eta_pos. pose proof eta_tiny.
  destruct (scan_within (cohesion_scan self)
              (fun other =>
                 F32.gt (Vector2Distance (position self) (position other))
                        (F32.of_int 0)
                 && F32.lt (Vector2Distance (position self) (position other))
                           NEIGHBOR_RADIUS)
              position 1201) with (l := boids) as [Hs Hc].
  - intros s c other. reflexivity.
  - split; [lra |]. assert (bpow 11 <= bpow 100) by (apply bpow_le; lia).
    rewrite (bpow_IZR 11) in * by lia. change (IZR (2 ^ 11)) with 2048 in *. lra.
  - intros other Ho _. apply (tame_elem boids other Hall Ho).
  - exact Hlen.
  - unfold cohesion. rewrite (fold_pair (cohesion_scan self)).
    set (sum := fst (fold_left (cohesion_scan self) boids (Vector2Zero, 0%Z))) in *.
    set (count := snd (fold_left (cohesion_scan self) boids (Vector2Zero, 0%Z))) in *.
    destruct (Z.ltb_spec 0 count) as [Hpos | Hzero];
      [| apply zero_bounded_force].
    apply steer_tail; [| exact Hself].
    eapply withinv_fin. apply Vector2Subtract_within; [| apply Hself |].
    + apply Vector2Scale_within;
        [exact Hs | apply inverse_count; lia | lra].
    + lra.
Qed.

(** *** Separation *)

Lemma Distance_Length (p q : Vector2) :
  Vector2Distance p q = Vector2Length (Vector2Subtract p q).
Proof. reflexivity. Qed.

Lemma bpow_78 : bpow 78 = 4 * bpow 76.
Proof.
  replace 78%Z with (76 + 1 + 1)%Z by lia. rewrite !bpow_succ. ring.
Qed.

(** The term one neighbour adds to the running sum of [separate]. *)
Lemma separate_term (self other : Boid) :
  tame self -> tame other ->
  F32.gt (Vector2Distance (position self) (position other)) (F32.of_int 0)
  && F32.lt (Vector2Distance (position self) (position other))
            SEPARATION_RADIUS = true ->
  withinv (bpow 78)
    (Vector2Scale
       (Vector2Normalize (Vector2Subtract (position self) (position other)))
       (F32.div F32.one
                (Vector2Distance (position self) (position other)))).
Proof.
  intros [Hs _] [Ho _] Hg. rewrite Distance_Length in *.
  pose proof bpow_126_huge as Hbig.
  pose proof eta_pos as He. pose proof eta_tiny as He'.
  assert (finv (Vector2Subtract (position self) (position other))) as Hd.
  { eapply withinv_fin. apply Vector2Subtract_within; [exact Hs | exact Ho |].
    lra. }
  set (dv := Vector2Subtract (position self) (position other)) in *.
  apply andb_prop in Hg as [Hpos Hlt].
  destruct (Length_cases dv Hd) as [[E _] | [FL [[L0 L65] [Lmin _]]]].
  { rewrite E in Hlt. discriminate. }
  change (F32.of_int 0) with (S754_zero false) in Hpos.
  apply (gt_spec _ _ FL (fin_zero false)) in Hpos.
  change (F2R (S754_zero false)) with 0 in Hpos.
  specialize (Lmin Hpos).
  destruct (inverse_length _ FL (conj Lmin L65)) as [Fg [Hg Pg]].
  set (l := F2R (Vector2Length dv)) in *.
  set (g := F2R (F32.div F32.one (Vector2Length dv))) in *.
  pose proof (bpow_pos 76) as H76. pose proof (bpow_pos (-75)) as H75.
  assert (bpow 76 * bpow (-75) = 2) as E2.
  { rewrite <- bpow_add. change (76 + -75)%Z with 1%Z. apply bpow_1. }
  assert (bpow 76 <= bpow 126) as Hle by (apply bpow_le; lia).
  assert (g <= bpow 76) as Hgb.
  { destruct (Rle_lt_dec g (bpow 76)) as [? | Hgt]; [assumption |].
    assert (bpow 76 * bpow (-75) <= g * l) by (apply Rmult_le_compat; lra).
    lra. }
  assert (within (bpow 76) (F32.div F32.one (Vector2Length dv))) as Wg.
  { split; [exact Fg |]. fold g. rewrite Rabs_pos_eq; lra. }
  eapply withinv_le.
  - apply Vector2Scale_within; [apply Normalize_within, Hd | exact Wg |].
    assert (bpow 78 <= bpow 126) by (apply bpow_le; lia).
    rewrite bpow_78 in *. lra.
  - rewrite bpow_78.
    assert (bpow 0 <= bpow 76) as H0 by (apply bpow_le; lia).
    rewrite bpow_0 in H0. lra.
Qed.

Lemma not_positive_bounded (steer : Vector2) :
  finv steer ->
  F32.gt (Vector2Length steer) (F32.of_int 0) = false ->
  bounded_force steer.
Proof.
  intros Hs Hgt. change (F32.of_int 0) with (S754_zero false) in Hgt.
  pose proof eta_pos as He. pose proof eta_tiny as He'.
  destruct (Length_cases steer Hs) as [[E _] | [FL [[L0 _] [_ HLL]]]].
  { rewrite E in Hgt. discriminate. }
  apply (gt_false_spec _ _ FL (fin_zero false)) in Hgt.
  change (F2R (S754_zero false)) with 0 in Hgt.
  assert (F2R (Vector2Length steer) = 0) as Hz by lra.
  rewrite u_val, Hz in HLL.
  split; [| split; [exact FL | rewrite Hz, F2R_MAX_FORCE; lra]].
  destruct (norm2_component steer (/ 4) ltac:(lra) ltac:(lra)) as [Bx By].
  destruct Hs as [Fx Fy]. split; split; assumption.
Qed.

Lemma separate_bounded (self : Boid) (boids : list Boid) :
  tame self -> Forall tame boids -> (Z.of_nat (length boids) <= 4194304)%Z ->
  bounded_force (separate self boids).
Proof.
  intros Hself Hall Hlen. pose proof bpow_126_huge as Hbig.
  pose proof eta_pos. pose proof eta_tiny.
  destruct (scan_within (separate_scan self)
              (fun other =>
                 F32.gt (Vector2Distance (position self) (position other))
                        (F32.of_int 0)
                 && F32.lt (Vector2Distance (position self) (position other))
                           SEPARATION_RADIUS)
              (fun other =>
                 Vector2Scale
                   (Vector2Normalize
                      (Vector2Subtract (position self) (position other)))
                   (F32.div F32.one
                      (Vector2Distance (position self) (position other))))
              (bpow 78)) with (l := boids) as [Hs Hc].
  - intros s c other. reflexivity.
  - split; [apply Rlt_le, bpow_pos | apply bpow_le; lia].
  - intros other Ho Hg.
    apply (separate_term self other Hself (tame_elem boids other Hall Ho) Hg).
  - exact Hlen.
  - unfold separate. rewrite (fold_pair (separate_scan self)).
    set (sum := fst (fold_left (separate_scan self) boids (Vector2Zero, 0%Z))) in *.
    set (count := snd (fold_left (separate_scan self) boids (Vector2Zero, 0%Z))) in *.
    assert (2 * bpow 78 * 4194304 = bpow 101) as E101.
    { replace 101%Z with (1 + 78 + 22)%Z by lia.
      rewrite !bpow_add, bpow_1, (bpow_IZR 22) by lia. reflexivity. }
    rewrite E101 in Hs.
    assert (finv (if (0 <? count)%Z
                  then Vector2Scale sum (F32.div F32.one (F32.of_int count))
                  else sum)) as Hsteer.
    { destruct (Z.ltb_spec 0 count) as [Hpos | Hzero].
      - eapply withinv_fin. apply Vector2Scale_within;
          [exact Hs | apply inverse_count; lia |].
        assert (bpow 101 * 2 = bpow 102) as ->
          by (replace 102%Z with (101 + 1)%Z by lia; rewrite bpow_succ; ring).
        apply bpow_le. lia.
      - eapply withinv_fin, Hs. }
    set (steer := if (0 <? count)%Z
                  then Vector2Scale sum (F32.div F32.one (F32.of_int count))
                  else sum) in *.
    destruct (F32.gt (Vector2Length steer) (F32.of_int 0)) eqn:Hgt.
    + apply steer_tail; assumption.
    + apply not_positive_bounded; assumption.
Qed.

(** *** One frame on a flock of bounded agents *)

Lemma of_int_within (n : Z) (B : R) :
  Rabs (IZR n) <= B -> B <= 1000000 ->
  within ((1 + / 16777216) * B) (F32.of_int n).
Proof.
  intros Hn HB. pose proof (of_int_rounds n) as H.
  pose proof bpow_126_huge. pose proof bpow_127.
  destruct (rounds_fin _ _ _ H zero_range ltac:(lra)) as [Hf [E _]].
  split; [exact Hf |]. rewrite u_val in E.
  pose proof (Rabs_diff (F2R (F32.of_int n)) (IZR n)) as Hd.
  apply Rabs_bound in Hd. lra.
Qed.

Lemma within_weight (w : float) :
  w = SEPARATION_WEIGHT \/ w = ALIGNMENT_WEIGHT \/ w = COHESION_WEIGHT ->
  within 1 w.
Proof.
  intros [-> | [-> | ->]]; (split; [split; reflexivity |]);
    unfold F2R, SEPARATION_WEIGHT, ALIGNMENT_WEIGHT, COHESION_WEIGHT.
  - change (-26)%Z with (- (26))%Z. rewrite bpow_neg_IZR by lia.
    change (IZR (2 ^ 26)) with 67108864.
    change (IZR (Z.pos 13421773)) with 13421773.
    rewrite Rabs_pos_eq; lra.
  - change (-27)%Z with (- (27))%Z. rewrite bpow_neg_IZR by lia.
    change (IZR (2 ^ 27)) with 134217728.
    change (IZR (Z.pos 13421773)) with 13421773.
    rewrite Rabs_pos_eq; lra.
  - change (-24)%Z with (- (24))%Z. rewrite bpow_neg_IZR by lia.
    change (IZR (2 ^ 24)) with 16777216.
    change (IZR (Z.pos 8388608)) with 8388608.
    rewrite Rabs_pos_eq; lra.
Qed.

Lemma weighted_force (force : Vector2) (w : float) :
  bounded_force force ->
  w = SEPARATION_WEIGHT \/ w = ALIGNMENT_WEIGHT \/ w = COHESION_WEIGHT ->
  withinv (/ 2) (Vector2Scale force w).
Proof.
  intros [Hf _] Hw. pose proof bpow_126_huge. pose proof eta_pos.
  pose proof eta_tiny.
  eapply withinv_le.
  - apply Vector2Scale_within; [exact Hf | apply within_weight, Hw | lra].
  - lra.
Qed.

(** One axis of [borders] on a finite coordinate. *)
Lemma wrap_within (bound : Z) (c : float) :
  (0 <= bound <= 1200)%Z -> fin c -> within 1201 (wrap bound c).
Proof.
  intros Hb Hc.
  assert (within 1201 (F32.of_int bound)) as Wb.
  { eapply within_le.
    - apply (of_int_within bound 1200); [| lra].
      rewrite Rabs_pos_eq by (apply (IZR_le 0); lia).
      apply (IZR_le _ 1200). lia.
    - lra. }
  assert (within 1201 (F32.of_int 0)) as W0
    by (apply (within_zero false); lra).
  unfold wrap.
  destruct (F32.lt c (F32.of_int 0)) eqn:Hlt.
  - destruct (F32.gt (F32.of_int bound) (F32.of_int bound)); assumption.
  - destruct (F32.gt c (F32.of_int bound)) eqn:Hgt; [exact W0 |].
    apply (lt_false_spec _ _ Hc (fin_zero false)) in Hlt.
    change (F2R (S754_zero false)) with 0 in Hlt.
    apply (gt_false_spec _ _ Hc (proj1 Wb)) in Hgt.
    destruct Wb as [_ Wb]. apply Rabs_bound in Wb.
    split; [exact Hc |]. rewrite Rabs_pos_eq; lra.
Qed.

(** One agent's turn in the frame loop keeps it in that state. *)
Lemma flock_body_good (b : Boid) (boids : list Boid) :
  good b -> Forall tame boids -> (Z.of_nat (length boids) <= 4194304)%Z ->
  good (flock_body b boids).
Proof.
  intros [Hb Hacc] Hall Hlen.
  pose proof bpow_126_huge as Hbig. pose proof eta_pos. pose proof eta_tiny.
  pose proof (weighted_force _ SEPARATION_WEIGHT
                (separate_bounded b boids Hb Hall Hlen) ltac:(auto)) as Hsep.
  pose proof (weighted_force _ ALIGNMENT_WEIGHT
                (align_bounded b boids Hb Hall Hlen) ltac:(auto)) as Hali.
  pose proof (weighted_force _ COHESION_WEIGHT
                (cohesion_bounded b boids Hb Hall Hlen) ltac:(auto)) as Hcoh.
  unfold flock_body. cbv zeta.
  set (sep := Vector2Scale (separate b boids) SEPARATION_WEIGHT) in *.
  set (ali := Vector2Scale (align b boids) ALIGNMENT_WEIGHT) in *.
  set (coh := Vector2Scale (cohesion b boids) COHESION_WEIGHT) in *.
  unfold applyForce, update, borders. cbn [position velocity acceleration].
  rewrite Hacc.
  assert (withinv 2
            (Vector2Add (Vector2Add (Vector2Add Vector2Zero sep) ali) coh))
    as Ha.
  { eapply withinv_le.
    - apply Vector2Add_within; [| exact Hcoh |].
      + apply Vector2Add_within; [| exact Hali |].
        * apply Vector2Add_within; [apply (withinv_zero 0); lra | exact Hsep |].
          lra.
        * lra.
      + lra.
    - lra. }
  set (a := Vector2Add (Vector2Add (Vector2Add Vector2Zero sep) ali) coh) in *.
  destruct Hb as [Hp Hv].
  assert (finv (Vector2Add (velocity b) a)) as Hv1.
  { eapply withinv_fin. apply Vector2Add_within; [exact Hv | exact Ha | lra]. }
  assert (withinv 15 (Vector2Scale (Vector2Normalize (Vector2Add (velocity b) a))
                                   MAX_SPEED)) as Hv2.
  { eapply withinv_le.
    - apply Vector2Scale_within;
        [apply Normalize_within, Hv1 | apply within_MAX_SPEED | lra].
    - lra. }
  set (v2 := Vector2Scale (Vector2Normalize (Vector2Add (velocity b) a))
                          MAX_SPEED) in *.
  assert (finv (Vector2Add (position b) v2)) as Hp2.
  { eapply withinv_fin. apply Vector2Add_within; [exact Hp | exact Hv2 | lra]. }
  split; [| reflexivity].
  split; [| exact Hv2].
  split; cbn [x y]; apply wrap_within;
    try (unfold screenWidth, screenHeight; lia); apply Hp2.
Qed.

(** *** The frame loop *)

Lemma good_tame (boids : list Boid) : Forall good boids -> Forall tame boids.
Proof. intros H. eapply Forall_impl; [exact H |]. intros b [Hb _]. exact Hb. Qed.

Lemma flock_at_good (boids : list Boid) (i : nat) :
  Forall good boids -> (Z.of_nat (length boids) <= 4194304)%Z ->
  Forall good (flock_at boids i).
Proof.
  intros Hall Hlen. unfold flock_at.
  destruct (boids !! i) as [b |] eqn:Hi; [| exact Hall].
  apply Forall_insert; [exact Hall |].
  apply flock_body_good; [| apply good_tame, Hall | exact Hlen].
  rewrite Forall_forall in Hall. apply Hall.
  apply (list_elem_of_lookup_2 _ i). exact Hi.
Qed.

Lemma flock_at_size (boids : list Boid) (i : nat) :
  length (flock_at boids i) = length boids.
Proof.
  unfold flock_at. destruct (boids !! i); [apply length_insert | reflexivity].
Qed.

Lemma fold_flock_at_good (l : list nat) (boids : list Boid) :
  Forall good boids -> (Z.of_nat (length boids) <= 4194304)%Z ->
  Forall good (fold_left flock_at l boids) /\
  length (fold_left flock_at l boids) = length boids.
Proof.
  revert boids. induction l as [| i l IH]; intros boids Hall Hlen.
  - split; [exact Hall | reflexivity].
  - cbn [fold_left].
    destruct (IH (flock_at boids i)) as [H1 H2].
    + apply flock_at_good; assumption.
    + rewrite flock_at_size. exact Hlen.
    + split; [exact H1 |]. rewrite H2. apply flock_at_size.
Qed.

Lemma spawn_good (d : Draw) : valid_draw d = true -> good (spawn d).
Proof.
  unfold valid_draw. intros H.
  repeat (apply andb_prop in H as [H ?]).
  unfold screenWidth, screenHeight in *.
  split; [| reflexivity].
  assert (forall n lo hi B, (lo <= n <= hi)%Z -> - B <= IZR lo -> IZR hi <= B ->
                            Rabs (IZR n) <= B) as Hr.
  { intros n lo hi B [Hn1 Hn2] Hlo Hhi. apply IZR_le in Hn1, Hn2.
    apply Rabs_le. lra. }
  split; split; cbn [spawn Boid_new position velocity x y].
  - eapply within_le; [apply (of_int_within _ 1200); [| lra] | lra].
    apply (Hr _ 0%Z 1200%Z); [lia | lra | lra].
  - eapply within_le; [apply (of_int_within _ 1200); [| lra] | lra].
    apply (Hr _ 0%Z 800%Z); [lia | lra | lra].
  - eapply within_le; [apply (of_int_within _ 2); [| lra] | lra].
    apply (Hr _ (-2)%Z 2%Z); [lia | lra | lra].
  - eapply within_le; [apply (of_int_within _ 2); [| lra] | lra].
    apply (Hr _ (-2)%Z 2%Z); [lia | lra | lra].
Qed.

(** Every agent of the initial flock and of the flock after any number of
    frames is in that state. *)
Lemma reachable_good (boids : list Boid) :
  reachable boids ->
  Forall good boids /\ length boids = NUM_BOIDS.
Proof.
  induction 1 as [draws Hlen Hvalid | boids Hr [IH1 IH2]].
  - split; [| rewrite length_fmap; exact Hlen].
    apply Forall_fmap, Forall_forall. intros d Hd.
    apply spawn_good. rewrite forallb_forall in Hvalid.
    apply Hvalid, list_elem_of_In, Hd.
  - unfold tick.
    destruct (fold_flock_at_good (seq 0 (length boids)) boids IH1) as [H1 H2].
    + rewrite IH2. unfold NUM_BOIDS. lia.
    + split; [exact H1 | rewrite H2; exact IH2].
Qed.

(** The same within a frame, after the first [k] agents have had their
    turn. *)
Lemma flock_upto_good (k : nat) (boids : list Boid) :
  reachable boids ->
  Forall good (flock_upto k boids) /\
  length (flock_upto k boids) = NUM_BOIDS.
Proof.
  intros Hr. destruct (reachable_good boids Hr) as [H1 H2].
  unfold flock_upto.
  destruct (fold_flock_at_good (seq 0 k) boids H1) as [H3 H4].
  - rewrite H2. unfold NUM_BOIDS. lia.
  - split; [exact H3 | rewrite H4; exact H2].
Qed.

(** *** From the bounds to comparisons of binary32 values *)

Lemma regular_fin (c : float) : regular c = true <-> fin c.
Proof.
  unfold regular, fin, valid. split.
  - intros H. apply andb_prop in H. exact H.
  - intros [H1 H2]. rewrite H1, H2. reflexivity.
Qed.

Lemma regular_vector_finv (v : Vector2) : regular_vector v = true <-> finv v.
Proof.
  unfold regular_vector, finv. rewrite andb_true_iff, !regular_fin. tauto.
Qed.

Lemma F2R_finite (s : bool) (m : positive) (n : Z) :
  (0 <= n)%Z ->
  F2R (S754_finite s m (- n))
  = (if s then -1 else 1) * IZR (Z.pos m) / IZR (2 ^ n).
Proof. intros Hn. unfold F2R. rewrite bpow_neg_IZR by exact Hn. reflexivity. Qed.

Lemma F2R_FORCE_CEILING : F2R FORCE_CEILING = 13421786 / 134217728.
Proof.
  unfold FORCE_CEILING. change (-27)%Z with (- (27))%Z.
  rewrite F2R_finite by lia. change (IZR (2 ^ 27)) with 134217728.
  change (IZR (Z.pos 13421786)) with 13421786. field.
Qed.

Lemma F2R_SPEED_FLOOR : F2R SPEED_FLOOR = 10485750 / 4194304.
Proof.
  unfold SPEED_FLOOR. change (-22)%Z with (- (22))%Z.
  rewrite F2R_finite by lia. change (IZR (2 ^ 22)) with 4194304.
  change (IZR (Z.pos 10485750)) with 10485750. field.
Qed.

Lemma F2R_SPEED_CEILING : F2R SPEED_CEILING = 10485770 / 4194304.
Proof.
  unfold SPEED_CEILING. change (-22)%Z with (- (22))%Z.
  rewrite F2R_finite by lia. change (IZR (2 ^ 22)) with 4194304.
  change (IZR (Z.pos 10485770)) with 10485770. field.
Qed.

Lemma F2R_SHORT : F2R SHORT = bpow (-29).
Proof.
  unfold SHORT, F2R. change (IZR (Z.pos 8388608)) with (IZR (2 ^ 23)).
  rewrite <- (bpow_IZR 23) by lia.
  replace (1 * bpow 23 * bpow (-52)) with (bpow 23 * bpow (-52)) by ring.
  rewrite <- bpow_add. reflexivity.
Qed.


Lemma fin_SHORT : fin SHORT.
Proof. split; reflexivity. Qed.


Lemma fin_SPEED_FLOOR : fin SPEED_FLOOR.
Proof. split; reflexivity. Qed.

Lemma fin_SPEED_CEILING : fin SPEED_CEILING.
Proof. split; reflexivity. Qed.

Lemma fin_FORCE_CEILING : fin FORCE_CEILING.
Proof. split; reflexivity. Qed.

Lemma bounded_force_ceiling (force : Vector2) :
  bounded_force force -> F32.le (Vector2Length force) FORCE_CEILING = true.
Proof.
  intros [_ [FL HL]].
  apply (le_spec _ _ FL fin_FORCE_CEILING).
  rewrite F2R_FORCE_CEILING. rewrite F2R_MAX_FORCE in HL. lra.
Qed.

(** *** Sums that overflow *)

Lemma add_fin_or_inf (a b : float) :
  fin a -> fin b -> fin (F32.add a b) \/ exists s, F32.add a b = S754_infinity s.
Proof.
  intros Ha Hb. pose proof (add_rounds a b Ha Hb) as H.
  destruct (F32.is_finite (F32.add a b)) eqn:Hf.
  - left. split; [apply (rounds_valid _ _ _ H) | exact Hf].
  - right. destruct (rounds_inf _ _ _ H Hf) as [_ E]. eexists. exact E.
Qed.

Lemma square_infinity (s : bool) :
  F32.mul (S754_infinity s) (S754_infinity s) = pinf.
Proof. destruct s; reflexivity. Qed.

Lemma square_fin_or_pinf (a : float) :
  fin a \/ (exists s, a = S754_infinity s) ->
  fin (F32.mul a a) \/ F32.mul a a = pinf.
Proof.
  intros [Ha | [s ->]].
  - destruct (sq_cases a Ha) as [[E _] | [F _]]; [right | left]; assumption.
  - right. apply square_infinity.
Qed.

Lemma Length_with_infinity (v : Vector2) :
  fin (x v) \/ (exists s, x v = S754_infinity s) ->
  fin (y v) \/ (exists s, y v = S754_infinity s) ->
  finv v \/ Vector2Length v = pinf.
Proof.
  intros Hx Hy. unfold Vector2Length.
  destruct Hx as [Fx | [s Ex]].
  - destruct Hy as [Fy | [t Ey]].
    + left. split; assumption.
    + right. rewrite Ey, square_infinity.
      destruct (sq_cases (x v) Fx) as [[E _] | [F _]].
      * rewrite E. reflexivity.
      * rewrite (add_pinf_r _ F). reflexivity.
  - right. rewrite Ex, square_infinity.
    destruct (square_fin_or_pinf (y v) Hy) as [F | E].
    + rewrite (add_pinf_l _ (or_intror F)). reflexivity.
    + rewrite E. reflexivity.
Qed.

Lemma Vector2Add_regular (v w : Vector2) :
  finv v -> finv w ->
  F32.is_finite (Vector2Length (Vector2Add v w)) = true ->
  finv (Vector2Add v w).
Proof.
  intros [Vx Vy] [Wx Wy] HL.
  destruct (Length_with_infinity (Vector2Add v w)) as [H | H].
  - apply add_fin_or_inf; assumption.
  - apply add_fin_or_inf; assumption.
  - exact H.
  - rewrite H in HL. discriminate.
Qed.

Lemma fin_is_number (v : Vector2) : finv v -> is_number v = true.
Proof.
  intros [[_ Hx] [_ Hy]]. unfold is_number.
  destruct (x v), (y v); try discriminate; reflexivity.
Qed.

(** No coordinate of a position is ever NaN. *)
Lemma reachable_is_number (boids : list Boid) (b : Boid) :
  reachable boids -> b ∈ boids -> is_number (position b) = true.
Proof.
  intros Hr Hb. destruct (reachable_good boids Hr) as [Hall _].
  rewrite Forall_forall in Hall. destruct (Hall b Hb) as [[Hp _] _].
  apply fin_is_number. eapply withinv_fin, Hp.
Qed.

(** *** The alignment force of agents that share their velocity *)

Lemma bpow_double (e : Z) : bpow e + bpow e = bpow (e + 1).
Proof. rewrite bpow_succ. ring. Qed.







(** * The claims that hold up to rounding *)

(** ** The speed after [update] *)

(** C2, as stated, fails, in two ways.  The length of the velocity that
    [update] stores is [MAX_SPEED] up to rounding only: for [north] with the
    forces of its first frame among [[north; north_east]] applied,
    [Vector2Length] of the new velocity is one unit in the last place below
    [MAX_SPEED].  And a sum [velocity + acceleration] that is not the zero
    vector, but so short that its squares underflow, has computed length 0:
    [Vector2Normalize] returns the zero vector and the agent stops. *)
Lemma update_speed_off :
  Vector2Add (velocity pushed_north) (acceleration pushed_north)
    = mkVector2 (S754_finite false 9939244 (-28))
                (S754_finite false 16407887 (-24)) /\
  Vector2Length (velocity (update pushed_north))
    = S754_finite false 10485759 (-22) /\
  F32.lt (Vector2Length (velocity (update pushed_north))) MAX_SPEED = true /\
  Vector2Add (velocity crawling) (acceleration crawling)
    = mkVector2 (S754_finite false 8388608 (-123))
                (S754_finite false 8388608 (-123)) /\
  velocity (update crawling) = Vector2Zero /\
  Vector2Length (velocity (update crawling)) = F32.zero.
Proof.
  split; [vm_compute; reflexivity |].
  split; [vm_compute; reflexivity |].
  split; [vm_compute; reflexivity |].
  split; [vm_compute; reflexivity |].
  split; vm_compute; reflexivity.
Qed.

(** C2, amended: when the velocity and the acceleration of an agent are
    finite binary32 values and the length of their sum, as [Vector2Length]
    computes it, is at least [2^-29] and does not overflow, the length of the
    velocity that [update] stores, as [Vector2Length] computes it, lies
    between [MAX_SPEED * (1 - 2^-20)] and [MAX_SPEED * (1 + 2^-20)], that is
    within 10 units in the last place of [MAX_SPEED]. *)
Theorem update_speed (b : Boid) :
  regular_vector (velocity b) = true ->
  regular_vector (acceleration b) = true ->
  F32.le SHORT (Vector2Length (Vector2Add (velocity b) (acceleration b))) = true ->
  F32.is_finite (Vector2Length (Vector2Add (velocity b) (acceleration b))) = true ->
  F32.le SPEED_FLOOR (Vector2Length (velocity (update b))) = true /\
  F32.le (Vector2Length (velocity (update b))) SPEED_CEILING = true.
Proof.
  intros Hv Ha Hshort Hfin.
  apply regular_vector_finv in Hv, Ha.
  pose proof (Vector2Add_regular _ _ Hv Ha Hfin) as Hv1.
  set (v1 := Vector2Add (velocity b) (acceleration b)) in *.
  destruct (Length_cases v1 Hv1) as [[E _] | [FL [[L0 _] [_ HLL]]]].
  { rewrite E in Hfin. discriminate. }
  apply (le_spec _ _ fin_SHORT FL) in Hshort.
  rewrite F2R_SHORT in Hshort.
  assert (bpow (-60) <= norm2 v1) as HN.
  { rewrite u_val in HLL. pose proof eta_pos as He.
    assert (eta <= bpow (-60) * / 1024) as He'.
    { assert (bpow (-60) * / 1024 = bpow (-70)) as ->.
      { replace (/ 1024) with (bpow (- (10))).
        - rewrite <- bpow_add. reflexivity.
        - rewrite bpow_neg_IZR by lia. reflexivity. }
      apply bpow_le. lia. }
    pose proof (bpow_pos (-60)) as H60.
    assert (bpow (-29) * bpow (-29) = 4 * bpow (-60)) as E58.
    { rewrite bpow_half. change (2 * -29)%Z with (-60 + 1 + 1)%Z.
      rewrite !bpow_succ. ring. }
    pose proof (bpow_pos (-29)) as H29.
    set (l := F2R (Vector2Length v1)) in *.
    assert (4 * bpow (-60) <= l * l) by (rewrite <- E58; nra).
    lra. }
  destruct (update_speed_bounds b Hv1 FL HN) as [_ [FL' [HL' _]]].
  split.
  - apply (le_spec _ _ fin_SPEED_FLOOR FL').
    rewrite F2R_SPEED_FLOOR. lra.
  - apply (le_spec _ _ FL' fin_SPEED_CEILING).
    rewrite F2R_SPEED_CEILING. lra.
Qed.

Lemma update_speed_witness :
  regular_vector (velocity pushed_north) = true /\
  regular_vector (acceleration pushed_north) = true /\
  F32.le SHORT
         (Vector2Length (Vector2Add (velocity pushed_north)
                                    (acceleration pushed_north))) = true /\
  F32.is_finite
    (Vector2Length (Vector2Add (velocity pushed_north)
                               (acceleration pushed_north))) = true /\
  F32.le SPEED_FLOOR (Vector2Length (velocity (update pushed_north))) = true /\
  F32.le (Vector2Length (velocity (update pushed_north))) SPEED_CEILING = true.
Proof.
  split; [vm_compute; reflexivity |].
  split; [vm_compute; reflexivity |].
  split; [vm_compute; reflexivity |].
  split; [vm_compute; reflexivity |].
  apply (update_speed pushed_north); vm_compute; reflexivity.
Defined.

(** ** Positions of the reachable flocks *)

(** C4, amended: in the initial flock and after every frame, the position of
    every agent lies in the closed rectangle [[0, width] x [0, height]],
    edges included: both coordinates are numbers, never NaN, and neither is
    below 0 or above its bound. *)
Theorem reachable_on_screen (boids : list Boid) (b : Boid) :
  reachable boids -> b ∈ boids -> on_screen (position b) = true.
Proof.
  intros Hr Hb. apply kept_on_screen_closed.
  - apply (reachable_not_outside boids b Hr Hb).
  - apply (reachable_is_number boids b Hr Hb).
Qed.

Lemma reachable_on_screen_witness :
  reachable (tick pair_flock) /\
  flock_body (spawn (mkDraw 100 100 1 1)) pair_flock ∈ tick pair_flock /\
  on_screen (position (flock_body (spawn (mkDraw 100 100 1 1)) pair_flock))
    = true.
Proof.
  assert (reachable (tick pair_flock)) as Hr
    by (apply reachable_tick, reachable_init; reflexivity).
  assert (flock_body (spawn (mkDraw 100 100 1 1)) pair_flock ∈ tick pair_flock)
    as Hin.
  { apply (list_elem_of_lookup_2 _ 0%nat).
    rewrite (tick_lookup pair_flock 0 (spawn (mkDraw 100 100 1 1)) eq_refl).
    rewrite take_0. reflexivity. }
  split; [exact Hr | split; [exact Hin |]].
  exact (reachable_on_screen (tick pair_flock) _ Hr Hin).
Defined.

(** ** The length of the steering forces *)

(** C5, as stated, fails: in the initial flock [pair_flock] the first agent
    has a neighbour, and [Vector2Length] of its alignment force is one unit
    in the last place above [MAX_FORCE]. *)
Lemma align_force_above_MAX_FORCE :
  reachable pair_flock /\
  spawn (mkDraw 100 100 1 1) ∈ pair_flock /\
  in_radius NEIGHBOR_RADIUS (spawn (mkDraw 100 100 1 1))
            (spawn (mkDraw 110 100 0 1)) = true /\
  Vector2Length (align (spawn (mkDraw 100 100 1 1)) pair_flock)
    = S754_finite false 13421774 (-27) /\
  F32.le (Vector2Length (align (spawn (mkDraw 100 100 1 1)) pair_flock))
         MAX_FORCE = false.
Proof.
  split; [apply reachable_init; reflexivity |].
  split; [apply list_elem_of_here |].
  split; [vm_compute; reflexivity |].
  split; vm_compute; reflexivity.
Qed.

(** C5, amended: for every agent of a flock of the simulation, at the start
    of a frame or after the first [k] agents of the frame have been updated
    (the flocks on which the loop calls the rules), the length of each of
    the three steering forces, as [Vector2Length] computes it, is at most
    [MAX_FORCE * (1 + 2^-20)]: it is a finite number not above
    [FORCE_CEILING], 13 units in the last place above [MAX_FORCE]. *)
Theorem steering_force_bounded (boids : list Boid) (k : nat) (self : Boid) :
  reachable boids -> self ∈ flock_upto k boids ->
  F32.le (Vector2Length (separate self (flock_upto k boids))) FORCE_CEILING
    = true /\
  F32.le (Vector2Length (align self (flock_upto k boids))) FORCE_CEILING
    = true /\
  F32.le (Vector2Length (cohesion self (flock_upto k boids))) FORCE_CEILING
    = true.
Proof.
  intros Hr Hself.
  destruct (flock_upto_good k boids Hr) as [Hall Hlen].
  assert (tame self) as Hs.
  { rewrite Forall_forall in Hall. apply (Hall self Hself). }
  pose proof (good_tame _ Hall) as Htame.
  assert (Z.of_nat (length (flock_upto k boids)) <= 4194304)%Z as Hsize
    by (rewrite Hlen; unfold NUM_BOIDS; lia).
  split; [| split]; apply bounded_force_ceiling.
  - apply separate_bounded; assumption.
  - apply align_bounded; assumption.
  - apply cohesion_bounded; assumption.
Qed.

Lemma steering_force_bounded_witness :
  reachable pair_flock /\
  spawn (mkDraw 100 100 1 1) ∈ flock_upto 0 pair_flock /\
  F32.le (Vector2Length (separate (spawn (mkDraw 100 100 1 1))
                                  (flock_upto 0 pair_flock)))
         FORCE_CEILING = true /\
  F32.le (Vector2Length (align (spawn (mkDraw 100 100 1 1))
                               (flock_upto 0 pair_flock)))
         FORCE_CEILING = true /\
  F32.le (Vector2Length (cohesion (spawn (mkDraw 100 100 1 1))
                                  (flock_upto 0 pair_flock)))
         FORCE_CEILING = true.
Proof.
  assert (reachable pair_flock) as Hr by (apply reachable_init; reflexivity).
  assert (spawn (mkDraw 100 100 1 1) ∈ flock_upto 0 pair_flock) as Hin
    by apply list_elem_of_here.
  split; [exact Hr | split; [exact Hin |]].
  exact (steering_force_bounded pair_flock 0 _ Hr Hin).
Defined.

(** ** Alignment of three agents with one velocity *)


